(** * Email delivery lifecycle tracking: a shallow embedding

    The definitions below embed the serverless functions of the email
    subsystem (supabase/functions/*/index.ts):

    - track-email-open      (tracking pixel endpoint)
    - process-bounce-checks (pending pass and general sweep)
    - sync-email-bounces    (bounce synchronisation per sender)
    - process-email-replies (reply reconciliation)
    - send-email            (token provider, body wrapper, handler)
    - the bounce-mark endpoint and the earlier per-email bounce checker

    Text is modelled as [string] (a sequence of 8-bit code units, ASCII
    text); timestamps are [Z] milliseconds since the epoch; the record
    store is a record of tables, each table a list of rows.  A handler is
    a computation in a state-and-exception monad over the store: every
    call to the store may succeed, come back with an error result, or
    throw, as an oracle decides.  The answers of the identity endpoint
    and of the mailbox API are parameters.  One invocation runs at one
    instant [now] and is not interleaved with another one. *)

From Stdlib Require Import ZArith List Bool Ascii String Lia Relations.
From Stdlib Require Import DecimalString.
Import ListNotations.

Local Open Scope string_scope.

(* ================================================================== *)
(** ** JavaScript string primitives used by the handlers *)
(* ================================================================== *)

Module Js.

Definition chars := list ascii.

Definition code (c : ascii) : N := N_of_ascii c.

Definition in_range (lo hi : ascii) (c : ascii) : bool :=
  (code lo <=? code c)%N && (code c <=? code hi)%N.

Definition is_upper (c : ascii) : bool := in_range "A" "Z" c.
Definition is_lower (c : ascii) : bool := in_range "a" "z" c.
Definition is_digit (c : ascii) : bool := in_range "0" "9" c.

(** [String.prototype.toLowerCase] on one code unit: A-Z are shifted,
    everything else is kept. *)
Definition lower_char (c : ascii) : ascii :=
  if is_upper c then ascii_of_N (code c + 32) else c.

Definition toLowerCase (s : string) : string :=
  string_of_list_ascii (map lower_char (list_ascii_of_string s)).

(** The white space of [\s] and of [trim]: TAB, LF, VT, FF, CR, SP and
    NBSP. *)
Definition is_space (c : ascii) : bool :=
  let n := code c in
  ((9 <=? n) && (n <=? 13) || (n =? 32) || (n =? 160))%N.

Definition is_word (c : ascii) : bool :=
  is_upper c || is_lower c || is_digit c || Ascii.eqb c "_".

Fixpoint prefix_chars (p s : chars) : bool :=
  match p, s with
  | [], _ => true
  | a :: p', b :: s' => Ascii.eqb a b && prefix_chars p' s'
  | _ :: _, [] => false
  end.

Fixpoint includes_chars (s p : chars) : bool :=
  prefix_chars p s ||
  match s with
  | [] => false
  | _ :: s' => includes_chars s' p
  end.

(** [s.includes(p)] *)
Definition includes (s p : string) : bool :=
  includes_chars (list_ascii_of_string s) (list_ascii_of_string p).

Fixpoint drop_spaces (s : chars) : chars :=
  match s with
  | c :: s' => if is_space c then drop_spaces s' else s
  | [] => []
  end.

(** [s.trim()] *)
Definition trim_chars (s : chars) : chars :=
  rev (drop_spaces (rev (drop_spaces s))).

Definition trim (s : string) : string :=
  string_of_list_ascii (trim_chars (list_ascii_of_string s)).

(** [s.split(',')[0]] *)
Fixpoint before_comma (s : chars) : chars :=
  match s with
  | [] => []
  | c :: s' => if Ascii.eqb c "," then [] else c :: before_comma s'
  end.

(** [s.substring(0, n)] *)
Definition substring0 (n : nat) (s : string) : string :=
  string_of_list_ascii (firstn n (list_ascii_of_string s)).

(** [s.replace(/^<|>$/g, '')]: one leading [<] and one trailing [>]
    are removed. *)
Definition strip_head_lt (s : chars) : chars :=
  match s with
  | c :: s' => if Ascii.eqb c "<" then s' else s
  | [] => []
  end.

Definition strip_last_gt (s : chars) : chars :=
  match rev s with
  | c :: r => if Ascii.eqb c ">" then rev r else s
  | [] => []
  end.

Definition strip_angle (s : string) : string :=
  string_of_list_ascii
    (strip_last_gt (strip_head_lt (list_ascii_of_string s))).

(** [s.split(/\s+/)]: the pieces between runs of white space (empty
    pieces appear only at the two ends). *)
Fixpoint split_ws_aux (s : chars) (cur : chars) (in_ws : bool)
  : list chars :=
  match s with
  | [] => [rev cur]
  | c :: s' =>
      if is_space c
      then if in_ws then split_ws_aux s' cur true
           else rev cur :: split_ws_aux s' [] true
      else split_ws_aux s' (c :: cur) false
  end.

Definition split_ws (s : string) : list string :=
  map string_of_list_ascii
      (split_ws_aux (list_ascii_of_string s) [] false).

(** Truthiness of a [string | null | undefined] value. *)
Definition truthy (v : option string) : bool :=
  match v with
  | Some s => negb (String.eqb s "")
  | None => false
  end.

(** [a || b] on such values. *)
Definition or_else (a b : option string) : option string :=
  if truthy a then a else b.

End Js.

(* ================================================================== *)
(** ** A backtracking matcher for the regular expressions of the source

    The semantics is the one of [RegExp.prototype.exec] without the
    global flag: the left-most start position at which the backtracking
    matcher succeeds, alternatives tried left to right, quantifiers
    greedy unless marked lazy. *)
(* ================================================================== *)

Module Regex.

Import Js.

Inductive regex : Type :=
| Eps
| Chr (p : ascii -> bool)
| Seq (a b : regex)
| Alt (a b : regex)
| Rep (greedy : bool) (a : regex)
| Grp (i : nat) (a : regex)
| WordB
| Eoi.

Record mstate := MState {
  pre : chars;                     (* consumed input, reversed *)
  rest : chars;                    (* remaining input *)
  caps : list (nat * chars)        (* captures, newest first *)
}.

Definition at_word_boundary (st : mstate) : bool :=
  let a := match pre st with c :: _ => is_word c | [] => false end in
  let b := match rest st with c :: _ => is_word c | [] => false end in
  xorb a b.

Definition taken (from : nat) (st : mstate) : chars :=
  rev (firstn (List.length (pre st) - from) (pre st)).

Fixpoint run (r : regex) (st : mstate) (k : mstate -> option mstate)
  {struct r} : option mstate :=
  match r with
  | Eps => k st
  | Chr p =>
      match rest st with
      | c :: t => if p c then k (MState (c :: pre st) t (caps st)) else None
      | [] => None
      end
  | Seq a b => run a st (fun st' => run b st' k)
  | Alt a b =>
      match run a st k with
      | Some x => Some x
      | None => run b st k
      end
  | Rep greedy a =>
      (fix loop (n : nat) (st : mstate) {struct n} : option mstate :=
         match n with
         | O => k st
         | S n' =>
             let again := fun st' =>
               if (List.length (rest st') <? List.length (rest st))%nat
               then loop n' st' else None in
             if greedy
             then match run a st again with
                  | Some x => Some x
                  | None => k st
                  end
             else match k st with
                  | Some x => Some x
                  | None => run a st again
                  end
         end) (S (List.length (rest st))) st
  | Grp i a =>
      let from := List.length (pre st) in
      run a st (fun st' =>
        k (MState (pre st') (rest st') ((i, taken from st') :: caps st')))
  | WordB => if at_word_boundary st then k st else None
  | Eoi => match rest st with [] => k st | _ :: _ => None end
  end.

Record result := Result {
  whole : string;                  (* match[0] *)
  groups : list (nat * chars)
}.

Fixpoint exec_from (r : regex) (before after : chars) {struct after}
  : option result :=
  match run r (MState before after []) Some with
  | Some st =>
      Some (Result (string_of_list_ascii (taken (List.length before) st))
                   (caps st))
  | None =>
      match after with
      | [] => None
      | c :: t => exec_from r (c :: before) t
      end
  end.

(** [s.match(r)] for a non-global [r]. *)
Definition exec (r : regex) (s : string) : option result :=
  exec_from r [] (list_ascii_of_string s).

Fixpoint lookup (i : nat) (g : list (nat * chars)) : option chars :=
  match g with
  | [] => None
  | (j, v) :: g' => if Nat.eqb i j then Some v else lookup i g'
  end.

(** [match[i]] for a group that took part in the match. *)
Definition group (i : nat) (m : result) : string :=
  match lookup i (groups m) with
  | Some v => string_of_list_ascii v
  | None => ""
  end.

Definition test (r : regex) (s : string) : bool :=
  match exec r s with Some _ => true | None => false end.

(** *** Pattern combinators *)

Definition chr (c : ascii) : regex := Chr (Ascii.eqb c).
(** a literal character under the [i] flag *)
Definition chr_i (c : ascii) : regex :=
  Chr (fun x => Ascii.eqb (lower_char x) (lower_char c)).

Fixpoint seqs (l : list regex) : regex :=
  match l with
  | [] => Eps
  | [a] => a
  | a :: l' => Seq a (seqs l')
  end.

Definition lit (s : string) : regex :=
  seqs (map chr (list_ascii_of_string s)).
Definition lit_i (s : string) : regex :=
  seqs (map chr_i (list_ascii_of_string s)).

Fixpoint alts (l : list regex) : regex :=
  match l with
  | [] => Eps
  | [a] => a
  | a :: l' => Alt a (alts l')
  end.

Definition star (a : regex) : regex := Rep true a.
Definition star_lazy (a : regex) : regex := Rep false a.
Definition plus (a : regex) : regex := Seq a (Rep true a).
Definition opt (a : regex) : regex := Alt a Eps.
Definition at_least2 (a : regex) : regex := Seq a (Seq a (Rep true a)).

Definition one_of (s : string) (c : ascii) : bool :=
  existsb (Ascii.eqb c) (list_ascii_of_string s).

Definition space : regex := Chr is_space.
Definition digit : regex := Chr is_digit.
(** [.] : anything but a line terminator *)
Definition dot : regex :=
  Chr (fun c => negb (Ascii.eqb c "010" || Ascii.eqb c "013")).
Definition none_of (s : string) : regex := Chr (fun c => negb (one_of s c)).

End Regex.

(* ================================================================== *)
(** ** The NDR parser, as found in process-bounce-checks and in
       sync-email-bounces *)
(* ================================================================== *)

Module Ndr.

Import Js Regex.

Record parsed := Parsed {
  recipientEmail : option string;
  reason : option string;
  originalSubject : option string
}.

(** [[a-zA-Z0-9._%+-]] *)
Definition local_part (c : ascii) : bool :=
  is_lower c || is_upper c || is_digit c || one_of "._%+-" c.
(** [[a-zA-Z0-9.-]] *)
Definition domain_part (c : ascii) : bool :=
  is_lower c || is_upper c || is_digit c || one_of ".-" c.
(** [[a-zA-Z]] *)
Definition alpha (c : ascii) : bool := is_lower c || is_upper c.

(** [[a-zA-Z0-9.-]+\.[a-zA-Z]{2,}] *)
Definition host : regex :=
  seqs [plus (Chr domain_part); chr "."; at_least2 (Chr alpha)].

(** [([a-zA-Z0-9._%+-]+@[a-zA-Z0-9.-]+\.[a-zA-Z]{2,})], group 1 *)
Definition address : regex :=
  Grp 1 (seqs [plus (Chr local_part); chr "@"; host]).

(** [['']] *)
Definition apostrophe : regex := Chr (one_of "''").

(** The loop [for (const pattern of patterns) { const match =
    text.match(pattern); if (match) { ...; break; } }]. *)
Fixpoint first_match (patterns : list regex) (text : string)
  : option result :=
  match patterns with
  | [] => None
  | p :: rest =>
      match exec p text with
      | Some m => Some m
      | None => first_match rest text
      end
  end.

Definition trimmed_reason (s : string) : string :=
  substring0 500 (trim s).

(** [/Undeliverable:\s*(.+)/i] *)
Definition subject_undeliverable : regex :=
  seqs [lit_i "Undeliverable:"; star space; Grp 1 (plus dot)].
(** [/Delivery Status Notification.*?:\s*(.+)/i] *)
Definition subject_dsn : regex :=
  seqs [lit_i "Delivery Status Notification"; star_lazy dot; chr ":";
        star space; Grp 1 (plus dot)].

(** either quote character, the class written with an apostrophe and
    a double quote in the source *)
Definition quote_char (c : ascii) : bool :=
  Ascii.eqb c "'" || Ascii.eqb c "034".

(** The diagnostic pattern: (?:Remote Server returned|Diagnostic
    information), a lazy .*, an optional quote, group 1 =
    \d{3}\s+\d\.\d\.\d+ followed lazily by non-quote characters, an
    optional quote, and (?:\s|$); flag i. *)
Definition reason_diagnostic : regex :=
  seqs [Alt (lit_i "Remote Server returned")
            (lit_i "Diagnostic information");
        star_lazy dot;
        opt (Chr quote_char);
        Grp 1 (seqs [digit; digit; digit; plus space; digit; chr ".";
                     digit; chr "."; plus digit;
                     star_lazy (Chr (fun c => negb (quote_char c)))]);
        opt (Chr quote_char);
        Alt space Eoi].
(** [/(550\s+\d\.\d\.\d+[^\n]* )/i] *)
Definition reason_550 : regex :=
  Grp 1 (seqs [lit "550"; plus space; digit; chr "."; digit; chr ".";
               plus digit;
               star (Chr (fun c => negb (Ascii.eqb c "010")))]).

End Ndr.

(* ================================================================== *)
(** ** The record store *)
(* ================================================================== *)

Inductive Status := sent | delivered | opened | bounced | replied.
Inductive BounceType := hard | soft.
Inductive CheckResult := check_ok | check_bounced.
Inductive NotificationType := email_opened | email_bounced | email_replied.

Definition status_eqb (a b : Status) : bool :=
  match a, b with
  | sent, sent | delivered, delivered | opened, opened
  | bounced, bounced | replied, replied => true
  | _, _ => false
  end.

(** A row of [email_history] (the columns the functions read or write). *)
Record EmailHistory := mkEmail {
  id : string;
  recipient_email : string;
  recipient_name : option string;
  sender_email : string;
  subject : string;
  status : Status;
  sent_by : option string;
  sent_at : option Z;
  contact_id : option string;
  lead_id : option string;
  open_count : option Z;
  unique_opens : option Z;
  first_open_ip : option string;
  opened_at : option Z;
  is_valid_open : option bool;
  bounce_type : option BounceType;
  bounce_reason : option string;
  bounced_at : option Z;
  message_id : option string;
  reply_count : option Z;
  replied_at : option Z;
  last_reply_at : option Z
}.

(** A row of [pending_bounce_checks]. *)
Record PendingBounceCheck := mkPending {
  pc_id : string;
  email_history_id : option string;
  pc_sender_email : string;
  pc_recipient_email : string;
  check_after : Z;
  checked : bool;
  check_result : option CheckResult;
  created_at : Z
}.

(** A row of [email_replies]. *)
Record EmailReply := mkReply {
  er_email_history_id : string;
  from_email : string;
  from_name : option string;
  er_subject : string;
  body_preview : string;
  received_at : option Z;
  graph_message_id : string
}.

(** A row of [contacts] (the engagement columns). *)
Record Contact := mkContact {
  c_id : string;
  email_opens : option Z;
  engagement_score : option Z
}.

(** A row of [notifications]. *)
Record Notification := mkNotification {
  user_id : string;
  message : string;
  notification_type : NotificationType;
  n_lead_id : option string
}.

Record DB := mkDB {
  email_history : list EmailHistory;
  pending_bounce_checks : list PendingBounceCheck;
  email_replies : list EmailReply;
  contacts : list Contact;
  notifications : list Notification
}.

(** [x || 0] on a nullable number. *)
Definition num (x : option Z) : Z :=
  match x with
  | Some n => n
  | None => 0
  end.

Module Store.

(** [UPDATE t SET ... WHERE p]: every row satisfying [p] is rewritten. *)
Definition update_where {A} (p : A -> bool) (f : A -> A) (t : list A)
  : list A :=
  map (fun r => if p r then f r else r) t.

(** [.single()]: the row, provided the query returned exactly one. *)
Definition single {A} (rows : list A) : option A :=
  match rows with
  | [r] => Some r
  | _ => None
  end.

Definition with_email_history (d : DB) (t : list EmailHistory) : DB :=
  mkDB t (pending_bounce_checks d) (email_replies d) (contacts d)
       (notifications d).
Definition with_pending (d : DB) (t : list PendingBounceCheck) : DB :=
  mkDB (email_history d) t (email_replies d) (contacts d)
       (notifications d).
Definition with_replies (d : DB) (t : list EmailReply) : DB :=
  mkDB (email_history d) (pending_bounce_checks d) t (contacts d)
       (notifications d).
Definition with_contacts (d : DB) (t : list Contact) : DB :=
  mkDB (email_history d) (pending_bounce_checks d) (email_replies d) t
       (notifications d).
Definition with_notifications (d : DB) (t : list Notification) : DB :=
  mkDB (email_history d) (pending_bounce_checks d) (email_replies d)
       (contacts d) t.

Definition has_id (i : string) (r : EmailHistory) : bool :=
  String.eqb (id r) i.

(** [from('email_history').update(f).eq('id', i)] *)
Definition update_email (i : string) (f : EmailHistory -> EmailHistory)
  (d : DB) : DB :=
  with_email_history d (update_where (has_id i) f (email_history d)).

(** [from('email_history').select(...).eq('id', i)] *)
Definition select_email (i : string) (d : DB) : list EmailHistory :=
  filter (has_id i) (email_history d).

Definition select_contact (i : string) (d : DB) : list Contact :=
  filter (fun c => String.eqb (c_id c) i) (contacts d).

Definition update_contact (i : string) (f : Contact -> Contact) (d : DB)
  : DB :=
  with_contacts d
    (update_where (fun c => String.eqb (c_id c) i) f (contacts d)).

Definition insert_notification (n : Notification) (d : DB) : DB :=
  with_notifications d (notifications d ++ [n]).

Definition insert_reply (r : EmailReply) (d : DB) : DB :=
  with_replies d (email_replies d ++ [r]).

(** *** Calls to the store

    Each call to the store is numbered in the order in which a handler
    issues it.  The outside world decides for each call whether it goes
    through, comes back with an [error] field, or throws. *)

Inductive Fault := NoFault | Failed | Thrown.

Record World := mkWorld {
  db : DB;
  calls : nat
}.

Inductive outcome (A : Type) :=
| Ok (a : A)
| Exn (what : string).
Arguments Ok {A} a.
Arguments Exn {A} what.

Definition M (A : Type) : Type := World -> outcome A * World.

Definition ret {A} (a : A) : M A := fun w => (Ok a, w).

Definition bind {A B} (m : M A) (f : A -> M B) : M B :=
  fun w =>
    match m w with
    | (Ok a, w') => f a w'
    | (Exn e, w') => (Exn e, w')
    end.

Definition throw {A} (e : string) : M A := fun w => (Exn e, w).

(** [try { m } catch (e) { h(e) }] *)
Definition try_catch {A} (m : M A) (h : string -> M A) : M A :=
  fun w =>
    match m w with
    | (Ok a, w') => (Ok a, w')
    | (Exn e, w') => h e w'
    end.

(** [m], with an exception turned into [None] *)
Definition attempt {A} (m : M A) : M (option A) :=
  fun w =>
    match m w with
    | (Ok a, w') => (Ok (Some a), w')
    | (Exn _, w') => (Ok None, w')
    end.

(** A query: [Some rows] is [{ data: rows, error: null }], [None] is
    [{ data: null, error }]. *)
Definition query {A} (faults : nat -> Fault) (q : DB -> A) : M (option A) :=
  fun w =>
    let w' := mkWorld (db w) (S (calls w)) in
    match faults (calls w) with
    | NoFault => (Ok (Some (q (db w))), w')
    | Failed => (Ok None, w')
    | Thrown => (Exn "store call failed", w')
    end.

(** A write: [true] is [{ error: null }]. *)
Definition write (faults : nat -> Fault) (u : DB -> DB) : M bool :=
  fun w =>
    match faults (calls w) with
    | NoFault => (Ok true, mkWorld (u (db w)) (S (calls w)))
    | Failed => (Ok false, mkWorld (db w) (S (calls w)))
    | Thrown => (Exn "store call failed", mkWorld (db w) (S (calls w)))
    end.

(** [for (const x of l) { body(x) }] *)
Fixpoint for_each {A} (l : list A) (body : A -> M unit) : M unit :=
  match l with
  | [] => ret tt
  | x :: l' => bind (body x) (fun _ => for_each l' body)
  end.

(** A loop that threads an accumulator (the local variables the body
    assigns). *)
Fixpoint fold_m {A S} (l : list A) (body : S -> A -> M S) (s : S) : M S :=
  match l with
  | [] => ret s
  | x :: l' => bind (body s x) (fold_m l' body)
  end.

Definition reliable : nat -> Fault := fun _ => NoFault.

Definition start (d : DB) : World := mkWorld d 0.

End Store.

Declare Scope store_scope.
Notation "x <- m ;; k" := (Store.bind m (fun x => k))
  (at level 61, m at next level, right associativity) : store_scope.
Notation "m ;;; k" := (Store.bind m (fun _ => k))
  (at level 61, right associativity) : store_scope.

(** HTTP responses *)

Local Unset Elimination Schemes.
Inductive json :=
| JNull
| JBool (b : bool)
| JNum (n : Z)
| JStr (s : string)
| JArr (l : list json)
| JObj (fields : list (string * json)).
Local Set Elimination Schemes.

Inductive Body :=
| NoBody
| Bytes (b : list Z)
| Json (j : json).

Record Response := mkResponse {
  http_status : Z;
  headers : list (string * string);
  body : Body
}.

Definition corsHeaders : list (string * string) :=
  [("Access-Control-Allow-Origin", "*");
   ("Access-Control-Allow-Headers",
    "authorization, x-client-info, apikey, content-type")].

Definition json_response (code : Z) (j : json) : Response :=
  mkResponse code (corsHeaders ++ [("Content-Type", "application/json")])
             (Json j).

(** Time: the source divides a difference of millisecond time stamps by
    1000 and compares the quotient with a number of seconds; on integers
    this is the comparison of the difference with that many thousands. *)
Definition seconds_below (ms s : Z) : bool := (ms <? s * 1000)%Z.
Definition seconds_above (ms s : Z) : bool := (s * 1000 <? ms)%Z.

Definition dquote : string := String "034" EmptyString.

(** A number inside a template literal. *)
Definition show_Z (z : Z) : string := NilZero.string_of_int (Z.to_int z).

(* ================================================================== *)
(** ** track-email-open/index.ts *)
(* ================================================================== *)

Module TrackEmailOpen.

Import Js Store.
Local Open Scope store_scope.

Definition TRACKING_PIXEL : list Z :=
  [0x47; 0x49; 0x46; 0x38; 0x39; 0x61; 0x01; 0x00; 0x01; 0x00; 0x80; 0x00;
   0x00; 0xff; 0xff; 0xff; 0x00; 0x00; 0x00; 0x21; 0xf9; 0x04; 0x01; 0x00;
   0x00; 0x00; 0x00; 0x2c; 0x00; 0x00; 0x00; 0x00; 0x01; 0x00; 0x01; 0x00;
   0x00; 0x02; 0x02; 0x44; 0x01; 0x00; 0x3b]%Z.

Definition PIXEL_HEADERS : list (string * string) :=
  [("Content-Type", "image/gif");
   ("Cache-Control", "no-store, no-cache, must-revalidate, proxy-revalidate");
   ("Pragma", "no-cache");
   ("Expires", "0")].

Definition BOT_USER_AGENTS : list string :=
  ["microsoft-exchange"; "msexchange"; "barracuda"; "proofpoint";
   "mimecast"; "fireeye"; "googleimageproxy"; "ymailproxy"; "outlookproxy";
   "yahoo mail proxy"; "appengine-google"; "googlebot"; "bingbot"; "slurp";
   "duckduckbot"; "baiduspider"; "yandexbot"; "facebookexternalhit";
   "twitterbot"; "linkedinbot"; "slackbot"; "whatsapp"; "telegrambot";
   "discordbot"; "python-requests"; "curl"; "wget"; "httpie"; "postman";
   "insomnia"; "apache-httpclient"; "java/"; "okhttp"; "go-http-client";
   "libwww-perl"; "ruby"; "php/"; "guzzle"; "headlesschrome"; "phantomjs";
   "selenium"; "puppeteer"; "playwright"; "atp-"; "forefront"; "safelinks";
   "safe links"; "protection.outlook"; "defender"; "safebrowsing";
   "emailsecurity"; "mailscanner"; "spamassassin"; "spamhaus";
   "messagelabs"; "websense"; "symantec"; "trend micro"; "kaspersky";
   "sophos"; "mcafee"; "norton"; "avast"; "avg"; "clam"; "bitdefender";
   "f-secure"; "panda"; "comodo"; "eset"; "g data"; "zonealarm"; "webroot";
   "malwarebytes"].

Definition MIN_OPEN_DELAY_SECONDS : Z := 5.
Definition DEDUP_WINDOW_SECONDS : Z := 300.

Definition isBotUserAgent (userAgent : option string) : bool :=
  match userAgent with
  | None => true
  | Some ua =>
      if String.eqb ua "" then true
      else
        let lowerUA := toLowerCase ua in
        existsb (fun bot => includes lowerUA bot) BOT_USER_AGENTS
  end.

Record Request := mkRequest {
  id_param : option string;          (* url.searchParams.get("id") *)
  user_agent : option string;
  x_forwarded_for : option string;
  x_real_ip : option string;
  cf_connecting_ip : option string
}.

Definition getClientIP (req : Request) : string :=
  if truthy (x_forwarded_for req) then
    match x_forwarded_for req with
    | Some f =>
        string_of_list_ascii
          (trim_chars (before_comma (list_ascii_of_string f)))
    | None => "unknown"
    end
  else if truthy (x_real_ip req) then
    match x_real_ip req with Some i => i | None => "unknown" end
  else if truthy (cf_connecting_ip req) then
    match cf_connecting_ip req with Some i => i | None => "unknown" end
  else "unknown".

Definition pixel : Response := mkResponse 200 PIXEL_HEADERS (Bytes TRACKING_PIXEL).

(** [update({ is_valid_open: false })] *)
Definition mark_invalid (r : EmailHistory) : EmailHistory :=
  mkEmail (id r) (recipient_email r) (recipient_name r) (sender_email r)
          (subject r) (status r) (sent_by r) (sent_at r) (contact_id r)
          (lead_id r) (open_count r) (unique_opens r) (first_open_ip r)
          (opened_at r) (Some false) (bounce_type r) (bounce_reason r)
          (bounced_at r) (message_id r) (reply_count r) (replied_at r)
          (last_reply_at r).

(** The unique-open decision taken from the fetched row. *)
Definition isUniqueOpen (emailData : EmailHistory) (clientIP : string)
  (now : Z) : bool :=
  let currentOpenCount := num (open_count emailData) in
  let isFirstOpen := (currentOpenCount =? 0)%Z in
  if isFirstOpen then true
  else if negb (match first_open_ip emailData with
                | Some ip => String.eqb ip clientIP
                | None => false
                end)
  then true
  else
    match opened_at emailData with
    | Some lastOpenedAt =>
        seconds_above (now - lastOpenedAt) DEDUP_WINDOW_SECONDS
    | None => false
    end.

(** [update(updateData)], with [updateData] built from the fetched row
    [emailData]. *)
Definition apply_open (emailData : EmailHistory) (clientIP : string)
  (now : Z) (r : EmailHistory) : EmailHistory :=
  let currentOpenCount := num (open_count emailData) in
  let currentUniqueOpens := num (unique_opens emailData) in
  let isFirstOpen := (currentOpenCount =? 0)%Z in
  mkEmail (id r) (recipient_email r) (recipient_name r) (sender_email r)
          (subject r) opened (sent_by r) (sent_at r) (contact_id r)
          (lead_id r)
          (Some (currentOpenCount + 1)%Z)
          (if isUniqueOpen emailData clientIP now
           then Some (currentUniqueOpens + 1)%Z else unique_opens r)
          (if isFirstOpen then Some clientIP else first_open_ip r)
          (if isFirstOpen then Some now else opened_at r)
          (Some true) (bounce_type r) (bounce_reason r)
          (bounced_at r) (message_id r) (reply_count r) (replied_at r)
          (last_reply_at r).

Definition credit_contact (contact : Contact) (c : Contact) : Contact :=
  let newOpens := (num (email_opens contact) + 1)%Z in
  let newScore := Z.min (num (engagement_score contact) + 5) 100 in
  mkContact (c_id c) (Some newOpens) (Some newScore).

Definition open_notification (emailData : EmailHistory) (user : string)
  : Notification :=
  let recipientDisplay :=
    match or_else (recipient_name emailData)
                  (Some (recipient_email emailData)) with
    | Some s => s
    | None => ""
    end in
  mkNotification user
    (recipientDisplay ++ " opened your email: " ++ dquote
       ++ subject emailData ++ dquote)
    email_opened (lead_id emailData).

Section Handler.

Variable faults : nat -> Fault.
Variable now : Z.

Definition first_open_effects (emailData : EmailHistory) : M unit :=
  (if truthy (sent_by emailData) then
     match sent_by emailData with
     | Some user =>
         write faults (insert_notification (open_notification emailData user))
           ;;; ret tt
     | None => ret tt
     end
   else ret tt) ;;;
  (if truthy (contact_id emailData) then
     match contact_id emailData with
     | Some cid =>
         found <- query faults (fun d => single (select_contact cid d)) ;;
         match found with
         | Some (Some contact) =>
             write faults (update_contact cid (credit_contact contact))
               ;;; ret tt
         | _ => ret tt
         end
     | None => ret tt
     end
   else ret tt).

Definition handler_body (req : Request) : M Response :=
  if negb (truthy (id_param req)) then ret pixel
  else
    match id_param req with
    | None => ret pixel
    | Some emailId =>
        let userAgent := user_agent req in
        let clientIP := getClientIP req in
        if isBotUserAgent userAgent then
          write faults (update_email emailId mark_invalid) ;;; ret pixel
        else
          fetched <- query faults (fun d => single (select_email emailId d)) ;;
          match fetched with
          | Some (Some emailData) =>
              match bounce_type emailData with
              | Some _ => ret pixel
              | None =>
                  let sentAt := num (sent_at emailData) in
                  if seconds_below (now - sentAt) MIN_OPEN_DELAY_SECONDS then
                    write faults (update_email emailId mark_invalid)
                      ;;; ret pixel
                  else
                    let isFirstOpen := (num (open_count emailData) =? 0)%Z in
                    write faults
                      (update_email emailId (apply_open emailData clientIP now))
                      ;;;
                    (if isFirstOpen then first_open_effects emailData
                     else ret tt) ;;;
                    ret pixel
              end
          | _ => ret pixel
          end
    end.

(** [try { ... } catch (error) { return new Response(TRACKING_PIXEL, ...) }] *)
Definition handler (req : Request) : M Response :=
  try_catch (handler_body req) (fun _ => ret pixel).

End Handler.

End TrackEmailOpen.

(* ================================================================== *)
(** ** The outside world: configuration, identity endpoint, mailbox API *)
(* ================================================================== *)

(** [Deno.env.get] *)
Definition Env := string -> option string.

Record TokenRequest := mkTokenRequest {
  tokenUrl : string;
  client_id : string;
  client_secret : string;
  scope : string;
  grant_type : string
}.

Record TokenResponse := mkTokenResponse {
  response_ok : bool;
  response_status : string;
  response_text : string;
  access_token : string
}.

Definition Idp := TokenRequest -> TokenResponse.

Definition token_url (tenantId : string) : string :=
  "https://login.microsoftonline.com/" ++ tenantId ++ "/oauth2/v2.0/token".

Definition token_request (tenantId clientId clientSecret : string)
  : TokenRequest :=
  mkTokenRequest (token_url tenantId) clientId clientSecret
                 "https://graph.microsoft.com/.default" "client_credentials".

(** A message as the mailbox API returns it. *)
Record GraphMessage := mkMessage {
  msg_id : string;
  msg_subject : option string;
  msg_body : option string;              (* body.content *)
  msg_bodyPreview : option string;
  from_address : option string;          (* from.emailAddress.address *)
  from_display : option string;          (* from.emailAddress.name *)
  receivedDateTime : option Z;
  internetMessageHeaders : list (string * string)
}.

(** The mailbox API: sender, folder and start date give the messages, or
    [None] when the request is refused or fails. *)
Definition Graph := string -> string -> Z -> option (list GraphMessage).

(** The row written by every automatic bounce transition. *)
Definition mark_bounced (reason : option string) (at_time : Z)
  (r : EmailHistory) : EmailHistory :=
  mkEmail (id r) (recipient_email r) (recipient_name r) (sender_email r)
          (subject r) bounced (sent_by r) (sent_at r) (contact_id r)
          (lead_id r) (Some 0%Z) (Some 0%Z) (first_open_ip r) None
          (Some false) (Some hard) reason (Some at_time) (message_id r)
          (reply_count r) (replied_at r) (last_reply_at r).

Definition hours (n : Z) : Z := (n * 60 * 60 * 1000)%Z.

(** Insertion-ordered [Map<string, V>]. *)
Module SMap.

Fixpoint get {V} (m : list (string * V)) (k : string) : option V :=
  match m with
  | [] => None
  | (k', v) :: m' => if String.eqb k' k then Some v else get m' k
  end.

Fixpoint set {V} (m : list (string * V)) (k : string) (v : V)
  : list (string * V) :=
  match m with
  | [] => [(k, v)]
  | (k', v') :: m' =>
      if String.eqb k' k then (k, v) :: m' else (k', v') :: set m' k v
  end.

(** [const existing = m.get(k) || []; existing.push(x); m.set(k, existing)] *)
Definition push {V} (m : list (string * list V)) (k : string) (x : V)
  : list (string * list V) :=
  set m k ((match get m k with Some l => l | None => [] end) ++ [x])%list.

End SMap.

(** [ORDER BY sent_at DESC] *)
Fixpoint insert_desc (e : EmailHistory) (l : list EmailHistory)
  : list EmailHistory :=
  match l with
  | [] => [e]
  | x :: l' =>
      if (num (sent_at x) <? num (sent_at e))%Z then e :: l
      else x :: insert_desc e l'
  end.

Definition sort_desc (l : list EmailHistory) : list EmailHistory :=
  fold_right insert_desc [] (rev l).

Definition sent_since (since : Z) (r : EmailHistory) : bool :=
  match sent_at r with
  | Some t => (since <=? t)%Z
  | None => false
  end.

Definition not_bounced (r : EmailHistory) : bool :=
  negb (status_eqb (status r) bounced).

(* ================================================================== *)
(** ** process-bounce-checks/index.ts *)
(* ================================================================== *)

Module ProcessBounceChecks.

Import Js Store Regex Ndr.
Local Open Scope store_scope.

Definition getAccessToken (env : Env) (idp : Idp)
  : outcome string * list TokenRequest :=
  let tenantId := or_else (env "AZURE_EMAIL_TENANT_ID") (env "AZURE_TENANT_ID") in
  let clientId := or_else (env "AZURE_EMAIL_CLIENT_ID") (env "AZURE_CLIENT_ID") in
  let clientSecret :=
    or_else (env "AZURE_EMAIL_CLIENT_SECRET") (env "AZURE_CLIENT_SECRET") in
  if negb (truthy tenantId) || negb (truthy clientId)
     || negb (truthy clientSecret)
  then (Exn "Azure credentials not configured", [])
  else
    match tenantId, clientId, clientSecret with
    | Some t, Some c, Some s =>
        let request := token_request t c s in
        let response := idp request in
        if negb (response_ok response)
        then (Exn ("Failed to get access token: " ++ response_text response),
              [request])
        else (Ok (access_token response), [request])
    | _, _, _ => (Exn "Azure credentials not configured", [])
    end.

(** [body.replace(/<[^>]*>/g, ' ')]: [inside] holds the text read since
    an opening [<] that has not been closed yet. *)
Fixpoint strip_tags (s : chars) (inside : option chars) : chars :=
  match s, inside with
  | [], None => []
  | [], Some buf => rev buf
  | c :: t, None =>
      if Ascii.eqb c "<" then strip_tags t (Some [c])
      else c :: strip_tags t None
  | c :: t, Some buf =>
      if Ascii.eqb c ">" then " "%char :: strip_tags t None
      else strip_tags t (Some (c :: buf))
  end.

(** [.replace(/\s+/g, ' ')] *)
Fixpoint collapse_spaces (s : chars) (in_ws : bool) : chars :=
  match s with
  | [] => []
  | c :: t =>
      if is_space c
      then if in_ws then collapse_spaces t true
           else " "%char :: collapse_spaces t true
      else c :: collapse_spaces t false
  end.

Definition plain_body (body : string) : string :=
  string_of_list_ascii
    (collapse_spaces (strip_tags (list_ascii_of_string body) None) false).

Definition emailPatterns : list regex :=
  [ (* /Your message to\s+<?(ADDRESS)>?\s+couldn['']t be delivered/i *)
    seqs [lit_i "Your message to"; plus space; opt (chr "<"); address;
          opt (chr ">"); plus space; lit_i "couldn"; apostrophe;
          lit_i "t be delivered"];
    (* /message to\s+<?(ADDRESS)>?\s+couldn['']t be delivered/i *)
    seqs [lit_i "message to"; plus space; opt (chr "<"); address;
          opt (chr ">"); plus space; lit_i "couldn"; apostrophe;
          lit_i "t be delivered"];
    (* /couldn['']t deliver to\s+<?(ADDRESS)>?/i *)
    seqs [lit_i "couldn"; apostrophe; lit_i "t deliver to"; plus space;
          opt (chr "<"); address; opt (chr ">")];
    (* /(?:To|Recipient|Address):\s*<?(ADDRESS)>?/i *)
    seqs [alts [lit_i "To"; lit_i "Recipient"; lit_i "Address"]; chr ":";
          star space; opt (chr "<"); address; opt (chr ">")];
    (* /delivery to\s+<?(ADDRESS)>?\s+(?:failed|unsuccessful)/i *)
    seqs [lit_i "delivery to"; plus space; opt (chr "<"); address;
          opt (chr ">"); plus space;
          Alt (lit_i "failed") (lit_i "unsuccessful")];
    (* /<(ADDRESS)>/ *)
    seqs [chr "<"; address; chr ">"];
    (* /\b(ADDRESS)\b/ *)
    seqs [WordB; address; WordB] ].

Definition not_dot : regex := none_of ".".

Definition reasonPatterns : list regex :=
  [ (* /([a-zA-Z0-9._%+-]+)\s+wasn['']t found at\s+(HOST)/i *)
    seqs [Grp 1 (plus (Chr local_part)); plus space; lit_i "wasn";
          apostrophe; lit_i "t found at"; plus space; Grp 2 host];
    (* The email address couldn['']t be found, then [^.]*, flag i *)
    Grp 1 (seqs [lit_i "The email address couldn"; apostrophe;
                 lit_i "t be found"; star not_dot]);
    (* mailbox\s+(?:unavailable|not found|full|disabled), then [^.]* *)
    Grp 1 (seqs [lit_i "mailbox"; plus space;
                 alts [lit_i "unavailable"; lit_i "not found"; lit_i "full";
                       lit_i "disabled"];
                 star not_dot]);
    (* user\s+(?:unknown|doesn['']t exist|not found), then [^.]* *)
    Grp 1 (seqs [lit_i "user"; plus space;
                 alts [lit_i "unknown";
                       seqs [lit_i "doesn"; apostrophe; lit_i "t exist"];
                       lit_i "not found"];
                 star not_dot]);
    reason_diagnostic;
    reason_550;
    Grp 1 (seqs [lit_i "address rejected"; star not_dot]);
    Grp 1 (seqs [lit_i "permanent failure"; star not_dot]);
    Grp 1 (seqs [lit_i "Unknown To address"; star not_dot]) ].

Definition parseNDRContent (subject body : string) : parsed :=
  let subjectMatch :=
    match exec subject_undeliverable subject with
    | Some m => Some m
    | None => exec subject_dsn subject
    end in
  let originalSubject := option_map (fun m => trim (group 1 m)) subjectMatch in
  let plainBody := plain_body body in
  let recipientEmail :=
    option_map (fun m => toLowerCase (group 1 m))
               (first_match emailPatterns plainBody) in
  let reason :=
    option_map (fun m => trimmed_reason (whole m))
               (first_match reasonPatterns plainBody) in
  let reason :=
    if negb (truthy reason)
       && (includes (toLowerCase subject) "undeliverable"
           || includes (toLowerCase subject) "failure"
           || includes (toLowerCase subject) "delivery status")
    then Some "Email could not be delivered"
    else reason in
  Parsed recipientEmail reason originalSubject.

Record Ndr := mkNdr {
  ndr_subject : string;
  ndr_body : string;
  ndr_recipientEmail : string;
  ndr_reason : option string;
  ndr_receivedDateTime : option Z
}.

Definition text_of (v : option string) : string :=
  match or_else v (Some "") with
  | Some s => s
  | None => ""
  end.

Definition ndrKeywords : list string :=
  ["undeliverable"; "delivery status"; "delivery failed";
   "delivery failure"; "non-delivery"; "returned mail"; "mail delivery"].
Definition ndrSenders : list string :=
  ["postmaster"; "mailer-daemon"; "microsoft outlook"].

Definition is_ndr_message (msg : GraphMessage) : bool :=
  let subject := toLowerCase (text_of (msg_subject msg)) in
  let fromAddress := toLowerCase (text_of (from_address msg)) in
  let fromName := toLowerCase (text_of (from_display msg)) in
  let isNDRSubject := existsb (fun keyword => includes subject keyword)
                              ndrKeywords in
  let isNDRSender :=
    existsb (fun sender => includes fromAddress sender
                           || includes fromName sender) ndrSenders in
  isNDRSubject || isNDRSender.

(** The body of [for (const msg of messages)]: the NDR pushed for [msg],
    if any. *)
Definition ndr_of_message (msg : GraphMessage) : list Ndr :=
  if is_ndr_message msg then
    let bodyContent := text_of (msg_body msg) in
    let p := parseNDRContent (text_of (msg_subject msg)) bodyContent in
    if truthy (recipientEmail p) then
      match recipientEmail p with
      | Some r =>
          [mkNdr (text_of (msg_subject msg)) bodyContent r (reason p)
                 (receivedDateTime msg)]
      | None => []
      end
    else []
  else [].

Definition fetchNDRsForSender (graph : Graph) (senderEmail : string)
  (sinceDate : Z) : list Ndr :=
  flat_map (fun folder =>
              match graph senderEmail folder sinceDate with
              | None => []
              | Some messages => flat_map ndr_of_message messages
              end)
           ["Inbox"; "JunkEmail"].

(** [ndrs.find(ndr => ndr.recipientEmail?.toLowerCase() ===
    recipient.toLowerCase())] *)
Definition find_ndr (ndrs : list Ndr) (recipient : string) : option Ndr :=
  find (fun ndr => String.eqb (toLowerCase (ndr_recipientEmail ndr))
                              (toLowerCase recipient)) ndrs.

(** [matchingNDR.reason || 'Email delivery failed'] *)
Definition reason_or_default (ndr : Ndr) : option string :=
  or_else (ndr_reason ndr) (Some "Email delivery failed").

(** [matchingNDR.receivedDateTime || new Date().toISOString()] *)
Definition received_or (now : Z) (ndr : Ndr) : Z :=
  match ndr_receivedDateTime ndr with
  | Some t => t
  | None => now
  end.

(** A pending check together with the embedded [email_history] row of
    the select. *)
Definition JoinedCheck := (PendingBounceCheck * option EmailHistory)%type.

Definition join_check (d : DB) (c : PendingBounceCheck) : JoinedCheck :=
  (c, match email_history_id c with
      | Some i => find (has_id i) (email_history d)
      | None => None
      end).

Definition select_pending (now : Z) (d : DB) : list JoinedCheck :=
  map (join_check d)
      (firstn 50
         (filter (fun c => negb (checked c) && (check_after c <=? now)%Z)
                 (pending_bounce_checks d))).

Definition select_recent (sinceDate : Z) (d : DB) : list EmailHistory :=
  firstn 100
    (sort_desc (filter (fun r => sent_since sinceDate r && not_bounced r)
                       (email_history d))).

Definition bounce_notification (user recipient : string) : Notification :=
  mkNotification user
    ("Email to " ++ recipient
       ++ " could not be delivered - address invalid or doesn't exist")
    email_bounced None.

Record Counters := mkCounters {
  processedPendingIds : list string;
  bouncedPendingIds : list string;
  pendingBouncesFound : Z
}.

(** The grouping loop over [pendingChecks]. *)
Fixpoint group_pending (checks : list JoinedCheck)
  (processed : list string) (bySender : list (string * list JoinedCheck))
  : list string * list (string * list JoinedCheck) :=
  match checks with
  | [] => (processed, bySender)
  | ((c, eh) as check) :: rest =>
      match eh with
      | None => group_pending rest (processed ++ [pc_id c])%list bySender
      | Some emailHistory =>
          if status_eqb (status emailHistory) bounced
          then group_pending rest (processed ++ [pc_id c])%list bySender
          else group_pending rest processed
                 (SMap.push bySender (pc_sender_email c) check)
      end
  end.

Definition set_check_result (res : CheckResult) (c : PendingBounceCheck)
  : PendingBounceCheck :=
  mkPending (pc_id c) (email_history_id c) (pc_sender_email c)
            (pc_recipient_email c) (check_after c) true (Some res)
            (created_at c).

Definition mem (i : string) (l : list string) : bool :=
  existsb (String.eqb i) l.

Definition mark_checks (ids : list string) (res : CheckResult) (d : DB) : DB :=
  with_pending d
    (update_where (fun c => mem (pc_id c) ids) (set_check_result res)
                  (pending_bounce_checks d)).

Definition delete_old_checks (before : Z) (d : DB) : DB :=
  with_pending d
    (filter (fun c => negb (created_at c <? before)%Z)
            (pending_bounce_checks d)).

(** The request: the optional authorization header is only looked up
    for a log line. *)
Record ServeRequest := mkServeRequest {
  is_options : bool                   (* req.method === "OPTIONS" *)
}.

Section Serve.

Variable faults : nat -> Fault.
Variable now : Z.
Variable env : Env.
Variable idp : Idp.
Variable graph : Graph.

(** The body of [for (const check of checks)] in the pending pass. *)
Definition pending_check (ndrs : list Ndr) (acc : Counters)
  (check : JoinedCheck) : M Counters :=
  let (c, eh) := check in
  match find_ndr ndrs (pc_recipient_email c) with
  | Some matchingNDR =>
      ok <- write faults
              (match email_history_id c with
               | Some i =>
                   update_email i (mark_bounced (reason_or_default matchingNDR)
                                                (received_or now matchingNDR))
               | None => fun d => d
               end) ;;
      acc' <-
        (if ok then
           (match eh with
            | Some emailHistory =>
                if truthy (sent_by emailHistory) then
                  match sent_by emailHistory with
                  | Some user =>
                      write faults
                        (insert_notification
                           (bounce_notification user (pc_recipient_email c)))
                        ;;; ret tt
                  | None => ret tt
                  end
                else ret tt
            | None => ret tt
            end) ;;;
           ret (mkCounters (processedPendingIds acc)
                           (bouncedPendingIds acc ++ [pc_id c])%list
                           (pendingBouncesFound acc + 1)%Z)
         else ret acc) ;;
      ret (mkCounters (processedPendingIds acc' ++ [pc_id c])%list
                      (bouncedPendingIds acc') (pendingBouncesFound acc'))
  | None =>
      ret (mkCounters (processedPendingIds acc ++ [pc_id c])%list
                      (bouncedPendingIds acc) (pendingBouncesFound acc))
  end.

(** The body of [for (const [senderEmail, checks] of pendingBySender)]. *)
Definition pending_sender (sinceDate : Z) (acc : Counters)
  (entry : string * list JoinedCheck) : M Counters :=
  let (senderEmail, checks) := entry in
  match checks with
  | [] => ret acc
  | _ :: _ =>
      let ndrs := fetchNDRsForSender graph senderEmail sinceDate in
      fold_m checks (pending_check ndrs) acc
  end.

(** The body of [for (const email of emails)] in the general sweep. *)
Definition sweep_email (ndrs : list Ndr) (found : Z) (email : EmailHistory)
  : M Z :=
  match find_ndr ndrs (recipient_email email) with
  | Some matchingNDR =>
      ok <- write faults
              (update_email (id email)
                 (mark_bounced (reason_or_default matchingNDR)
                               (received_or now matchingNDR))) ;;
      ret (if ok then (found + 1)%Z else found)
  | None => ret found
  end.

Definition sweep_sender (sinceDate : Z) (processedSenders : list string)
  (found : Z) (entry : string * list EmailHistory) : M Z :=
  let (senderEmail, emails) := entry in
  if mem senderEmail processedSenders then ret found
  else
    let ndrs := fetchNDRsForSender graph senderEmail sinceDate in
    fold_m emails (sweep_email ndrs) found.

Definition group_by_sender (emails : list EmailHistory)
  : list (string * list EmailHistory) :=
  fold_left (fun m e => SMap.push m (sender_email e) e) emails [].

Definition pending_pass (sinceDate : Z) : M (Counters * list string) :=
  pending <- query faults (select_pending now) ;;
  let pendingChecks := match pending with Some l => l | None => [] end in
  let '(processed, pendingBySender) := group_pending pendingChecks [] [] in
  acc <- fold_m pendingBySender (pending_sender sinceDate)
                (mkCounters processed [] 0%Z) ;;
  let processedSenders :=
    map fst (filter (fun e => match snd e with [] => false | _ => true end)
                    pendingBySender) in
  (if (0 <? List.length (bouncedPendingIds acc))%nat
   then write faults (mark_checks (bouncedPendingIds acc) check_bounced)
          ;;; ret tt
   else ret tt) ;;;
  let okPendingIds :=
    filter (fun i => negb (mem i (bouncedPendingIds acc)))
           (processedPendingIds acc) in
  (if (0 <? List.length okPendingIds)%nat
   then write faults (mark_checks okPendingIds check_ok) ;;; ret tt
   else ret tt) ;;;
  ret (acc, processedSenders).

Definition general_sweep (sinceDate : Z) (processedSenders : list string)
  : M Z :=
  recent <- query faults (select_recent sinceDate) ;;
  match recent with
  | Some ((_ :: _) as recentEmails) =>
      fold_m (group_by_sender recentEmails)
             (sweep_sender sinceDate processedSenders) 0%Z
  | _ => ret 0%Z
  end.

Definition summary (acc : Counters) (generalBouncesFound : Z) : json :=
  let totalBouncesFound := (pendingBouncesFound acc + generalBouncesFound)%Z in
  let processedCount := Z.of_nat (List.length (processedPendingIds acc)) in
  JObj ([("success", JBool true);
         ("pendingChecksProcessed", JNum processedCount);
         ("pendingBouncesFound", JNum (pendingBouncesFound acc));
         ("generalBouncesFound", JNum generalBouncesFound);
         ("totalBouncesFound", JNum totalBouncesFound);
         ("processingTimeMs", JNum 0);
         ("message",
          JStr (if (0 <? totalBouncesFound)%Z
                then "Found and marked " ++ show_Z totalBouncesFound
                       ++ " bounced email(s)"
                else "No new bounces detected"))]
        ++ (if (totalBouncesFound =? 0)%Z && (processedCount =? 0)%Z
            then [("hint", JStr "If bounces exist but weren't detected, ensure the Azure app has 'Mail.Read' APPLICATION permission with admin consent")]
            else []))%list.

Definition serve_body : M Response :=
  match fst (getAccessToken env idp) with
  | Exn details =>
      ret (json_response 500
             (JObj [("success", JBool false);
                    ("error", JStr "Azure authentication failed");
                    ("details", JStr details);
                    ("hint", JStr "Ensure AZURE_EMAIL_TENANT_ID, AZURE_EMAIL_CLIENT_ID, and AZURE_EMAIL_CLIENT_SECRET are set correctly")]))
  | Ok accessToken =>
      let sinceDate := (now - hours 72)%Z in
      r <- pending_pass sinceDate ;;
      let (acc, processedSenders) := r in
      generalBouncesFound <- general_sweep sinceDate processedSenders ;;
      write faults (delete_old_checks (now - hours (7 * 24))%Z) ;;;
      ret (json_response 200 (summary acc generalBouncesFound))
  end.

Definition serve (req : ServeRequest) : M Response :=
  if is_options req then ret (mkResponse 200 corsHeaders NoBody)
  else
    try_catch serve_body
      (fun errorMessage =>
         ret (json_response 500
                (JObj [("error", JStr errorMessage);
                       ("success", JBool false)]))).

End Serve.

End ProcessBounceChecks.

(** [s.replace(p, "")] for a string pattern [p]: the first occurrence
    is removed. *)
Fixpoint remove_first (p s : Js.chars) : Js.chars :=
  if Js.prefix_chars p s then skipn (List.length p) s
  else match s with
       | [] => []
       | c :: t => c :: remove_first p t
       end.

Definition bearer_token (authHeader : string) : string :=
  string_of_list_ascii
    (remove_first (list_ascii_of_string "Bearer ")
                  (list_ascii_of_string authHeader)).

(** [[...new Set(l)]] *)
Fixpoint unique (l : list string) (seen : list string) : list string :=
  match l with
  | [] => []
  | x :: l' =>
      if existsb (String.eqb x) seen then unique l' seen
      else x :: unique l' (x :: seen)
  end.

(* ================================================================== *)
(** ** sync-email-bounces/index.ts *)
(* ================================================================== *)

Module SyncEmailBounces.

Import Js Store Regex Ndr.
Local Open Scope store_scope.

Definition getAccessToken := ProcessBounceChecks.getAccessToken.

Definition emailPatterns : list regex :=
  [ (* /(?:To|Recipient|Address):\s*<?(ADDRESS)>?/i *)
    seqs [alts [lit_i "To"; lit_i "Recipient"; lit_i "Address"]; chr ":";
          star space; opt (chr "<"); address; opt (chr ">")];
    (* /couldn't be delivered to\s+<?(ADDRESS)>?/i *)
    seqs [lit_i "couldn't be delivered to"; plus space; opt (chr "<");
          address; opt (chr ">")];
    (* /delivery.*failed.*<?(ADDRESS)>?/i *)
    seqs [lit_i "delivery"; star dot; lit_i "failed"; star dot;
          opt (chr "<"); address; opt (chr ">")];
    (* /<(ADDRESS)>/ *)
    seqs [chr "<"; address; chr ">"] ].

Definition reasonPatterns : list regex :=
  [ reason_diagnostic;
    reason_550;
    (* /(mailbox.*(?:not found|unavailable|full|disabled))/i *)
    Grp 1 (seqs [lit_i "mailbox"; star dot;
                 alts [lit_i "not found"; lit_i "unavailable"; lit_i "full";
                       lit_i "disabled"]]);
    (* /(user.*(?:unknown|doesn't exist|not found))/i *)
    Grp 1 (seqs [lit_i "user"; star dot;
                 alts [lit_i "unknown"; lit_i "doesn't exist";
                       lit_i "not found"]]);
    Grp 1 (lit_i "address rejected");
    Grp 1 (lit_i "permanent failure") ].

Definition parseNDRContent (subject body : string) : parsed :=
  let subjectMatch := exec subject_undeliverable subject in
  let originalSubject := option_map (fun m => trim (group 1 m)) subjectMatch in
  let recipientEmail :=
    option_map (fun m => toLowerCase (group 1 m))
               (first_match emailPatterns body) in
  let reason :=
    option_map (fun m => trimmed_reason (group 1 m))
               (first_match reasonPatterns body) in
  let reason :=
    if negb (truthy reason)
       && (includes (toLowerCase subject) "undeliverable"
           || includes (toLowerCase subject) "failure")
    then Some "Email could not be delivered"
    else reason in
  Parsed recipientEmail reason originalSubject.

Record SyncRequest := mkSyncRequest {
  is_options : bool;
  authorization : option string;
  fromEmail : option string;
  sinceHours : option Z
}.

(** The contact correction of the bounce transition. *)
Definition debit_contact (contact : Contact) (c : Contact) : Contact :=
  let newOpens := Z.max 0 (num (email_opens contact) - 1) in
  let newScore := Z.max 0 (num (engagement_score contact) - 10) in
  mkContact (c_id c) (Some newOpens) (Some newScore).

Definition unauthorized : Response :=
  json_response 401 (JObj [("error", JStr "Unauthorized")]).

Section Serve.

Variable faults : nat -> Fault.
Variable now : Z.
Variable env : Env.
Variable idp : Idp.
(** [supabase.auth.getUser(token)] finds a user *)
Variable getUser : string -> bool.
(** the message search of the mailbox API: sender and start date *)
Variable search : string -> Z -> option (list GraphMessage).
(** the [ilike] operator of the store: value, pattern *)
Variable ilike : string -> string -> bool.

Definition select_matching (senderEmail recipientEmail : string)
  (originalSubject : option string) (since : Z) (d : DB)
  : list EmailHistory :=
  firstn 5
    (filter (fun r =>
               String.eqb (sender_email r) senderEmail
               && ilike (recipient_email r) recipientEmail
               && not_bounced r
               && sent_since since r
               && (if truthy originalSubject then
                     match originalSubject with
                     | Some o =>
                         ilike (subject r) ("%" ++ substring0 50 o ++ "%")
                     | None => true
                     end
                   else true))
            (email_history d)).

(** The body of [for (const email of matchingEmails)]. *)
Definition bounce_email (reason : option string) (bounced_time : Z)
  (email : EmailHistory) : M unit :=
  write faults (update_email (id email) (mark_bounced reason bounced_time)) ;;;
  (if truthy (contact_id email) && (0 <? num (open_count email))%Z then
     match contact_id email with
     | Some cid =>
         found <- query faults (fun d => single (select_contact cid d)) ;;
         match found with
         | Some (Some contact) =>
             write faults (update_contact cid (debit_contact contact))
               ;;; ret tt
         | _ => ret tt
         end
     | None => ret tt
     end
   else ret tt).

(** The loop [for (const email of matchingEmails)].  The accumulator is
    [bouncedEmails] ([totalBouncesFound] is its length); the flag tells
    whether the loop ran to its end or was left by an exception, which
    the [catch] of the enclosing sender loop absorbs. *)
Fixpoint bounce_emails (reason : option string) (bounced_time : Z)
  (recipient : string) (emails : list EmailHistory)
  (bouncedEmails : list string) : M (list string * bool) :=
  match emails with
  | [] => ret (bouncedEmails, true)
  | email :: rest =>
      r <- attempt (bounce_email reason bounced_time email) ;;
      match r with
      | None => ret (bouncedEmails, false)
      | Some _ =>
          bounce_emails reason bounced_time recipient rest
                        (bouncedEmails ++ [recipient])%list
      end
  end.

(** The body of [for (const ndr of ndrMessages)]. *)
Definition process_ndr (senderEmail : string) (hrs : Z)
  (bouncedEmails : list string) (ndr : GraphMessage)
  : M (list string * bool) :=
  let p := parseNDRContent (ProcessBounceChecks.text_of (msg_subject ndr))
                           (ProcessBounceChecks.text_of (msg_body ndr)) in
  if negb (truthy (recipientEmail p)) then ret (bouncedEmails, true)
  else
    match recipientEmail p with
    | None => ret (bouncedEmails, true)
    | Some recipient =>
        found <- attempt
                   (query faults
                      (select_matching senderEmail recipient
                         (originalSubject p) (now - hours (hrs + 24))%Z)) ;;
        match found with
        | None => ret (bouncedEmails, false)
        | Some (Some ((_ :: _) as matchingEmails)) =>
            bounce_emails (reason p)
              (match receivedDateTime ndr with
               | Some t => t
               | None => now
               end)
              recipient matchingEmails bouncedEmails
        | Some _ => ret (bouncedEmails, true)
        end
    end.

(** The body of [for (const senderEmail of senderEmails)], with its own
    [try]/[catch]: an exception ends the work on this sender. *)
Fixpoint process_ndrs (senderEmail : string) (hrs : Z)
  (ndrs : list GraphMessage) (bouncedEmails : list string)
  : M (list string) :=
  match ndrs with
  | [] => ret bouncedEmails
  | ndr :: rest =>
      r <- process_ndr senderEmail hrs bouncedEmails ndr ;;
      let (acc, completed) := r in
      if completed then process_ndrs senderEmail hrs rest acc
      else ret acc
  end.

Definition process_sender (hrs : Z) (bouncedEmails : list string)
  (senderEmail : string) : M (list string) :=
  match search senderEmail (now - hours hrs)%Z with
  | None => ret bouncedEmails
  | Some ndrMessages => process_ndrs senderEmail hrs ndrMessages bouncedEmails
  end.

Definition serve_body (req : SyncRequest) : M Response :=
  if negb (truthy (authorization req)) then ret unauthorized
  else
    match authorization req with
    | None => ret unauthorized
    | Some authHeader =>
        if negb (getUser (bearer_token authHeader)) then ret unauthorized
        else
          let hrs := match sinceHours req with Some h => h | None => 48%Z end in
          senderEmails <-
            (if truthy (fromEmail req) then
               ret (match fromEmail req with Some f => [f] | None => [] end)
             else
               recent <- query faults
                           (fun d => filter (fun r => sent_since (now - hours hrs)%Z r
                                                      && not_bounced r)
                                            (email_history d)) ;;
               ret (match recent with
                    | Some recentEmails =>
                        unique (map sender_email recentEmails) []
                    | None => []
                    end)) ;;
          match senderEmails with
          | [] =>
              ret (json_response 200
                     (JObj [("success", JBool true);
                            ("message",
                             JStr "No recent emails to check for bounces");
                            ("bouncesFound", JNum 0)]))
          | _ :: _ =>
              match fst (getAccessToken env idp) with
              | Exn e => throw e
              | Ok accessToken =>
                  bouncedEmails <- fold_m senderEmails (process_sender hrs) [] ;;
                  let totalBouncesFound :=
                    Z.of_nat (List.length bouncedEmails) in
                  ret (json_response 200
                         (JObj [("success", JBool true);
                                ("bouncesFound", JNum totalBouncesFound);
                                ("bouncedEmails",
                                 JArr (map JStr (unique bouncedEmails [])));
                                ("message",
                                 JStr (if (0 <? totalBouncesFound)%Z
                                       then "Found and marked "
                                              ++ show_Z totalBouncesFound
                                              ++ " bounced email(s)"
                                       else "No new bounces detected"))]))
              end
          end
    end.

Definition serve (req : SyncRequest) : M Response :=
  if is_options req then ret (mkResponse 200 corsHeaders NoBody)
  else
    try_catch (serve_body req)
      (fun errorMessage =>
         ret (json_response 500
                (JObj ([("error", JStr errorMessage)]
                       ++ (if includes errorMessage "credentials"
                           then [("hint", JStr "Azure credentials may not be configured. Check AZURE_EMAIL_* secrets.")]
                           else []))%list))).

End Serve.

End SyncEmailBounces.

(* ================================================================== *)
(** ** process-email-replies/index.ts *)
(* ================================================================== *)

Module ProcessEmailReplies.

Import Js Store.
Local Open Scope store_scope.

Definition getAccessToken := ProcessBounceChecks.getAccessToken.

Record ReplyInfo := mkReplyInfo {
  ri_from_email : string;
  ri_from_name : option string;
  ri_subject : string;
  ri_body_preview : string;
  ri_received_at : option Z;
  ri_graph_message_id : string;
  in_reply_to : option string
}.

(** [headers.find(h => h.name.toLowerCase() === name)?.value] *)
Definition header (name : string) (headers : list (string * string))
  : option string :=
  option_map snd
    (find (fun h => String.eqb (toLowerCase (fst h)) name) headers).

(** The body of [for (const msg of messages)]: the reply pushed for
    [msg], if any. *)
Definition reply_of_message (msg : GraphMessage) : list ReplyInfo :=
  let headers := internetMessageHeaders msg in
  let inReplyTo := header "in-reply-to" headers in
  let references := header "references" headers in
  if negb (truthy inReplyTo) && negb (truthy references) then []
  else
    let replyToMessageId :=
      if negb (truthy inReplyTo) && truthy references then
        match references with
        | Some refs => Some (last (split_ws refs) "")
        | None => inReplyTo
        end
      else inReplyTo in
    if truthy replyToMessageId then
      match replyToMessageId with
      | Some target =>
          [mkReplyInfo
             (ProcessBounceChecks.text_of (from_address msg))
             (or_else (from_display msg) None)
             (ProcessBounceChecks.text_of (msg_subject msg))
             (substring0 500 (ProcessBounceChecks.text_of (msg_bodyPreview msg)))
             (receivedDateTime msg)
             (msg_id msg)
             (Some (strip_angle target))]
      | None => []
      end
    else [].

(** The inbox of the mailbox API: sender and start date. *)
Definition Inbox := string -> Z -> option (list GraphMessage).

Definition fetchInboxReplies (inbox : Inbox) (senderEmail : string)
  (sinceDate : Z) : list ReplyInfo :=
  match inbox senderEmail sinceDate with
  | None => []
  | Some messages => flat_map reply_of_message messages
  end.

Definition select_sent (sinceDate : Z) (d : DB) : list EmailHistory :=
  sort_desc
    (filter (fun r => sent_since sinceDate r
                      && match message_id r with Some _ => true | None => false end
                      && not_bounced r)
            (email_history d)).

(** The loop that fills [messageIdToEmail]. *)
Definition index_by_message_id (emails : list EmailHistory)
  : list (string * EmailHistory) :=
  fold_left
    (fun m email =>
       if truthy (message_id email) then
         match message_id email with
         | Some mid => SMap.set (SMap.set m mid email) (strip_angle mid) email
         | None => m
         end
       else m)
    emails [].

Definition lookup_original (m : list (string * EmailHistory))
  (target : string) : option EmailHistory :=
  match SMap.get m target with
  | Some e => Some e
  | None => SMap.get m ("<" ++ target ++ ">")
  end.

Definition select_existing_reply (emailId graphId : string) (d : DB)
  : list EmailReply :=
  filter (fun r => String.eqb (er_email_history_id r) emailId
                   && String.eqb (graph_message_id r) graphId)
         (email_replies d).

Definition reply_row (originalEmail : EmailHistory) (reply : ReplyInfo)
  : EmailReply :=
  mkReply (id originalEmail) (ri_from_email reply) (ri_from_name reply)
          (ri_subject reply) (ri_body_preview reply) (ri_received_at reply)
          (ri_graph_message_id reply).

(** [update(updateData)], with [updateData] built from the row
    [originalEmail] of the initial select. *)
Definition apply_reply (originalEmail : EmailHistory) (reply : ReplyInfo)
  (r : EmailHistory) : EmailHistory :=
  let currentReplyCount := num (reply_count originalEmail) in
  let isFirstReply := (currentReplyCount =? 0)%Z in
  mkEmail (id r) (recipient_email r) (recipient_name r) (sender_email r)
          (subject r) replied (sent_by r) (sent_at r) (contact_id r)
          (lead_id r) (open_count r) (unique_opens r) (first_open_ip r)
          (opened_at r) (is_valid_open r) (bounce_type r) (bounce_reason r)
          (bounced_at r) (message_id r)
          (Some (currentReplyCount + 1)%Z)
          (if isFirstReply then ri_received_at reply else replied_at r)
          (ri_received_at reply).

Definition reply_notification (originalEmail : EmailHistory)
  (reply : ReplyInfo) (user : string) : Notification :=
  let who :=
    match or_else (ri_from_name reply) (Some (ri_from_email reply)) with
    | Some s => s
    | None => ""
    end in
  mkNotification user
    (who ++ " replied to your email: " ++ dquote ++ subject originalEmail
       ++ dquote)
    email_replied None.

Record ServeRequest := mkServeRequest {
  is_options : bool
}.

Section Serve.

Variable faults : nat -> Fault.
Variable now : Z.
Variable env : Env.
Variable idp : Idp.
Variable inbox : Inbox.

(** The body of [for (const reply of replies)]; the accumulator is
    [processedReplies] ([totalRepliesFound] is its length). *)
Definition process_reply (messageIdToEmail : list (string * EmailHistory))
  (processedReplies : list string) (reply : ReplyInfo) : M (list string) :=
  if negb (truthy (in_reply_to reply)) then ret processedReplies
  else
    match in_reply_to reply with
    | None => ret processedReplies
    | Some target =>
        match lookup_original messageIdToEmail target with
        | None => ret processedReplies
        | Some originalEmail =>
            existing <- query faults
                          (fun d => single (select_existing_reply
                                              (id originalEmail)
                                              (ri_graph_message_id reply) d)) ;;
            match existing with
            | Some (Some existingReply) => ret processedReplies
            | _ =>
                inserted <- write faults
                              (insert_reply (reply_row originalEmail reply)) ;;
                if negb inserted then ret processedReplies
                else
                  updated <- write faults
                               (update_email (id originalEmail)
                                             (apply_reply originalEmail reply)) ;;
                  if negb updated then ret processedReplies
                  else
                    (if truthy (sent_by originalEmail) then
                       match sent_by originalEmail with
                       | Some user =>
                           write faults
                             (insert_notification
                                (reply_notification originalEmail reply user))
                             ;;; ret tt
                       | None => ret tt
                       end
                     else ret tt) ;;;
                    ret (processedReplies ++ [id originalEmail])%list
            end
        end
    end.

(** The body of [for (const [senderEmail, emails] of emailsBySender)]. *)
Definition process_sender (sinceDate : Z) (processedReplies : list string)
  (entry : string * list EmailHistory) : M (list string) :=
  let (senderEmail, emails) := entry in
  let replies := fetchInboxReplies inbox senderEmail sinceDate in
  let messageIdToEmail := index_by_message_id emails in
  fold_m replies (process_reply messageIdToEmail) processedReplies.

Definition serve_body : M Response :=
  match fst (getAccessToken env idp) with
  | Exn _ =>
      ret (json_response 500
             (JObj [("success", JBool false);
                    ("error", JStr "Azure authentication failed")]))
  | Ok accessToken =>
      let sinceDate := (now - hours (7 * 24))%Z in
      sent <- query faults (select_sent sinceDate) ;;
      match sent with
      | None =>
          ret (json_response 500
                 (JObj [("success", JBool false);
                        ("error", JStr "Failed to fetch sent emails")]))
      | Some [] =>
          ret (json_response 200
                 (JObj [("success", JBool true);
                        ("message", JStr "No emails to check for replies");
                        ("repliesFound", JNum 0)]))
      | Some sentEmails =>
          let emailsBySender :=
            ProcessBounceChecks.group_by_sender sentEmails in
          processedReplies <-
            fold_m emailsBySender (process_sender sinceDate) [] ;;
          let totalRepliesFound := Z.of_nat (List.length processedReplies) in
          ret (json_response 200
                 (JObj [("success", JBool true);
                        ("emailsChecked",
                         JNum (Z.of_nat (List.length sentEmails)));
                        ("repliesFound", JNum totalRepliesFound);
                        ("processedReplies", JArr (map JStr processedReplies));
                        ("processingTimeMs", JNum 0);
                        ("message",
                         JStr (if (0 <? totalRepliesFound)%Z
                               then "Found " ++ show_Z totalRepliesFound
                                      ++ " new reply(s)"
                               else "No new replies detected"))]))
      end
  end.

Definition serve (req : ServeRequest) : M Response :=
  if is_options req then ret (mkResponse 200 corsHeaders NoBody)
  else
    try_catch serve_body
      (fun errorMessage =>
         ret (json_response 500
                (JObj [("error", JStr errorMessage);
                       ("success", JBool false)]))).

End Serve.

End ProcessEmailReplies.

(* ================================================================== *)
(** ** send-email/index.ts: the token provider of the send path, the
       wrapper of the message body and the handler *)
(* ================================================================== *)

Module SendEmail.

Import Js Store.

Definition getAccessToken (env : Env) (idp : Idp)
  : outcome string * list TokenRequest :=
  let tenantId := env "AZURE_EMAIL_TENANT_ID" in
  let clientId := env "AZURE_EMAIL_CLIENT_ID" in
  let clientSecret := env "AZURE_EMAIL_CLIENT_SECRET" in
  if negb (truthy tenantId) || negb (truthy clientId)
     || negb (truthy clientSecret)
  then (Exn "Azure email credentials not configured. Please set AZURE_EMAIL_TENANT_ID, AZURE_EMAIL_CLIENT_ID, and AZURE_EMAIL_CLIENT_SECRET.",
        [])
  else
    match tenantId, clientId, clientSecret with
    | Some t, Some c, Some s =>
        let request := token_request t c s in
        let response := idp request in
        if negb (response_ok response)
        then (Exn ("Failed to get access token: " ++ response_status response
                     ++ " " ++ response_text response),
              [request])
        else (Ok (access_token response), [request])
    | _, _, _ => (Exn "Azure email credentials not configured. Please set AZURE_EMAIL_TENANT_ID, AZURE_EMAIL_CLIENT_ID, and AZURE_EMAIL_CLIENT_SECRET.", [])
    end.

Import Regex.
Local Open Scope store_scope.

(** *** Replacing every match of a pattern

    [s.replace(r, f)] for a pattern [r] with the [g] flag: the matches
    are looked for from left to right, each search starting where the
    previous match ended (one character further after an empty match).
    [skip] counts the characters of the current match that are still to
    be passed over. *)
Fixpoint replace_from (r : regex) (f : result -> string) (skip : nat)
  (before after : chars) {struct after} : chars :=
  match skip with
  | S n =>
      match after with
      | [] => []
      | c :: t => replace_from r f n (c :: before) t
      end
  | O =>
      match run r (MState before after []) Some with
      | Some st =>
          let w := taken (List.length before) st in
          let out :=
            list_ascii_of_string
              (f (Result (string_of_list_ascii w) (caps st))) in
          match after with
          | [] => out
          | c :: t =>
              match List.length w with
              | O => (out ++ c :: replace_from r f 0 (c :: before) t)%list
              | S n => (out ++ replace_from r f n (c :: before) t)%list
              end
          end
      | None =>
          match after with
          | [] => []
          | c :: t => c :: replace_from r f 0 (c :: before) t
          end
      end
  end.

Definition replace_all (r : regex) (f : result -> string) (s : string)
  : string :=
  string_of_list_ascii (replace_from r f 0 [] (list_ascii_of_string s)).

(** the double quote of the patterns, and [[^ ]] classes *)
Definition dq : regex := Chr (Ascii.eqb "034").
Definition not_dq : regex := Chr (fun c => negb (Ascii.eqb c "034")).
Definition not_gt : regex := Chr (fun c => negb (Ascii.eqb c ">")).

(** The pattern built for a class name: class=, a double quote, group 1
    holding the class name between two runs of characters other than
    the double quote, and a double quote; flags [gi]. *)
Definition class_with (className : string) : regex :=
  seqs [lit_i "class="; dq;
        Grp 1 (seqs [star not_dq; lit_i className; star not_dq]); dq].

(** The replacement of steps 1 to 3: the class name is taken out of the
    class list and the style is put next to what remains. *)
Definition inline_class (className style : string) (processed : string)
  : string :=
  replace_all (class_with className)
    (fun m =>
       let classes := group 1 m in
       let remaining :=
         trim (replace_all (lit_i className) (fun _ => "") classes) in
       if truthy (Some remaining)
       then "class=" ++ dquote ++ remaining ++ dquote ++ " style=" ++ dquote
              ++ style ++ dquote
       else "style=" ++ dquote ++ style ++ dquote)
    processed.

Definition alignMappings : list (string * string) :=
  [("ql-align-center", "text-align: center;");
   ("ql-align-right", "text-align: right;");
   ("ql-align-justify", "text-align: justify;")].

Definition fontMappings : list (string * string) :=
  [("ql-font-arial", "font-family: Arial, Helvetica, sans-serif;");
   ("ql-font-times-new-roman",
    "font-family: 'Times New Roman', Times, serif;");
   ("ql-font-georgia", "font-family: Georgia, serif;");
   ("ql-font-verdana", "font-family: Verdana, Geneva, sans-serif;");
   ("ql-font-courier-new",
    "font-family: 'Courier New', Courier, monospace;");
   ("ql-font-trebuchet-ms", "font-family: 'Trebuchet MS', sans-serif;")].

Definition sizeMappings : list (string * string) :=
  [("ql-size-small", "font-size: 10pt;");
   ("ql-size-large", "font-size: 14pt;");
   ("ql-size-huge", "font-size: 18pt;")].

(** [for (const [className, style] of Object.entries(mappings))] *)
Definition inline_classes (mappings : list (string * string))
  (processed : string) : string :=
  fold_left (fun s entry => inline_class (fst entry) (snd entry) s)
            mappings processed.

Definition P_STYLE : string := "margin: 0; padding: 0; line-height: 1.15;".

(** The opening tags that are given one fixed replacement (steps 7 and
    8), each with the pattern made of the tag name followed by any
    characters other than the closing bracket. *)
Definition fixedTags : list (string * string) :=
  [("<ul", "<ul style=" ++ dquote ++ "margin: 0 0 0 0; padding: 0 0 0 25px; list-style-type: disc; list-style-position: outside;" ++ dquote ++ ">");
   ("<ol", "<ol style=" ++ dquote ++ "margin: 0 0 0 0; padding: 0 0 0 25px; list-style-type: decimal; list-style-position: outside;" ++ dquote ++ ">");
   ("<li", "<li style=" ++ dquote ++ "margin: 0; padding: 0; line-height: 1.15;" ++ dquote ++ ">");
   ("<h1", "<h1 style=" ++ dquote ++ "margin: 0 0 8px 0; padding: 0; font-size: 16pt; font-weight: bold; line-height: 1.15;" ++ dquote ++ ">");
   ("<h2", "<h2 style=" ++ dquote ++ "margin: 0 0 6px 0; padding: 0; font-size: 14pt; font-weight: bold; line-height: 1.15;" ++ dquote ++ ">");
   ("<h3", "<h3 style=" ++ dquote ++ "margin: 0 0 4px 0; padding: 0; font-size: 12pt; font-weight: bold; line-height: 1.15;" ++ dquote ++ ">")].

Definition open_tag (name : string) : regex :=
  seqs [lit_i name; star not_gt; chr ">"].

(** class=, a double quote, ql-, characters other than the double quote,
    a double quote *)
Definition ql_class : regex :=
  seqs [lit_i "class="; dq; lit_i "ql-"; star not_dq; dq].
Definition empty_class : regex := seqs [lit_i "class="; dq; dq].

(** a [p] tag with a style attribute: group 1 before it, group 2 the
    style, group 3 after it *)
Definition p_with_style : regex :=
  seqs [lit_i "<p"; Grp 1 (star not_gt); plus space; lit_i "style="; dq;
        Grp 2 (star not_dq); dq; Grp 3 (star not_gt); chr ">"].
(** a [p] tag with attributes: group 1 is white space, characters other
    than the closing bracket, and one character other than the slash *)
Definition p_with_attrs : regex :=
  seqs [lit_i "<p";
        Grp 1 (seqs [plus space; star not_gt;
                     Chr (fun c => negb (Ascii.eqb c "/"))]);
        chr ">"].
Definition p_plain : regex := lit_i "<p>".
(** [br], white space, an optional slash, the closing bracket *)
Definition br_tag : regex :=
  seqs [lit_i "<br"; star space; opt (chr "/"); chr ">"].
(** a paragraph that holds a line break only *)
Definition empty_paragraph : regex :=
  seqs [lit_i "<p"; star not_gt; chr ">"; br_tag; lit_i "</p>"].

Definition DIV_OPEN : string :=
  "<div style=" ++ dquote ++ "font-family: Calibri, Arial, Helvetica, sans-serif; font-size: 11pt; line-height: 1.15; color: #000000;" ++ dquote ++ ">".

Definition wrapEmailContent (htmlBody : string) : string :=
  let processed := htmlBody in
  (* steps 1 to 3 *)
  let processed := inline_classes alignMappings processed in
  let processed := inline_classes fontMappings processed in
  let processed := inline_classes sizeMappings processed in
  (* step 4 *)
  let processed := replace_all ql_class (fun _ => "") processed in
  let processed := replace_all empty_class (fun _ => "") processed in
  (* step 5 *)
  let processed :=
    replace_all p_with_style
      (fun m => "<p" ++ group 1 m ++ " style=" ++ dquote
                  ++ "margin: 0; padding: 0; line-height: 1.15; "
                  ++ group 2 m ++ dquote ++ group 3 m ++ ">")
      processed in
  let processed :=
    replace_all p_with_attrs
      (fun m =>
         let attrs := group 1 m in
         if includes attrs "style=" then whole m
         else "<p" ++ attrs ++ " style=" ++ dquote ++ P_STYLE ++ dquote
                ++ ">")
      processed in
  let processed :=
    replace_all p_plain
      (fun _ => "<p style=" ++ dquote ++ P_STYLE ++ dquote ++ ">")
      processed in
  (* step 6 *)
  let processed :=
    replace_all empty_paragraph
      (fun _ => "<p style=" ++ dquote
                  ++ "margin: 0; padding: 0; line-height: 0.5; font-size: 8pt;"
                  ++ dquote ++ ">&nbsp;</p>")
      processed in
  (* steps 7 and 8 *)
  let processed :=
    fold_left (fun s entry =>
                 replace_all (open_tag (fst entry)) (fun _ => snd entry) s)
              fixedTags processed in
  (* step 9 *)
  let processed := replace_all br_tag (fun _ => "<br>") processed in
  DIV_OPEN ++ processed ++ "</div>".

(** *** Sending *)

Record EmailAttachment := mkAttachment {
  att_name : string;
  att_contentType : string;
  att_contentBytes : string
}.

Record EmailRequest := mkEmailRequest {
  is_options : bool;
  authorization : option string;       (* the request header *)
  to : option string;
  rq_subject : option string;
  rq_body : option string;
  toName : option string;
  from : option string;
  attachments : list EmailAttachment;
  entityType : option string;
  entityId : option string
}.

(** The request made to the mailbox API to send a message. *)
Record SendMail := mkSendMail {
  graphUrl : string;
  bearer : string;
  sm_subject : string;
  sm_content : string;                  (* body.content, as HTML *)
  sm_address : string;
  sm_name : string;
  sm_attachments : list EmailAttachment;
  saveToSentItems : bool
}.

Record SendResponse := mkSendResponse {
  send_ok : bool;
  send_status : string;
  send_text : string
}.

(** The answer of the Sent Items folder to the look-up of the message. *)
Record SentItems := mkSentItems {
  sent_throws : bool;                   (* the request itself fails *)
  sent_ok : bool;
  sent_value : list (option string)     (* internetMessageId of each hit *)
}.

Definition text (v : option string) : string :=
  match v with
  | Some s => s
  | None => "undefined"
  end.

Definition tracking_pixel (env : Env) (emailHistoryId : string) : string :=
  let trackingPixelUrl :=
    text (env "SUPABASE_URL") ++ "/functions/v1/track-email-open?id="
      ++ emailHistoryId in
  "<img src=" ++ dquote ++ trackingPixelUrl ++ dquote ++ " width=" ++ dquote
    ++ "1" ++ dquote ++ " height=" ++ dquote ++ "1" ++ dquote ++ " style="
    ++ dquote ++ "display:none;" ++ dquote ++ " alt=" ++ dquote ++ dquote
    ++ " />".

(** The row written by [insert(emailHistoryData)]: the columns of the
    request, and for every other column what the database fills in
    ([generated], which also carries the new id). *)
Definition new_email (generated : EmailHistory) (req : EmailRequest)
  (userId : option string) : EmailHistory :=
  let is_entity name :=
    match entityType req with
    | Some t => String.eqb t name && truthy (entityId req)
    | None => false
    end in
  mkEmail (id generated) (text (to req))
          (or_else (toName req) (to req))
          (text (from req)) (text (rq_subject req)) sent userId
          (sent_at generated)
          (if is_entity "lead" then contact_id generated
           else if is_entity "contact" then entityId req
           else contact_id generated)
          (if is_entity "lead" then entityId req else lead_id generated)
          (open_count generated) (unique_opens generated)
          (first_open_ip generated) (opened_at generated) (Some true)
          (bounce_type generated) (bounce_reason generated)
          (bounced_at generated) (message_id generated)
          (reply_count generated) (replied_at generated)
          (last_reply_at generated).

Definition insert_email (r : EmailHistory) (d : DB) : DB :=
  with_email_history d (email_history d ++ [r])%list.

(** [update({ status: "sent", is_valid_open: true, message_id })] *)
Definition mark_sent (messageId : option string) (r : EmailHistory)
  : EmailHistory :=
  mkEmail (id r) (recipient_email r) (recipient_name r) (sender_email r)
          (subject r) sent (sent_by r) (sent_at r) (contact_id r)
          (lead_id r) (open_count r) (unique_opens r) (first_open_ip r)
          (opened_at r) (Some true) (bounce_type r) (bounce_reason r)
          (bounced_at r) messageId (reply_count r) (replied_at r)
          (last_reply_at r).

(** The row written to [pending_bounce_checks]; the id and the creation
    time are filled in by the database ([generated]). *)
Definition new_check (generated : PendingBounceCheck)
  (emailHistoryId from to : string) (checkAfter : Z) : PendingBounceCheck :=
  mkPending (pc_id generated) (Some emailHistoryId) from to checkAfter
            false None (created_at generated).

Definition insert_check (c : PendingBounceCheck) (d : DB) : DB :=
  with_pending d (pending_bounce_checks d ++ [c])%list.

Definition json_headers : list (string * string) :=
  ([("Content-Type", "application/json")] ++ corsHeaders)%list.

Section Handler.

Variable faults : nat -> Fault.
(** the clock when the bounce check is queued *)
Variable now : Z.
Variable env : Env.
Variable idp : Idp.
(** [supabase.auth.getUser(token)]: the id of the user, if any *)
Variable getUser : string -> option string.
Variable sendMail : SendMail -> SendResponse.
(** the look-up in Sent Items: sender, subject *)
Variable sentItems : string -> string -> SentItems.
(** what the database generates for the two inserted rows *)
Variable generated_email : EmailHistory.
Variable generated_check : PendingBounceCheck.
(** the message of the error the store reports for a failed insert, and
    of the error raised when the body of the request is missing *)
Variable insert_message : string.
Variable type_error : string.

Definition sendEmail (accessToken : string) (req : EmailRequest)
  (emailHistoryId : string) : outcome unit :=
  match rq_body req with
  | None => Exn type_error
  | Some htmlBody =>
      let wrappedBody := wrapEmailContent htmlBody in
      let bodyWithTracking :=
        wrappedBody ++ tracking_pixel env emailHistoryId in
      let response :=
        sendMail
          (mkSendMail
             ("https://graph.microsoft.com/v1.0/users/" ++ text (from req)
                ++ "/sendMail")
             ("Bearer " ++ accessToken) (text (rq_subject req))
             bodyWithTracking (text (to req))
             (text (or_else (toName req) (to req)))
             (attachments req) true) in
      if negb (send_ok response)
      then Exn ("Failed to send email: " ++ send_status response ++ " "
                  ++ send_text response)
      else Ok tt
  end.

(** The Message-ID captured from Sent Items, if any. *)
Definition captured_message_id (req : EmailRequest) : option string :=
  let answer := sentItems (text (from req)) (text (rq_subject req)) in
  if sent_throws answer then None
  else if sent_ok answer then
    match sent_value answer with
    | v :: _ => v
    | [] => None
    end
  else None.

(** The user id taken from the authorization header. *)
Definition userId (req : EmailRequest) : option string :=
  if truthy (authorization req) then
    match authorization req with
    | Some authHeader => or_else (getUser (bearer_token authHeader)) None
    | None => None
    end
  else None.

Definition handler_body (req : EmailRequest) : M Response :=
  if negb (truthy (to req)) || negb (truthy (rq_subject req))
     || negb (truthy (from req))
  then ret (mkResponse 400 json_headers
              (Json (JObj [("error",
                            JStr "Missing required fields: to, subject, from")])))
  else
    let emailRecord := new_email generated_email req (userId req) in
    inserted <- write faults (insert_email emailRecord) ;;
    if negb inserted
    then throw ("Failed to create email history: " ++ insert_message)
    else
      match fst (getAccessToken env idp) with
      | Exn e => throw e
      | Ok accessToken =>
          match sendEmail accessToken req (id emailRecord) with
          | Exn e => throw e
          | Ok _ =>
              let messageId := captured_message_id req in
              write faults (update_email (id emailRecord) (mark_sent messageId))
                ;;;
              let checkAfter := (now + 45000)%Z in
              write faults
                (insert_check
                   (new_check generated_check (id emailRecord)
                              (text (from req)) (text (to req)) checkAfter))
                ;;;
              ret (mkResponse 200 json_headers
                     (Json (JObj [("success", JBool true);
                                  ("message", JStr "Email sent successfully");
                                  ("emailId", JStr (id emailRecord))])))
          end
      end.

Definition handler (req : EmailRequest) : M Response :=
  if is_options req then ret (mkResponse 200 corsHeaders NoBody)
  else
    try_catch (handler_body req)
      (fun errorMessage =>
         ret (mkResponse 500 json_headers
                (Json (JObj [("error",
                              JStr (match or_else (Some errorMessage)
                                                  (Some "Failed to send email")
                                    with
                                    | Some s => s
                                    | None => ""
                                    end))])))).

End Handler.

End SendEmail.

(* ================================================================== *)
(** ** The bounce-mark endpoint (the function that logs itself as
       mark-email-bounced), for manual use *)
(* ================================================================== *)

Module MarkEmailBounced.

Import Js Store.
Local Open Scope store_scope.

Record MarkBouncedRequest := mkMarkRequest {
  is_options : bool;
  emailId : option string;
  bounceType : option BounceType;
  bounceReason : option string
}.

Definition mark_as (bt : BounceType) (reason : option string) (now : Z)
  (r : EmailHistory) : EmailHistory :=
  mkEmail (id r) (recipient_email r) (recipient_name r) (sender_email r)
          (subject r) bounced (sent_by r) (sent_at r) (contact_id r)
          (lead_id r) (Some 0%Z) (Some 0%Z) (first_open_ip r) None
          (Some false) (Some bt) reason (Some now) (message_id r)
          (reply_count r) (replied_at r) (last_reply_at r).

Definition uncredit_contact (contact : Contact) (c : Contact) : Contact :=
  let newOpens := Z.max (num (email_opens contact) - 1) 0 in
  let newScore := Z.max (num (engagement_score contact) - 5) 0 in
  mkContact (c_id c) (Some newOpens) (Some newScore).

Definition error_response (code : Z) (msg : string) : Response :=
  mkResponse code ([("Content-Type", "application/json")] ++ corsHeaders)%list
             (Json (JObj [("error", JStr msg)])).

Section Handler.

Variable faults : nat -> Fault.
Variable now : Z.

Definition handler_body (req : MarkBouncedRequest) : M Response :=
  let bt := match bounceType req with Some b => b | None => hard end in
  if negb (truthy (emailId req))
  then ret (error_response 400 "Missing required field: emailId")
  else
    match emailId req with
    | None => ret (error_response 400 "Missing required field: emailId")
    | Some i =>
        fetched <- query faults (fun d => single (select_email i d)) ;;
        match fetched with
        | Some (Some emailData) =>
            let wasMarkedAsOpened :=
              status_eqb (status emailData) opened
              && (0 <? num (open_count emailData))%Z in
            updated <- write faults
                         (update_email i
                            (mark_as bt
                               (or_else (bounceReason req)
                                        (Some "Email delivery failed"))
                               now)) ;;
            if negb updated
            then ret (error_response 500 "Failed to update email")
            else
              (if wasMarkedAsOpened && truthy (contact_id emailData) then
                 match contact_id emailData with
                 | Some cid =>
                     found <- query faults
                                (fun d => single (select_contact cid d)) ;;
                     match found with
                     | Some (Some contact) =>
                         if (0 <? num (email_opens contact))%Z then
                           write faults
                             (update_contact cid (uncredit_contact contact))
                             ;;; ret tt
                         else ret tt
                     | _ => ret tt
                     end
                 | None => ret tt
                 end
               else ret tt) ;;;
              ret (mkResponse 200
                     ([("Content-Type", "application/json")] ++ corsHeaders)%list
                     (Json (JObj [("success", JBool true);
                                  ("message", JStr "Email marked as bounced");
                                  ("correctedFalseOpen",
                                   JBool wasMarkedAsOpened)])))
        | _ => ret (error_response 404 "Email not found")
        end
    end.

Definition handler (req : MarkBouncedRequest) : M Response :=
  if is_options req then ret (mkResponse 200 corsHeaders NoBody)
  else
    try_catch (handler_body req)
      (fun errorMessage =>
         ret (error_response 500
                (match or_else (Some errorMessage)
                               (Some "Failed to mark email as bounced") with
                 | Some s => s
                 | None => ""
                 end))).

End Handler.

End MarkEmailBounced.

(* ================================================================== *)
(** ** The third bounce service (the earlier bounce checker, which looks
       up the mailbox once per email) *)
(* ================================================================== *)

Module CheckEmailBounces.

Import Js Store Regex Ndr.
Local Open Scope store_scope.

Definition getAccessToken := ProcessBounceChecks.getAccessToken.

(** The parser of this copy: the patterns of process-bounce-checks,
    applied to the body as it is. *)
Definition parseNDRContent (subject body : string) : parsed :=
  let subjectMatch :=
    match exec subject_undeliverable subject with
    | Some m => Some m
    | None => exec subject_dsn subject
    end in
  let originalSubject := option_map (fun m => trim (group 1 m)) subjectMatch in
  let recipientEmail :=
    option_map (fun m => toLowerCase (group 1 m))
               (first_match ProcessBounceChecks.emailPatterns body) in
  let reason :=
    option_map (fun m => trimmed_reason (whole m))
               (first_match ProcessBounceChecks.reasonPatterns body) in
  let reason :=
    if negb (truthy reason)
       && (includes (toLowerCase subject) "undeliverable"
           || includes (toLowerCase subject) "failure"
           || includes (toLowerCase subject) "delivery status")
    then Some "Email could not be delivered"
    else reason in
  Parsed recipientEmail reason originalSubject.

Record ServeRequest := mkServeRequest {
  is_options : bool
}.

Section Serve.

Variable faults : nat -> Fault.
Variable now : Z.
Variable env : Env.
Variable idp : Idp.
(** the message list of the mailbox API: sender and start date *)
Variable search : string -> Z -> option (list GraphMessage).

(** The loop [for (const ndr of ndrMessages)], left by [return true] at
    the first NDR for the recipient. *)
Fixpoint check_ndrs (ndrMessages : list GraphMessage)
  (recipientEmail : string) (emailHistoryId : option string) : M bool :=
  match ndrMessages with
  | [] => ret false
  | ndr :: rest =>
      let p := parseNDRContent (ProcessBounceChecks.text_of (msg_subject ndr))
                               (ProcessBounceChecks.text_of (msg_body ndr)) in
      if truthy (Ndr.recipientEmail p)
         && match Ndr.recipientEmail p with
            | Some ndrRecipient =>
                String.eqb (toLowerCase ndrRecipient)
                           (toLowerCase recipientEmail)
            | None => false
            end
      then
        write faults
          (match emailHistoryId with
           | Some i =>
               update_email i
                 (mark_bounced
                    (or_else (reason p) (Some "Email delivery failed"))
                    (match receivedDateTime ndr with
                     | Some t => t
                     | None => now
                     end))
           | None => fun d => d
           end) ;;;
        ret true
      else check_ndrs rest recipientEmail emailHistoryId
  end.

Definition checkBounceForEmail (senderEmail recipientEmail : string)
  (emailHistoryId : option string) (sentAt : option Z) : M bool :=
  try_catch
    (let searchDate := (num sentAt - 60000)%Z in
     match search senderEmail searchDate with
     | None => ret false
     | Some allMessages =>
         check_ndrs (filter ProcessBounceChecks.is_ndr_message allMessages)
                    recipientEmail emailHistoryId
     end)
    (fun _ => ret false).

(** The body of [for (const check of pendingChecks)]; the accumulator is
    [(processedIds, pendingBouncesFound)]. *)
Definition pending_check (acc : list string * Z)
  (check : ProcessBounceChecks.JoinedCheck) : M (list string * Z) :=
  let (processedIds, pendingBouncesFound) := acc in
  let (c, eh) := check in
  match eh with
  | None => ret ((processedIds ++ [pc_id c])%list, pendingBouncesFound)
  | Some emailHistory =>
      if status_eqb (status emailHistory) bounced
      then ret ((processedIds ++ [pc_id c])%list, pendingBouncesFound)
      else
        wasBounced <- checkBounceForEmail (pc_sender_email c)
                        (pc_recipient_email c) (email_history_id c)
                        (sent_at emailHistory) ;;
        ret ((processedIds ++ [pc_id c])%list,
             if wasBounced then (pendingBouncesFound + 1)%Z
             else pendingBouncesFound)
  end.

Definition pending_pass : M (list string * Z) :=
  pending <- query faults (ProcessBounceChecks.select_pending now) ;;
  match pending with
  | Some ((_ :: _) as pendingChecks) =>
      acc <- fold_m pendingChecks pending_check ([], 0%Z) ;;
      let (processedIds, pendingBouncesFound) := acc in
      (if (0 <? List.length processedIds)%nat
       then write faults
              (ProcessBounceChecks.mark_checks processedIds
                 (if (0 <? pendingBouncesFound)%Z then check_bounced
                  else check_ok)) ;;; ret tt
       else ret tt) ;;;
      ret acc
  | _ => ret ([], 0%Z)
  end.

(** The body of the inner loop of the general sync. *)
Definition sweep_email (senderEmail : string) (found : Z)
  (email : EmailHistory) : M Z :=
  wasBounced <- checkBounceForEmail senderEmail (recipient_email email)
                  (Some (id email)) (sent_at email) ;;
  ret (if wasBounced then (found + 1)%Z else found).

Definition general_sweep : M Z :=
  let sinceDate := (now - hours 24)%Z in
  recent <- query faults (ProcessBounceChecks.select_recent sinceDate) ;;
  match recent with
  | Some ((_ :: _) as recentEmails) =>
      let senderEmails := unique (map sender_email recentEmails) [] in
      fold_m senderEmails
        (fun found senderEmail =>
           let senderRecentEmails :=
             filter (fun e => String.eqb (sender_email e) senderEmail)
                    recentEmails in
           fold_m senderRecentEmails (sweep_email senderEmail) found)
        0%Z
  | _ => ret 0%Z
  end.

Definition summary (processed : list string)
  (pendingBouncesFound generalBouncesFound : Z) : json :=
  let totalBouncesFound := (pendingBouncesFound + generalBouncesFound)%Z in
  JObj ([("success", JBool true);
         ("pendingChecksProcessed", JNum (Z.of_nat (List.length processed)));
         ("pendingBouncesFound", JNum pendingBouncesFound);
         ("generalBouncesFound", JNum generalBouncesFound);
         ("totalBouncesFound", JNum totalBouncesFound);
         ("processingTimeMs", JNum 0);
         ("message",
          JStr (if (0 <? totalBouncesFound)%Z
                then "Found and marked " ++ show_Z totalBouncesFound
                       ++ " bounced email(s)"
                else "No new bounces detected"))]
        ++ (if (totalBouncesFound =? 0)%Z
            then [("hint", JStr "If bounces exist but weren't detected, ensure the Azure app has 'Mail.Read' APPLICATION permission with admin consent")]
            else []))%list.

Definition serve_body : M Response :=
  match fst (getAccessToken env idp) with
  | Exn details =>
      ret (json_response 500
             (JObj [("success", JBool false);
                    ("error", JStr "Azure authentication failed");
                    ("details", JStr details);
                    ("hint", JStr "Ensure AZURE_EMAIL_TENANT_ID, AZURE_EMAIL_CLIENT_ID, and AZURE_EMAIL_CLIENT_SECRET are set correctly")]))
  | Ok accessToken =>
      acc <- pending_pass ;;
      let (processedIds, pendingBouncesFound) := acc in
      generalBouncesFound <- general_sweep ;;
      write faults (ProcessBounceChecks.delete_old_checks
                      (now - hours (7 * 24))%Z) ;;;
      ret (json_response 200
             (summary processedIds pendingBouncesFound generalBouncesFound))
  end.

Definition serve (req : ServeRequest) : M Response :=
  if is_options req then ret (mkResponse 200 corsHeaders NoBody)
  else
    try_catch serve_body
      (fun errorMessage =>
         ret (json_response 500
                (JObj [("error", JStr errorMessage);
                       ("success", JBool false)]))).

End Serve.

End CheckEmailBounces.

(* ================================================================== *)
(** ** Specification-side definitions *)
(* ================================================================== *)

(** The store after a handler has run on [d]. *)
Definition after {A} (m : Store.M A) (d : DB) : DB :=
  Store.db (snd (m (Store.start d))).

(** One invocation of a function of the core, seen as a step of the
    record store.  Every input (request, clock, configuration, answers
    of the identity endpoint and of the mailbox API, faults of the store)
    is arbitrary. *)
Inductive core_step : DB -> DB -> Prop :=
| step_track_open faults now req d :
    core_step d (after (TrackEmailOpen.handler faults now req) d)
| step_bounce_checks faults now env idp graph req d :
    core_step d (after (ProcessBounceChecks.serve
                          faults now env idp graph req) d)
| step_sync_bounces faults now env idp getUser search ilike req d :
    core_step d (after (SyncEmailBounces.serve
                          faults now env idp getUser search ilike req) d)
| step_replies faults now env idp inbox req d :
    core_step d (after (ProcessEmailReplies.serve
                          faults now env idp inbox req) d)
| step_check_bounces faults now env idp search req d :
    core_step d (after (CheckEmailBounces.serve
                          faults now env idp search req) d).

(** Any number of invocations, one after the other. *)
Definition core_run : DB -> DB -> Prop := clos_refl_trans_1n DB core_step.

(** A Hoare triple on the store: from a store satisfying [P], [m] ends
    with a value and a store related by [Q], or with an exception and a
    store satisfying [E]. *)
Definition triple {A} (P : DB -> Prop) (m : Store.M A)
  (Q : A -> DB -> Prop) (E : DB -> Prop) : Prop :=
  forall w, P (Store.db w) ->
    match m w with
    | (Store.Ok a, w') => Q a (Store.db w')
    | (Store.Exn _, w') => E (Store.db w')
    end.

(** [m] maintains the store invariant [I], whatever happens. *)
Definition keeps {A} (I : DB -> Prop) (m : Store.M A) : Prop :=
  triple I m (fun _ => I) I.

(** A property of every row of [email_history]. *)
Definition rows (P : EmailHistory -> Prop) (d : DB) : Prop :=
  Forall P (email_history d).

(** A relation between the rows of [email_history] before and after. *)
Definition rows_rel (R : EmailHistory -> EmailHistory -> Prop) (d0 d : DB)
  : Prop :=
  Forall2 R (email_history d0) (email_history d).

(** The counter invariant of a row. *)
Definition counter_invariant (r : EmailHistory) : Prop :=
  (num (unique_opens r) <= num (open_count r))%Z /\
  (bounce_type r <> None ->
   open_count r = Some 0%Z /\ unique_opens r = Some 0%Z /\ opened_at r = None).

(** A bounced row carries a bounce type and is not a valid open. *)
Definition bounced_shape (r : EmailHistory) : Prop :=
  status r = bounced ->
  bounce_type r <> None /\ is_valid_open r = Some false.

(** Well-formed store: [id] is a key of [email_history], and bounced rows
    have the shape the bounce transition gives them. *)
Definition well_formed (d : DB) : Prop :=
  NoDup (map id (email_history d)) /\ rows bounced_shape d.

(** A bounced row is left exactly as it is. *)
Definition sticky (r0 r : EmailHistory) : Prop :=
  id r = id r0 /\ (status r0 = bounced -> r = r0).

(** A step keeps the bounce type of a row or sets it to [hard]. *)
Definition hard_only (r0 r : EmailHistory) : Prop :=
  bounce_type r = bounce_type r0 \/ bounce_type r = Some hard.

(** A row that was not bounced and now is carries the type [hard]. *)
Definition recorded_hard (r0 r : EmailHistory) : Prop :=
  status r0 <> bounced -> status r = bounced -> bounce_type r = Some hard.

(** Both at once; this relation is closed under composition of steps. *)
Definition hard_transition (r0 r : EmailHistory) : Prop :=
  hard_only r0 r /\ recorded_hard r0 r.

(** Every value of an insertion-ordered map of lists satisfies [P]. *)
Definition values_all {V} (P : V -> Prop) (m : list (string * list V)) : Prop :=
  Forall (fun entry => Forall P (snd entry)) m.

(** The email of a pending check is one of the rows [T] allows to be
    updated. *)
Definition check_targets (T : string -> Prop)
  (check : ProcessBounceChecks.JoinedCheck) : Prop :=
  forall i, email_history_id (fst check) = Some i -> T i.

(** The row of [email_history] with a given id. *)
Definition the_email (i : string) (d : DB) : option EmailHistory :=
  Store.single (Store.select_email i d).

(** *** Configuration, as the specification words it *)

Module Spec.

(** A credential with its mail-specific and its generic variable, the
    mail-specific one taking precedence. *)
Definition credential (env : Env) (specific generic : string)
  : option string :=
  Js.or_else (env specific) (env generic).

Definition tenant (env : Env) :=
  credential env "AZURE_EMAIL_TENANT_ID" "AZURE_TENANT_ID".
Definition client (env : Env) :=
  credential env "AZURE_EMAIL_CLIENT_ID" "AZURE_CLIENT_ID".
Definition secret (env : Env) :=
  credential env "AZURE_EMAIL_CLIENT_SECRET" "AZURE_CLIENT_SECRET".

(** Some credential is absent once the fallbacks are applied. *)
Definition some_absent (env : Env) : Prop :=
  Js.truthy (tenant env) = false \/ Js.truthy (client env) = false
  \/ Js.truthy (secret env) = false.

(** The token provider fails with its configuration error (and not
    with the error of a rejected exchange). *)
Definition configuration_error (r : Store.outcome string) : Prop :=
  exists msg, r = Store.Exn msg /\
              Js.includes msg "credentials not configured" = true /\
              Js.includes msg "Failed to get access token" = false.

(** Some mail-specific variable is absent. *)
Definition some_specific_absent (env : Env) : Prop :=
  Js.truthy (env "AZURE_EMAIL_TENANT_ID") = false
  \/ Js.truthy (env "AZURE_EMAIL_CLIENT_ID") = false
  \/ Js.truthy (env "AZURE_EMAIL_CLIENT_SECRET") = false.

(** One qualifying open, as recorded by an observer of the requests. *)
Record Open := mkOpen {
  open_ip : string;
  open_time : Z
}.

(** The time of the latest earlier open from [ip], if any. *)
Definition previous_open (history : list Open) (ip : string) : option Z :=
  option_map open_time
    (find (fun o => String.eqb (open_ip o) ip) (rev history)).

(** The unique-open rule in the words of the specification: the first
    open ever, an IP that differs from the stored first IP, or the same
    IP's previous open more than 300 seconds earlier. *)
Definition unique_as_worded (history : list Open) (first_ip : option string)
  (ip : string) (now : Z) : bool :=
  match history with
  | [] => true
  | _ :: _ =>
      negb (match first_ip with
            | Some f => String.eqb f ip
            | None => false
            end)
      || match previous_open history ip with
         | Some t => (300 * 1000 <? now - t)%Z
         | None => false
         end
  end.

(** The rule as worded, read on one qualifying fetch from [ip] at [now]
    that takes the store from [d] to [d'], [history] being the earlier
    qualifying opens of row [i]: [unique_opens] goes up by one exactly
    when the worded condition holds. *)
Definition worded_rule (i : string) (d d' : DB) (history : list Open)
  (ip : string) (now : Z) : Prop :=
  forall e e',
    the_email i d = Some e -> the_email i d' = Some e' ->
    (unique_opens e' = Some (num (unique_opens e) + 1)%Z
     <-> unique_as_worded history (first_open_ip e) ip now = true).

End Spec.

(** *** Example data *)

Module Example.

Import Store.
Local Open Scope Z_scope.

Definition t0 : Z := 1700000000000.

Definition E1 : EmailHistory :=
  mkEmail "E1" "jane@acme.com" (Some "Jane") "me@corp.com" "Hello" sent
          (Some "U1") (Some t0) (Some "C1") None (Some 0) (Some 0) None None
          (Some true) None None None (Some "<m1@corp.com>") (Some 0) None
          None.

Definition P1 : PendingBounceCheck :=
  mkPending "P1" (Some "E1") "me@corp.com" "jane@acme.com" (t0 + 45000)
            false None t0.

Definition C1 : Contact := mkContact "C1" (Some 0) (Some 20).

Definition db0 : DB := mkDB [E1] [P1] [] [C1] [].

Definition browser : option string :=
  Some "Mozilla/5.0 (Windows NT 10.0; Win64; x64) Firefox/121.0".

Definition pixel_request (ua : option string) (ip : string)
  : TrackEmailOpen.Request :=
  TrackEmailOpen.mkRequest (Some "E1") ua (Some ip) None None.

(** A pixel fetch for [E1] at time [t] from [ip], the store working. *)
Definition fetch (ip : string) (t : Z) (d : DB) : DB :=
  after (TrackEmailOpen.handler reliable t (pixel_request browser ip)) d.

(** The scenario: three fetches after the send at [t0]. *)
Definition db1 : DB := fetch "1.1.1.1" (t0 + 10 * 1000) db0.
Definition db2 : DB := fetch "1.1.1.1" (t0 + 60 * 1000) db1.
Definition db3 : DB := fetch "2.2.2.2" (t0 + 400 * 1000) db2.

(** Three fetches from one address. *)
Definition db2' : DB := fetch "1.1.1.1" (t0 + 200 * 1000) db1.
Definition db3' : DB := fetch "1.1.1.1" (t0 + 400 * 1000) db2'.

(** A request of a crawler, ten seconds after the send. *)
Definition crawler_request : TrackEmailOpen.Request :=
  pixel_request (Some "Googlebot/2.1") "66.249.66.1".

(** Only the generic credential variables are set. *)
Definition generic_env : Env :=
  fun name =>
    if String.eqb name "AZURE_TENANT_ID" then Some "tenant"
    else if String.eqb name "AZURE_CLIENT_ID" then Some "client"
    else if String.eqb name "AZURE_CLIENT_SECRET" then Some "secret"
    else None.

Definition granting_idp : Idp :=
  fun _ => mkTokenResponse true "200" "" "token".

(** An NDR for [jane@acme.com] in an HTML body. *)
Definition ndr_message : GraphMessage :=
  mkMessage "N1" (Some "Undeliverable: Hello")
    (Some "<p>Your message to jane@acme.com couldn't be delivered. jane wasn't found at acme.com</p>")
    None (Some "postmaster@outlook.com") None (Some (t0 + 30000)) [].

(** An NDR in the phrasing the parser of sync-email-bounces knows. *)
Definition ndr_plain : GraphMessage :=
  mkMessage "N2" (Some "Mail failure")
    (Some "Recipient: jane@acme.com permanent failure")
    None (Some "postmaster@outlook.com") None (Some (t0 + 30000)) [].

Definition mailbox : Graph :=
  fun _ folder _ =>
    if String.eqb folder "Inbox" then Some [ndr_message] else Some [].

Definition bounce_checks (t : Z) (d : DB) : DB :=
  after (ProcessBounceChecks.serve reliable t generic_env granting_idp mailbox
           (ProcessBounceChecks.mkServeRequest false)) d.

(** A case-insensitive comparison standing for [ilike] on patterns
    without wild cards. *)
Definition ilike_plain (value pattern : string) : bool :=
  String.eqb (Js.toLowerCase value) (Js.toLowerCase pattern).

Definition sync_bounces (t : Z) (d : DB) : DB :=
  after (SyncEmailBounces.serve reliable t generic_env granting_idp
           (fun _ => true) (fun _ _ => Some [ndr_plain]) ilike_plain
           (SyncEmailBounces.mkSyncRequest false (Some "Bearer session")
                                           None None)) d.

(** Two replies to [E1], the second one naming it in [References]. *)
Definition reply1 : GraphMessage :=
  mkMessage "G1" (Some "Re: Hello") None (Some "sure")
            (Some "jane@acme.com") (Some "Jane") (Some (t0 + 90000))
            [("In-Reply-To", "<m1@corp.com>")].
Definition reply2 : GraphMessage :=
  mkMessage "G2" (Some "Re: Hello") None (Some "one more thing")
            (Some "jane@acme.com") (Some "Jane") (Some (t0 + 80000))
            [("References", "<x@y> <m1@corp.com>")].

(** [E1] opened once, then found bounced by the pending pass. *)
Definition db_bounced : DB := bounce_checks (t0 + 500 * 1000) db1.

Definition check_replies (messages : list GraphMessage) (t : Z) (d : DB)
  : DB :=
  after (ProcessEmailReplies.serve reliable t generic_env granting_idp
           (fun _ _ => Some messages)
           (ProcessEmailReplies.mkServeRequest false)) d.

(** The manual endpoint applied to [E1]. *)
Definition mark_manually (t : Z) (d : DB) : DB :=
  after (MarkEmailBounced.handler reliable t
           (MarkEmailBounced.mkMarkRequest false (Some "E1") (Some hard)
                                           None)) d.

(** Both replies arrive before one run of the reply reconciliation. *)
Definition db_replied : DB :=
  check_replies [reply1; reply2] (t0 + 600 * 1000) db1.

End Example.

(* ================================================================== *)
(** ** Definitions for the further properties of the code *)
(* ================================================================== *)

(** Does the text hold a [<] with a [>] somewhere after it?  [opened]
    tells whether a [<] has been seen. *)
Fixpoint has_tag (s : Js.chars) (opened : bool) : bool :=
  match s with
  | [] => false
  | c :: t =>
      if opened && Ascii.eqb c ">" then true
      else has_tag t (opened || Ascii.eqb c "<")
  end.

Module RegexSpec.
Import Js Regex.
Local Open Scope list_scope.

(** The declarative reading of a pattern: [matches r st st'] when [r]
    can take the matcher from [st] to [st']. *)
Inductive matches : regex -> mstate -> mstate -> Prop :=
| m_eps st : matches Eps st st
| m_chr p st c t :
    rest st = c :: t -> p c = true ->
    matches (Chr p) st (MState (c :: pre st) t (caps st))
| m_seq a b st1 st2 st3 :
    matches a st1 st2 -> matches b st2 st3 -> matches (Seq a b) st1 st3
| m_alt_l a b st st' : matches a st st' -> matches (Alt a b) st st'
| m_alt_r a b st st' : matches b st st' -> matches (Alt a b) st st'
| m_rep_stop g a st : matches (Rep g a) st st
| m_rep_more g a st1 st2 st3 :
    matches a st1 st2 -> matches (Rep g a) st2 st3 ->
    matches (Rep g a) st1 st3
| m_grp i a st st' :
    matches a st st' ->
    matches (Grp i a) st
      (MState (pre st') (rest st')
              ((i, taken (List.length (pre st)) st') :: caps st'))
| m_wordb st : at_word_boundary st = true -> matches WordB st st
| m_eoi st : rest st = [] -> matches Eoi st st.

(** Every character test of the pattern implies [P]. *)
Fixpoint chars_in (P : ascii -> bool) (r : regex) : Prop :=
  match r with
  | Chr p => forall c, p c = true -> P c = true
  | Seq a b | Alt a b => chars_in P a /\ chars_in P b
  | Rep _ a | Grp _ a => chars_in P a
  | Eps | WordB | Eoi => True
  end.

Fixpoint group_free (r : regex) : bool :=
  match r with
  | Grp _ _ => false
  | Seq a b | Alt a b => group_free a && group_free b
  | Rep _ a => group_free a
  | Eps | Chr _ | WordB | Eoi => true
  end.

(** Every match of the pattern holds the character [c]: a sufficient
    test, which looks at each character class on all 256 characters. *)
Definition all_ascii : list ascii := map ascii_of_nat (seq 0 256).

Fixpoint must (c : ascii) (r : regex) : bool :=
  match r with
  | Chr p => forallb (fun x => implb (p x) (Ascii.eqb x c)) all_ascii
  | Seq a b => must c a || must c b
  | Alt a b => must c a && must c b
  | Grp _ a => must c a
  | Eps | Rep _ _ | WordB | Eoi => false
  end.

(** The text between two matcher states. *)
Definition consumed (st st' : mstate) (w : chars) : Prop :=
  pre st' = (rev w ++ pre st)%list /\ rest st = (w ++ rest st')%list.

(** Patterns that capture one address as group 1 and nothing else. *)
Inductive captures_address : regex -> Prop :=
| ca_here : captures_address Ndr.address
| ca_left a b :
    captures_address a -> group_free b = true ->
    captures_address (Seq a b)
| ca_right a b :
    group_free a = true -> captures_address b ->
    captures_address (Seq a b).

(** A text made of address characters that holds an [@]. *)
Definition address_like (w : chars) : Prop :=
  Forall (fun c => (Ndr.local_part c || Ascii.eqb c "@") = true) w /\
  In "@"%char w.

End RegexSpec.

(** The characters of a lower-cased address. *)
Definition address_char (c : ascii) : bool :=
  Js.is_lower c || Js.is_digit c || Regex.one_of "._%+-@" c.

(** The three copies of the NDR parser. *)
Definition ndr_parsers : list (string -> string -> Ndr.parsed) :=
  [ ProcessBounceChecks.parseNDRContent;
    SyncEmailBounces.parseNDRContent;
    CheckEmailBounces.parseNDRContent ].

(** *** The functions that work on an email after it has been sent *)

(** One invocation of a function of the core or of the manual bounce
    endpoint. *)
Inductive lifecycle_step : DB -> DB -> Prop :=
| step_core d d' : core_step d d' -> lifecycle_step d d'
| step_mark_bounced faults now req d :
    lifecycle_step d (after (MarkEmailBounced.handler faults now req) d).

Definition lifecycle_run : DB -> DB -> Prop :=
  clos_refl_trans_1n DB lifecycle_step.

(** The columns that say what was sent, to whom and by whom. *)
Definition same_message (r0 r : EmailHistory) : Prop :=
  id r = id r0 /\
  recipient_email r = recipient_email r0 /\
  recipient_name r = recipient_name r0 /\
  sender_email r = sender_email r0 /\
  subject r = subject r0 /\
  sent_by r = sent_by r0 /\
  sent_at r = sent_at r0 /\
  contact_id r = contact_id r0 /\
  lead_id r = lead_id r0 /\
  message_id r = message_id r0.

(** A status is kept, or becomes one of the three later states. *)
Definition status_moves_on (r0 r : EmailHistory) : Prop :=
  status r = status r0 \/ status r = opened \/ status r = bounced \/
  status r = replied.

(** The engagement columns of a contact are within their bounds. *)
Definition contact_in_range (c : Contact) : Prop :=
  (0 <= num (email_opens c))%Z /\
  (0 <= num (engagement_score c) <= 100)%Z.

(** What a pending check keeps: its columns other than the outcome, and
    the fact of having been checked. *)
Definition same_check (c0 c : PendingBounceCheck) : Prop :=
  pc_id c = pc_id c0 /\
  email_history_id c = email_history_id c0 /\
  pc_sender_email c = pc_sender_email c0 /\
  pc_recipient_email c = pc_recipient_email c0 /\
  check_after c = check_after c0 /\
  created_at c = created_at c0 /\
  (checked c0 = true -> checked c = true).

(** Every recorded reply belongs to a row of [email_history]. *)
Definition replies_refer (d : DB) : Prop :=
  forall r, In r (email_replies d) ->
            In (er_email_history_id r) (map id (email_history d)).

(** [m] ends without an exception. *)
Definition safe {A} (m : Store.M A) : Prop :=
  triple (fun _ => True) m (fun _ _ => True) (fun _ => False).

(** The checks a run of process-bounce-checks at [now] selects. *)
Definition due_checks (now : Z) (d : DB) : list PendingBounceCheck :=
  firstn 50
    (filter (fun c => negb (checked c) && (check_after c <=? now)%Z)
            (pending_bounce_checks d)).

(** The ids of the checks grouped under the senders. *)
Definition grouped_ids (m : list (string * list ProcessBounceChecks.JoinedCheck))
  : list string :=
  flat_map (fun entry => map (fun check => pc_id (fst check)) (snd entry)) m.

(** Every pending check whose id is in [ids] has been checked. *)
Definition checked_all (ids : list string) (d : DB) : Prop :=
  forall c, In c (pending_bounce_checks d) -> In (pc_id c) ids ->
            checked c = true.

(** [email_history] is as it was in [d0]. *)
Definition history_unchanged (d0 d : DB) : Prop :=
  email_history d = email_history d0.

(** A scenario for the send function: a second email to Jane. *)
Module SendExample.

Import Store.
Local Open Scope Z_scope.

Definition request : SendEmail.EmailRequest :=
  SendEmail.mkEmailRequest false (Some "Bearer session")
    (Some "jane@acme.com") (Some "Follow-up") (Some "See you on Monday.")
    (Some "Jane") (Some "me@corp.com") [] (Some "contact") (Some "C1").

(** What the database generates for the two new rows. *)
Definition generated_email : EmailHistory :=
  mkEmail "E2" "" None "" "" sent None (Some (Example.t0 + 1000)) None None
          (Some 0) (Some 0) None None (Some true) None None None None
          (Some 0) None None.
Definition generated_check : PendingBounceCheck :=
  mkPending "P2" None "" "" 0 false None (Example.t0 + 2000).

Definition email_env : Env :=
  fun name =>
    if String.eqb name "AZURE_EMAIL_TENANT_ID" then Some "tenant"
    else if String.eqb name "AZURE_EMAIL_CLIENT_ID" then Some "client"
    else if String.eqb name "AZURE_EMAIL_CLIENT_SECRET" then Some "secret"
    else if String.eqb name "SUPABASE_URL" then Some "https://crm.example"
    else None.

Definition accepting : SendEmail.SendMail -> SendEmail.SendResponse :=
  fun _ => SendEmail.mkSendResponse true "202" "".
Definition refusing : SendEmail.SendMail -> SendEmail.SendResponse :=
  fun _ => SendEmail.mkSendResponse false "403" "Access denied".

Definition sent_items : string -> string -> SendEmail.SentItems :=
  fun _ _ => SendEmail.mkSentItems false true [Some "<m2@corp.com>"].

Definition send (sendMail : SendEmail.SendMail -> SendEmail.SendResponse)
  (request : SendEmail.EmailRequest) : M Response :=
  SendEmail.handler reliable (Example.t0 + 2000) email_env
    Example.granting_idp (fun _ => Some "U1") sendMail sent_items
    generated_email generated_check "duplicate key" "body is undefined"
    request.

End SendExample.

(* ================================================================== *)
(** ** Reasoning about handlers *)
(* ================================================================== *)

Section TripleRules.

Import Store.
Context {A B : Type}.

Lemma triple_ret (P : DB -> Prop) (a : A) Q E :
  (forall d, P d -> Q a d) -> triple P (ret a) Q E.
Proof. intros H w Hw. simpl. auto. Qed.

Lemma triple_throw (P : DB -> Prop) e (Q : A -> DB -> Prop) (E : DB -> Prop) :
  (forall d, P d -> E d) -> triple P (throw e) Q E.
Proof. intros H w Hw. simpl. auto. Qed.

Lemma triple_bind P (m : M A) (f : A -> M B) Q1 Q E :
  triple P m Q1 E ->
  (forall a, triple (Q1 a) (f a) Q E) ->
  triple P (bind m f) Q E.
Proof.
  intros Hm Hf w Hw. unfold bind.
  specialize (Hm w Hw). destruct (m w) as [[a | e] w'].
  - apply (Hf a w' Hm).
  - exact Hm.
Qed.

Lemma triple_query faults (q : DB -> A) (P : DB -> Prop) Q E :
  (forall d, P d -> Q (Some (q d)) d /\ Q None d /\ E d) ->
  triple P (query faults q) Q E.
Proof.
  intros H w Hw. unfold query.
  destruct (H _ Hw) as (H1 & H2 & H3).
  destruct (faults (calls w)); simpl; assumption.
Qed.

Lemma triple_write faults (u : DB -> DB) (P : DB -> Prop) Q E :
  (forall d, P d -> Q true (u d) /\ Q false d /\ E d) ->
  triple P (write faults u) Q E.
Proof.
  intros H w Hw. unfold write.
  destruct (H _ Hw) as (H1 & H2 & H3).
  destruct (faults (calls w)); simpl; assumption.
Qed.

Lemma triple_try_catch P (m : M A) h Q E1 E :
  triple P m Q E1 ->
  (forall e, triple E1 (h e) Q E) ->
  triple P (try_catch m h) Q E.
Proof.
  intros Hm Hh w Hw. unfold try_catch.
  specialize (Hm w Hw). destruct (m w) as [[a | e] w'].
  - exact Hm.
  - apply (Hh e w' Hm).
Qed.

Lemma triple_attempt P (m : M A) (Q : option A -> DB -> Prop) E :
  triple P m (fun a => Q (Some a)) (Q None) ->
  triple P (attempt m) Q E.
Proof.
  intros Hm w Hw. unfold attempt.
  specialize (Hm w Hw). destruct (m w) as [[a | e] w']; exact Hm.
Qed.

Lemma triple_weaken (P P' : DB -> Prop) (m : M A) (Q Q' : A -> DB -> Prop)
  (E E' : DB -> Prop) :
  triple P' m Q' E' ->
  (forall d, P d -> P' d) ->
  (forall a d, Q' a d -> Q a d) ->
  (forall d, E' d -> E d) ->
  triple P m Q E.
Proof.
  intros Hm HP HQ HE w Hw. specialize (Hm w (HP _ Hw)).
  destruct (m w) as [[a | e] w']; auto.
Qed.

End TripleRules.

Section KeepsRules.

Import Store.
Context {A B : Type}.
Variable I : DB -> Prop.

Lemma keeps_ret (a : A) : keeps I (ret a).
Proof. apply triple_ret. auto. Qed.

Lemma keeps_throw e : keeps I (@throw A e).
Proof. apply triple_throw. auto. Qed.

Lemma keeps_bind (m : M A) (f : A -> M B) :
  keeps I m -> (forall a, keeps I (f a)) -> keeps I (bind m f).
Proof. intros Hm Hf. eapply triple_bind; [exact Hm | exact Hf]. Qed.

Lemma keeps_query faults (q : DB -> A) : keeps I (query faults q).
Proof. apply triple_query. auto. Qed.

Lemma keeps_write faults (u : DB -> DB) :
  (forall d, I d -> I (u d)) -> keeps I (write faults u).
Proof. intro H. apply triple_write. auto. Qed.

Lemma keeps_try_catch (m : M A) h :
  keeps I m -> (forall e, keeps I (h e)) -> keeps I (try_catch m h).
Proof. intros Hm Hh. eapply triple_try_catch; [exact Hm | exact Hh]. Qed.

Lemma keeps_attempt (m : M A) : keeps I m -> keeps I (attempt m).
Proof. intro Hm. apply triple_attempt. exact Hm. Qed.

Lemma keeps_fold_m (l : list B) (body : A -> B -> M A) (s : A) :
  (forall s x, In x l -> keeps I (body s x)) -> keeps I (fold_m l body s).
Proof.
  revert s. induction l as [| x l IH]; intros s H; simpl.
  - apply keeps_ret.
  - eapply triple_bind.
    + apply H. left. reflexivity.
    + intro a. apply IH. intros s' y Hy. apply H. right. exact Hy.
Qed.

Lemma keeps_after (m : M A) w : keeps I m -> I (db w) -> I (db (snd (m w))).
Proof.
  intros Hm Hw. specialize (Hm w Hw).
  destruct (m w) as [[a | e] w']; exact Hm.
Qed.

End KeepsRules.

Ltac as_keeps :=
  match goal with
  | |- triple ?I ?m (fun _ => ?I) ?I => change (keeps I m)
  end.

(** One step of symbolic execution of a handler under [keeps]. *)
Ltac keeps_step :=
  match goal with
  | |- keeps _ (Store.ret _) => apply keeps_ret
  | |- keeps _ (Store.throw _) => apply keeps_throw
  | |- keeps _ (Store.bind _ _) => apply keeps_bind; [| intro]
  | |- keeps _ (Store.query _ _) => apply keeps_query
  | |- keeps _ (Store.try_catch _ _) => apply keeps_try_catch; [| intro]
  | |- keeps _ (Store.attempt _) => apply keeps_attempt
  | |- keeps _ (Store.fold_m _ _ _) => apply keeps_fold_m; intros
  | |- keeps _ (if ?b then _ else _) => destruct b
  | |- keeps _ (match ?x with _ => _ end) => destruct x
  end.

(** *** Facts about the queries *)

Lemma single_filter_eq {A} (p : A -> bool) (l : list A) (e : A) :
  Store.single (filter p l) = Some e ->
  forall r, In r l -> p r = true -> r = e.
Proof.
  intros H r Hin Hp.
  assert (Hf : In r (filter p l)) by (apply filter_In; auto).
  destruct (filter p l) as [| x [| y t]]; simpl in H; try discriminate.
  injection H as ->. destruct Hf as [-> | []]. reflexivity.
Qed.

Lemma status_eqb_eq a b : status_eqb a b = true <-> a = b.
Proof. destruct a, b; simpl; split; intro H; try reflexivity; discriminate. Qed.

Lemma not_bounced_spec r : not_bounced r = true <-> status r <> bounced.
Proof.
  unfold not_bounced. rewrite negb_true_iff. split.
  - intros H E. apply status_eqb_eq in E. congruence.
  - intro H. destruct (status_eqb (status r) bounced) eqn:E; [| reflexivity].
    apply status_eqb_eq in E. contradiction.
Qed.

Lemma has_id_spec i r : Store.has_id i r = true <-> id r = i.
Proof. unfold Store.has_id. apply String.eqb_eq. Qed.

Lemma In_firstn {A} (n : nat) (l : list A) x : In x (firstn n l) -> In x l.
Proof.
  revert l. induction n as [| n IH]; intros [| y l]; simpl; try tauto.
  intros [-> | H]; auto.
Qed.

Lemma In_insert_desc e l x : In x (insert_desc e l) -> x = e \/ In x l.
Proof.
  induction l as [| y l IH]; simpl.
  - intros [<- | []]. auto.
  - destruct (num (sent_at y) <? num (sent_at e))%Z; simpl.
    + intros [<- | H]; auto.
    + intros [<- | H]; auto. destruct (IH H); auto.
Qed.

Lemma In_sort_desc l x : In x (sort_desc l) -> In x l.
Proof.
  unfold sort_desc. intro H. apply in_rev. revert H.
  induction (rev l) as [| y t IH]; simpl; [tauto |].
  intro H. apply In_insert_desc in H. destruct H as [-> | H]; auto.
Qed.

Lemma SMap_get_all {V} (P : V -> Prop) m k (l : list V) :
  values_all P m -> SMap.get m k = Some l -> Forall P l.
Proof.
  induction 1 as [| [k' v] m Hv Hm IH]; simpl; [discriminate |].
  destruct (String.eqb k' k); [intro E; injection E as <-; exact Hv | exact IH].
Qed.

Lemma SMap_set_all {V} (P : V -> Prop) m k (l : list V) :
  values_all P m -> Forall P l -> values_all P (SMap.set m k l).
Proof.
  intros Hm Hl. induction Hm as [| [k' v] m Hv Hm IH]; simpl.
  - constructor; [exact Hl | constructor].
  - destruct (String.eqb k' k); constructor; auto.
Qed.

Lemma SMap_push_all {V} (P : V -> Prop) m k (x : V) :
  values_all P m -> P x -> values_all P (SMap.push m k x).
Proof.
  intros Hm Hx. unfold SMap.push. apply SMap_set_all; [exact Hm |].
  apply Forall_app. split; [| constructor; [exact Hx | constructor]].
  destruct (SMap.get m k) eqn:E; [| constructor].
  eapply SMap_get_all; eassumption.
Qed.

Lemma group_by_sender_all (P : EmailHistory -> Prop) emails :
  Forall P emails ->
  values_all P (ProcessBounceChecks.group_by_sender emails).
Proof.
  unfold ProcessBounceChecks.group_by_sender.
  assert (G : forall m, values_all P m -> Forall P emails ->
                        values_all P
                          (fold_left (fun m e => SMap.push m (sender_email e) e)
                                     emails m)).
  { induction emails as [| e l IH]; intros m Hm Hl; simpl; [exact Hm |].
    inversion Hl; subst. apply IH; [apply SMap_push_all |]; assumption. }
  apply G. constructor.
Qed.

Lemma group_pending_all (P : ProcessBounceChecks.JoinedCheck -> Prop)
  checks processed bySender :
  Forall (fun check => forall e, snd check = Some e ->
                                 status e <> bounced -> P check) checks ->
  values_all P bySender ->
  values_all P
    (snd (ProcessBounceChecks.group_pending checks processed bySender)).
Proof.
  revert processed bySender.
  induction checks as [| [c eh] l IH]; intros processed bySender Hl Hm; simpl.
  - exact Hm.
  - inversion Hl as [| ? ? Hc Hl']; subst.
    destruct eh as [e |]; [| apply IH; assumption].
    destruct (status_eqb (status e) bounced) eqn:E; [apply IH; assumption |].
    apply IH; [assumption |]. apply SMap_push_all; [assumption |].
    apply (Hc e); [reflexivity |]. intro Hs.
    apply status_eqb_eq in Hs. congruence.
Qed.

Lemma SMap_get_set_in {V} (P : V -> Prop) (m : list (string * V)) k v k' x :
  Forall (fun entry => P (snd entry)) m -> P v ->
  SMap.get (SMap.set m k v) k' = Some x -> P x.
Proof.
  intros Hm Hv. induction Hm as [| [k0 v0] m H0 Hm IH]; simpl.
  - destruct (String.eqb k k'); [intro E; injection E as <-; exact Hv |].
    discriminate.
  - destruct (String.eqb k0 k) eqn:E0; simpl.
    + destruct (String.eqb k k'); [intro E; injection E as <-; exact Hv |].
      clear IH. induction Hm as [| [k1 v1] m H1 Hm IH']; simpl;
        [discriminate |].
      destruct (String.eqb k1 k'); [intro E; injection E as <-; exact H1 |].
      exact IH'.
    + destruct (String.eqb k0 k'); [intro E; injection E as <-; exact H0 |].
      exact IH.
Qed.

Lemma SMap_set_all1 {V} (P : V -> Prop) (m : list (string * V)) k v :
  Forall (fun entry => P (snd entry)) m -> P v ->
  Forall (fun entry => P (snd entry)) (SMap.set m k v).
Proof.
  intros Hm Hv. induction Hm as [| [k0 v0] m H0 Hm IH]; simpl.
  - constructor; [exact Hv | constructor].
  - destruct (String.eqb k0 k); constructor; auto.
Qed.

Lemma SMap_get_all1 {V} (P : V -> Prop) (m : list (string * V)) k x :
  Forall (fun entry => P (snd entry)) m -> SMap.get m k = Some x -> P x.
Proof.
  induction 1 as [| [k0 v0] m H0 Hm IH]; simpl; [discriminate |].
  destruct (String.eqb k0 k); [intro E; injection E as <-; exact H0 | exact IH].
Qed.

Lemma index_by_message_id_all (P : EmailHistory -> Prop) emails :
  Forall P emails ->
  Forall (fun entry => P (snd entry))
         (ProcessEmailReplies.index_by_message_id emails).
Proof.
  unfold ProcessEmailReplies.index_by_message_id.
  assert (G : forall m, Forall (fun entry => P (snd entry)) m ->
                        Forall P emails ->
                        Forall (fun entry => P (snd entry))
                          (fold_left
                             (fun m email =>
                                if Js.truthy (message_id email) then
                                  match message_id email with
                                  | Some mid =>
                                      SMap.set (SMap.set m mid email)
                                               (Js.strip_angle mid) email
                                  | None => m
                                  end
                                else m) emails m)).
  { induction emails as [| e l IH]; intros m Hm Hl; simpl; [exact Hm |].
    inversion Hl; subst. apply IH; [| assumption].
    destruct (Js.truthy (message_id e)); [| assumption].
    destruct (message_id e); [| assumption].
    repeat apply SMap_set_all1; assumption. }
  apply G. constructor.
Qed.

Lemma lookup_original_all (P : EmailHistory -> Prop) m target e :
  Forall (fun entry => P (snd entry)) m ->
  ProcessEmailReplies.lookup_original m target = Some e -> P e.
Proof.
  intros Hm. unfold ProcessEmailReplies.lookup_original.
  destruct (SMap.get m target) eqn:E.
  - intro H; injection H as <-. eapply SMap_get_all1; eassumption.
  - intro H. eapply SMap_get_all1; eassumption.
Qed.

Lemma triple_pure {A} (P : DB -> Prop) (F : Prop) (m : Store.M A) Q E :
  (F -> triple P m Q E) -> triple (fun d => P d /\ F) m Q E.
Proof. intros H w [Hp Hf]. apply (H Hf w Hp). Qed.

(** *** Invariants closed under the row updates of the core

    [T i] says that the row with id [i] may be the target of a bounce or
    reply update; the handlers only ever update rows they have just read
    as not bounced. *)

Section Closed.

Import Store.

Variable I : DB -> Prop.
Variable T : string -> Prop.

Hypothesis I_rows :
  forall d d', email_history d' = email_history d -> I d -> I d'.
Hypothesis I_invalid :
  forall i d, I d -> I (update_email i TrackEmailOpen.mark_invalid d).
Hypothesis I_open :
  forall i e ip now d,
    I d -> the_email i d = Some e -> bounce_type e = None ->
    I (update_email i (TrackEmailOpen.apply_open e ip now) d).
Hypothesis T_intro :
  forall d e, I d -> In e (email_history d) -> status e <> bounced ->
              T (id e).
Hypothesis I_bounced :
  forall i reason t d,
    T i -> I d -> I (update_email i (mark_bounced reason t) d).
Hypothesis I_reply :
  forall i e reply d,
    T i -> I d ->
    I (update_email i (ProcessEmailReplies.apply_reply e reply) d).

Local Ltac other_write :=
  apply keeps_write; intros ? ?; eapply I_rows; [| eassumption]; reflexivity.

Local Ltac run :=
  repeat (first [ keeps_step
                | other_write
                | apply keeps_write; intros ? ?; solve [auto] ]).

Lemma keeps_first_open_effects faults e :
  keeps I (TrackEmailOpen.first_open_effects faults e).
Proof. unfold TrackEmailOpen.first_open_effects. run. Qed.

Lemma keeps_track_open faults now req :
  keeps I (TrackEmailOpen.handler faults now req).
Proof.
  unfold TrackEmailOpen.handler, TrackEmailOpen.handler_body.
  apply keeps_try_catch; [| intro; apply keeps_ret].
  destruct (negb (Js.truthy (TrackEmailOpen.id_param req)));
    [apply keeps_ret |].
  destruct (TrackEmailOpen.id_param req) as [emailId |]; [| apply keeps_ret].
  destruct (TrackEmailOpen.isBotUserAgent (TrackEmailOpen.user_agent req)).
  { run. }
  eapply triple_bind with
    (Q1 := fun res d =>
             I d /\ forall e, res = Some (Some e) -> the_email emailId d = Some e).
  { apply triple_query. intros d Hd. repeat split; auto.
    - intros e He. injection He as He. exact He.
    - intros e He. discriminate. }
  intros [[emailData |] |].
  2,3: apply triple_ret; intros d [Hd _]; exact Hd.
  destruct (bounce_type emailData) eqn:Hb.
  { apply triple_ret; intros d [Hd _]; exact Hd. }
  destruct (seconds_below _ _).
  { eapply triple_weaken with (P' := I) (Q' := fun _ => I) (E' := I);
      [| intros d [Hd _]; exact Hd | auto | auto ].
    as_keeps. run. }
  eapply triple_bind with (Q1 := fun _ => I).
  { apply triple_write. intros d [Hd He]. repeat split; auto. }
  intros _. as_keeps.
  apply keeps_bind; [| intro; apply keeps_ret].
  destruct (num (open_count emailData) =? 0)%Z;
    [apply keeps_first_open_effects | apply keeps_ret].
Qed.

Lemma keeps_pending_check faults now ndrs acc check :
  (check_targets T) check ->
  keeps I (ProcessBounceChecks.pending_check faults now ndrs acc check).
Proof.
  intro Hc. unfold ProcessBounceChecks.pending_check.
  destruct check as [c eh]. unfold check_targets in Hc. simpl in Hc.
  destruct (email_history_id c); run.
Qed.

Lemma keeps_sweep_email faults now ndrs found email :
  T (id email) ->
  keeps I (ProcessBounceChecks.sweep_email faults now ndrs found email).
Proof. intro Ht. unfold ProcessBounceChecks.sweep_email. run. Qed.

Lemma select_pending_ok now d :
  I d ->
  Forall (fun check => forall e, snd check = Some e ->
                                 status e <> bounced -> (check_targets T) check)
         (ProcessBounceChecks.select_pending now d).
Proof.
  intro Hd. unfold ProcessBounceChecks.select_pending.
  apply Forall_map. apply Forall_forall. intros c _ e He Hs i Hi.
  unfold ProcessBounceChecks.join_check in *. simpl in *.
  rewrite Hi in He. apply find_some in He. destruct He as [Hin Hid].
  apply has_id_spec in Hid. subst i. eapply T_intro; eassumption.
Qed.

Lemma select_recent_ok since d :
  I d ->
  Forall (fun e => T (id e)) (ProcessBounceChecks.select_recent since d).
Proof.
  intro Hd. apply Forall_forall. intros e He.
  unfold ProcessBounceChecks.select_recent in He.
  apply In_firstn, In_sort_desc, filter_In in He. destruct He as [Hin Hf].
  apply andb_true_iff in Hf. destruct Hf as [_ Hf].
  apply not_bounced_spec in Hf. eapply T_intro; eassumption.
Qed.

Lemma keeps_pending_pass faults now graph since :
  keeps I (ProcessBounceChecks.pending_pass faults now graph since).
Proof.
  unfold ProcessBounceChecks.pending_pass.
  eapply triple_bind with
    (Q1 := fun pending d =>
             I d /\
             Forall (fun check => forall e, snd check = Some e ->
                                            status e <> bounced ->
                                            (check_targets T) check)
                    (match pending with Some l => l | None => [] end)).
  { apply triple_query. intros d Hd. repeat split; auto.
    apply select_pending_ok. exact Hd. }
  intro pending. apply triple_pure. intro Hgood.
  pose proof (group_pending_all (check_targets T) _ [] [] Hgood (Forall_nil _)) as Hg.
  destruct (ProcessBounceChecks.group_pending _ _ _) as [processed bySender].
  simpl in Hg. as_keeps.
  apply keeps_bind.
  - apply keeps_fold_m. intros s [sender checks] Hin.
    unfold ProcessBounceChecks.pending_sender.
    assert (Hall : Forall (check_targets T) checks).
    { unfold values_all in Hg. rewrite Forall_forall in Hg.
      apply (Hg _ Hin). }
    destruct checks; [apply keeps_ret |].
    apply keeps_fold_m. intros. apply keeps_pending_check.
    rewrite Forall_forall in Hall. auto.
  - intro acc. run.
Qed.

Lemma keeps_general_sweep faults now graph since senders :
  keeps I (ProcessBounceChecks.general_sweep faults now graph since senders).
Proof.
  unfold ProcessBounceChecks.general_sweep.
  eapply triple_bind with
    (Q1 := fun recent d =>
             I d /\
             Forall (fun e => T (id e))
                    (match recent with Some l => l | None => [] end)).
  { apply triple_query. intros d Hd. repeat split; auto.
    apply select_recent_ok. exact Hd. }
  intro recent. apply triple_pure. intro Hgood. as_keeps.
  destruct recent as [[| e l] |]; try apply keeps_ret.
  pose proof (group_by_sender_all _ _ Hgood) as Hg.
  apply keeps_fold_m. intros found [sender emails] Hin.
  unfold ProcessBounceChecks.sweep_sender.
  destruct (ProcessBounceChecks.mem _ _); [apply keeps_ret |].
  assert (Hall : Forall (fun e => T (id e)) emails).
  { unfold values_all in Hg. rewrite Forall_forall in Hg. apply (Hg _ Hin). }
  apply keeps_fold_m. intros. apply keeps_sweep_email.
  rewrite Forall_forall in Hall. auto.
Qed.

Lemma keeps_bounce_checks faults now env idp graph req :
  keeps I (ProcessBounceChecks.serve faults now env idp graph req).
Proof.
  unfold ProcessBounceChecks.serve, ProcessBounceChecks.serve_body.
  destruct (ProcessBounceChecks.is_options req); [apply keeps_ret |].
  apply keeps_try_catch; [| intro; apply keeps_ret].
  destruct (fst _); [| apply keeps_ret].
  apply keeps_bind; [apply keeps_pending_pass |].
  intros [acc processedSenders].
  apply keeps_bind; [apply keeps_general_sweep |].
  intro g. run.
Qed.

Lemma keeps_bounce_email faults reason t email :
  T (id email) ->
  keeps I (SyncEmailBounces.bounce_email faults reason t email).
Proof. intro Ht. unfold SyncEmailBounces.bounce_email. run. Qed.

Lemma keeps_bounce_emails faults reason t recipient emails acc :
  Forall (fun e => T (id e)) emails ->
  keeps I (SyncEmailBounces.bounce_emails faults reason t recipient emails acc).
Proof.
  intro Hall. revert acc.
  induction Hall as [| e l He Hl IH]; intro acc; simpl.
  - apply keeps_ret.
  - apply keeps_bind.
    + apply keeps_attempt. apply keeps_bounce_email. exact He.
    + intros [u |]; [apply IH | apply keeps_ret].
Qed.

Lemma select_matching_ok ilike sender recipient original since d :
  I d ->
  Forall (fun e => T (id e))
         (SyncEmailBounces.select_matching ilike sender recipient original
                                           since d).
Proof.
  intro Hd. apply Forall_forall. intros e He.
  unfold SyncEmailBounces.select_matching in He.
  apply In_firstn, filter_In in He. destruct He as [Hin Hf].
  repeat (apply andb_true_iff in Hf; destruct Hf as [Hf ?]).
  match goal with H : not_bounced e = true |- _ =>
    apply not_bounced_spec in H; eapply T_intro; eassumption end.
Qed.

Lemma keeps_process_ndr faults now ilike sender hrs acc ndr :
  keeps I (SyncEmailBounces.process_ndr faults now ilike sender hrs acc ndr).
Proof.
  unfold SyncEmailBounces.process_ndr.
  destruct (negb _); [apply keeps_ret |].
  destruct (Ndr.recipientEmail _); [| apply keeps_ret].
  eapply triple_bind with
    (Q1 := fun found d =>
             I d /\
             Forall (fun e => T (id e))
                    (match found with Some (Some l) => l | _ => [] end)).
  { apply triple_attempt. apply triple_query. intros d Hd.
    repeat split; auto. apply select_matching_ok. exact Hd. }
  intro found. apply triple_pure. intro Hgood. as_keeps.
  destruct found as [[[| e l] |] |]; try apply keeps_ret.
  apply keeps_bounce_emails. exact Hgood.
Qed.

Lemma keeps_process_ndrs faults now ilike sender hrs ndrs acc :
  keeps I (SyncEmailBounces.process_ndrs faults now ilike sender hrs ndrs acc).
Proof.
  revert acc. induction ndrs as [| n l IH]; intro acc; simpl.
  - apply keeps_ret.
  - apply keeps_bind; [apply keeps_process_ndr |].
    intros [acc' [|]]; [apply IH | apply keeps_ret].
Qed.

Lemma keeps_sync_bounces faults now env idp getUser search ilike req :
  keeps I (SyncEmailBounces.serve faults now env idp getUser search ilike req).
Proof.
  unfold SyncEmailBounces.serve, SyncEmailBounces.serve_body.
  destruct (SyncEmailBounces.is_options req); [apply keeps_ret |].
  apply keeps_try_catch; [| intro; apply keeps_ret].
  destruct (negb _); [apply keeps_ret |].
  destruct (SyncEmailBounces.authorization req); [| apply keeps_ret].
  destruct (negb _); [apply keeps_ret |].
  apply keeps_bind.
  - destruct (Js.truthy _); [apply keeps_ret |].
    apply keeps_bind; [apply keeps_query | intro; apply keeps_ret].
  - intros [| s0 l]; [apply keeps_ret |].
    destruct (fst _); [| apply keeps_throw].
    apply keeps_bind; [| intro; apply keeps_ret].
    apply keeps_fold_m. intros acc sender _.
    unfold SyncEmailBounces.process_sender.
    destruct (search _ _); [apply keeps_process_ndrs | apply keeps_ret].
Qed.

Lemma keeps_process_reply faults index acc reply :
  Forall (fun entry => T (id (snd entry))) index ->
  keeps I (ProcessEmailReplies.process_reply faults index acc reply).
Proof.
  intro Hidx. unfold ProcessEmailReplies.process_reply.
  destruct (negb _); [apply keeps_ret |].
  destruct (ProcessEmailReplies.in_reply_to reply); [| apply keeps_ret].
  destruct (ProcessEmailReplies.lookup_original index s) as [e |] eqn:E;
    [| apply keeps_ret].
  pose proof (lookup_original_all (fun e => T (id e)) _ _ _ Hidx E) as Ht.
  run.
Qed.

Lemma select_sent_ok since d :
  I d ->
  Forall (fun e => T (id e)) (ProcessEmailReplies.select_sent since d).
Proof.
  intro Hd. apply Forall_forall. intros e He.
  unfold ProcessEmailReplies.select_sent in He.
  apply In_sort_desc, filter_In in He. destruct He as [Hin Hf].
  apply andb_true_iff in Hf. destruct Hf as [_ Hf].
  apply not_bounced_spec in Hf. eapply T_intro; eassumption.
Qed.

Lemma keeps_replies faults now env idp inbox req :
  keeps I (ProcessEmailReplies.serve faults now env idp inbox req).
Proof.
  unfold ProcessEmailReplies.serve, ProcessEmailReplies.serve_body.
  destruct (ProcessEmailReplies.is_options req); [apply keeps_ret |].
  apply keeps_try_catch; [| intro; apply keeps_ret].
  destruct (fst _); [| apply keeps_ret].
  eapply triple_bind with
    (Q1 := fun sent d =>
             I d /\
             Forall (fun e => T (id e))
                    (match sent with Some l => l | None => [] end)).
  { apply triple_query. intros d Hd. repeat split; auto.
    apply select_sent_ok. exact Hd. }
  intro sent. apply triple_pure. intro Hgood. as_keeps.
  destruct sent as [[| e l] |]; try apply keeps_ret.
  pose proof (group_by_sender_all _ _ Hgood) as Hg.
  apply keeps_bind; [| intro; apply keeps_ret].
  apply keeps_fold_m. intros acc [sender emails] Hin.
  unfold ProcessEmailReplies.process_sender.
  assert (Hall : Forall (fun e => T (id e)) emails).
  { unfold values_all in Hg. rewrite Forall_forall in Hg. apply (Hg _ Hin). }
  apply keeps_fold_m. intros. apply keeps_process_reply.
  apply (index_by_message_id_all (fun e => T (id e))). exact Hall.
Qed.

Lemma keeps_check_ndrs faults now ndrs recipient target :
  (forall i, target = Some i -> T i) ->
  keeps I (CheckEmailBounces.check_ndrs faults now ndrs recipient target).
Proof.
  intro Ht. induction ndrs as [| n l IH]; simpl.
  - apply keeps_ret.
  - destruct (_ && _); [| exact IH].
    destruct target; run.
Qed.

Lemma keeps_checkBounceForEmail faults now search sender recipient target
  sentAt :
  (forall i, target = Some i -> T i) ->
  keeps I (CheckEmailBounces.checkBounceForEmail faults now search sender
             recipient target sentAt).
Proof.
  intro Ht. unfold CheckEmailBounces.checkBounceForEmail.
  apply keeps_try_catch; [| intro; apply keeps_ret].
  destruct (search _ _); [| apply keeps_ret].
  apply keeps_check_ndrs. exact Ht.
Qed.

Lemma keeps_check_bounces faults now env idp search req :
  keeps I (CheckEmailBounces.serve faults now env idp search req).
Proof.
  unfold CheckEmailBounces.serve, CheckEmailBounces.serve_body.
  destruct (CheckEmailBounces.is_options req); [apply keeps_ret |].
  apply keeps_try_catch; [| intro; apply keeps_ret].
  destruct (fst _); [| apply keeps_ret].
  apply keeps_bind.
  { unfold CheckEmailBounces.pending_pass.
    eapply triple_bind with
      (Q1 := fun pending d =>
               I d /\
               Forall (fun check => forall e, snd check = Some e ->
                                              status e <> bounced ->
                                              check_targets T check)
                      (match pending with Some l => l | None => [] end)).
    { apply triple_query. intros d Hd. repeat split; auto.
      apply select_pending_ok. exact Hd. }
    intro pending. apply triple_pure. intro Hgood. as_keeps.
    destruct pending as [[| c0 l0] |]; try apply keeps_ret.
    apply keeps_bind.
    - apply keeps_fold_m. intros [processed found] [c eh] Hin.
      unfold CheckEmailBounces.pending_check.
      destruct eh as [e |]; [| apply keeps_ret].
      destruct (status_eqb (status e) bounced) eqn:E; [apply keeps_ret |].
      apply keeps_bind; [| intro; apply keeps_ret].
      apply keeps_checkBounceForEmail.
      rewrite Forall_forall in Hgood.
      apply (Hgood (c, Some e) Hin e eq_refl).
      intro Hs. apply status_eqb_eq in Hs. congruence.
    - intros [processed found]. run. }
  intros [processed found].
  apply keeps_bind.
  { unfold CheckEmailBounces.general_sweep.
    eapply triple_bind with
      (Q1 := fun recent d =>
               I d /\
               Forall (fun e => T (id e))
                      (match recent with Some l => l | None => [] end)).
    { apply triple_query. intros d Hd. repeat split; auto.
      apply select_recent_ok. exact Hd. }
    intro recent. apply triple_pure. intro Hgood. as_keeps.
    destruct recent as [[| e l] |]; try apply keeps_ret.
    apply keeps_fold_m. intros acc sender _.
    apply keeps_fold_m. intros acc' email Hin.
    unfold CheckEmailBounces.sweep_email.
    apply keeps_bind; [| intro; apply keeps_ret].
    apply keeps_checkBounceForEmail.
    intros i Hi. injection Hi as <-.
    apply filter_In in Hin. destruct Hin as [Hin _].
    rewrite Forall_forall in Hgood. auto. }
  intro g. run.
Qed.

Lemma core_step_keeps d d' : core_step d d' -> I d -> I d'.
Proof.
  intros Hstep Hd. destruct Hstep; unfold after.
  - apply keeps_after; [apply keeps_track_open | exact Hd].
  - apply keeps_after; [apply keeps_bounce_checks | exact Hd].
  - apply keeps_after; [apply keeps_sync_bounces | exact Hd].
  - apply keeps_after; [apply keeps_replies | exact Hd].
  - apply keeps_after; [apply keeps_check_bounces | exact Hd].
Qed.

End Closed.

(** *** Row-wise invariants and relations *)

Lemma rows_update (P : EmailHistory -> Prop) i f d :
  (forall r, In r (email_history d) -> P r -> Store.has_id i r = true ->
             P (f r)) ->
  rows P d -> rows P (Store.update_email i f d).
Proof.
  unfold rows, Store.update_email, Store.update_where. simpl.
  intros Hf Hd. apply Forall_map. rewrite Forall_forall in *.
  intros r Hr. destruct (Store.has_id i r) eqn:E; auto.
Qed.

Lemma Forall2_map_right {A} (R : A -> A -> Prop) (g : A -> A) l0 l :
  Forall2 R l0 l ->
  (forall r0 r, In r0 l0 -> In r l -> R r0 r -> R r0 (g r)) ->
  Forall2 R l0 (map g l).
Proof.
  induction 1 as [| r0 r l0 l Hr Hl IH]; intro Hg; simpl; constructor.
  - apply Hg; simpl; auto.
  - apply IH. intros a b Ha Hb. apply Hg; simpl; auto.
Qed.

Lemma rel_update (R : EmailHistory -> EmailHistory -> Prop) i f d0 d :
  (forall r0 r, In r0 (email_history d0) -> In r (email_history d) ->
                R r0 r -> Store.has_id i r = true -> R r0 (f r)) ->
  rows_rel R d0 d -> rows_rel R d0 (Store.update_email i f d).
Proof.
  unfold rows_rel, Store.update_email, Store.update_where. simpl.
  intros Hf Hd. apply Forall2_map_right; [exact Hd |].
  intros r0 r H0 H1 HR. destruct (Store.has_id i r) eqn:E; auto.
Qed.

Lemma Forall2_refl {A} (R : A -> A -> Prop) l :
  (forall x, R x x) -> Forall2 R l l.
Proof. intro H. induction l; constructor; auto. Qed.

Lemma Forall2_In_left {A} (R : A -> A -> Prop) l0 l x :
  Forall2 R l0 l -> In x l0 -> exists y, In y l /\ R x y.
Proof.
  induction 1 as [| a b l0 l Hab Hl IH]; simpl; [tauto |].
  intros [-> | H].
  - exists b. auto.
  - destruct (IH H) as [y [Hy HR]]. exists y. auto.
Qed.

Lemma Forall2_trans {A} (R : A -> A -> Prop) l1 l2 l3 :
  (forall a b c, R a b -> R b c -> R a c) ->
  Forall2 R l1 l2 -> Forall2 R l2 l3 -> Forall2 R l1 l3.
Proof.
  intros Ht H12. revert l3.
  induction H12 as [| a b l1 l2 Hab H12 IH]; intros l3 H23;
    inversion H23; subst; constructor; eauto.
Qed.

Lemma NoDup_map_inj {A B} (f : A -> B) l x y :
  NoDup (map f l) -> In x l -> In y l -> f x = f y -> x = y.
Proof.
  induction l as [| a l IH]; simpl; [tauto |].
  intros Hnd Hx Hy Hxy. inversion Hnd as [| ? ? Hnot Hnd']; subst.
  destruct Hx as [-> | Hx], Hy as [-> | Hy]; auto.
  - exfalso. apply Hnot. rewrite Hxy. apply in_map. exact Hy.
  - exfalso. apply Hnot. rewrite <- Hxy. apply in_map. exact Hx.
Qed.

Lemma sticky_ids l0 l : Forall2 sticky l0 l -> map id l = map id l0.
Proof.
  induction 1 as [| a b l0 l [Hid _] Hl IH]; simpl; congruence.
Qed.

Lemma mark_invalid_fixed r :
  is_valid_open r = Some false -> TrackEmailOpen.mark_invalid r = r.
Proof.
  destruct r; simpl. intros ->. reflexivity.
Qed.

(** *** The counter invariant *)

Lemma counter_open e ip now :
  counter_invariant e -> bounce_type e = None ->
  counter_invariant (TrackEmailOpen.apply_open e ip now e).
Proof.
  intros [Hle _] Hb. split; simpl.
  - destruct (TrackEmailOpen.isUniqueOpen e ip now); simpl; lia.
  - rewrite Hb. intro H. contradiction.
Qed.

Lemma counter_bounced reason t r : counter_invariant (mark_bounced reason t r).
Proof. split; simpl; [lia | auto]. Qed.

Lemma counter_keeps_rows d d' :
  email_history d' = email_history d ->
  rows counter_invariant d -> rows counter_invariant d'.
Proof. unfold rows. intros ->. auto. Qed.

Lemma counter_step d d' :
  core_step d d' -> rows counter_invariant d -> rows counter_invariant d'.
Proof.
  apply core_step_keeps with (T := fun _ => True).
  - apply counter_keeps_rows.
  - intros i d0 H. apply rows_update; [| exact H]. intros r _ Hr _. exact Hr.
  - intros i e ip now d0 H He Hb. apply rows_update; [| exact H].
    intros r Hin Hr Hid.
    rewrite (single_filter_eq _ _ _ He r Hin Hid) in *.
    apply counter_open; assumption.
  - trivial.
  - intros i reason t d0 _ H. apply rows_update; [| exact H].
    intros. apply counter_bounced.
  - intros i e reply d0 _ H. apply rows_update; [| exact H].
    intros r _ Hr _. exact Hr.
Qed.

(** *** Bounce types *)

Lemma hard_only_step d d' : core_step d d' -> rows_rel hard_only d d'.
Proof.
  intro Hstep.
  apply (core_step_keeps (rows_rel hard_only d) (fun _ => True)) with (d := d);
    try exact Hstep.
  - unfold rows_rel. intros d1 d2 ->. auto.
  - intros i d1 H. apply rel_update; [| exact H]. intros r0 r _ _ Hr _. exact Hr.
  - intros i e ip now d1 H _ _. apply rel_update; [| exact H].
    intros r0 r _ _ Hr _. exact Hr.
  - trivial.
  - intros i reason t d1 _ H. apply rel_update; [| exact H].
    intros r0 r _ _ _ _. right. reflexivity.
  - intros i e reply d1 _ H. apply rel_update; [| exact H].
    intros r0 r _ _ Hr _. exact Hr.
  - apply Forall2_refl. intro x. left. reflexivity.
Qed.

Lemma recorded_hard_step d d' : core_step d d' -> rows_rel recorded_hard d d'.
Proof.
  intro Hstep.
  apply (core_step_keeps (rows_rel recorded_hard d) (fun _ => True))
    with (d := d); try exact Hstep.
  - unfold rows_rel. intros d1 d2 ->. auto.
  - intros i d1 H. apply rel_update; [| exact H].
    intros r0 r _ _ Hr _ Hs0 Hs. exact (Hr Hs0 Hs).
  - intros i e ip now d1 H _ _. apply rel_update; [| exact H].
    intros r0 r _ _ _ _ _ Hs. discriminate Hs.
  - trivial.
  - intros i reason t d1 _ H. apply rel_update; [| exact H].
    intros r0 r _ _ _ _ _ _. reflexivity.
  - intros i e reply d1 _ H. apply rel_update; [| exact H].
    intros r0 r _ _ _ _ _ Hs. discriminate Hs.
  - apply Forall2_refl. intros x Hs0 Hs. contradiction.
Qed.

Lemma Forall2_conj {A B} (R S : A -> B -> Prop) l l' :
  Forall2 R l l' -> Forall2 S l l' ->
  Forall2 (fun a b => R a b /\ S a b) l l'.
Proof.
  induction 1 as [| a b l l' Hab Hl IH]; intro H2; inversion H2; subst;
    constructor; auto.
Qed.

Lemma Forall2_impl {A B} (R S : A -> B -> Prop) l l' :
  (forall a b, R a b -> S a b) -> Forall2 R l l' -> Forall2 S l l'.
Proof. intros HRS. induction 1; constructor; auto. Qed.

Lemma hard_transition_trans a b c :
  hard_transition a b -> hard_transition b c -> hard_transition a c.
Proof.
  intros [Hab Rab] [Hbc Rbc]. split.
  - destruct Hbc as [Hbc | Hbc]; [| right; exact Hbc].
    destruct Hab as [Hab | Hab]; [left | right]; congruence.
  - intros Ha Hc.
    destruct (status_eqb (status b) bounced) eqn:E.
    + apply status_eqb_eq in E.
      destruct Hbc as [Hbc | Hbc]; [| exact Hbc].
      rewrite Hbc. exact (Rab Ha E).
    + apply Rbc; [| exact Hc].
      intro Hb. apply status_eqb_eq in Hb. congruence.
Qed.

Lemma hard_transition_run d d' :
  core_run d d' -> rows_rel hard_transition d d'.
Proof.
  induction 1 as [d | d d1 d2 Hstep Hrun IH].
  - apply Forall2_refl. intro x. split; [left; reflexivity |].
    intros Hs0 Hs. contradiction.
  - unfold rows_rel.
    eapply Forall2_trans; [exact hard_transition_trans | | exact IH].
    apply Forall2_conj;
      [apply hard_only_step | apply recorded_hard_step]; exact Hstep.
Qed.

(** *** Bounced rows *)

Lemma shape_step d d' :
  core_step d d' -> rows bounced_shape d -> rows bounced_shape d'.
Proof.
  apply core_step_keeps with (T := fun _ => True).
  - unfold rows. intros d1 d2 ->. auto.
  - intros i d0 H. apply rows_update; [| exact H].
    intros r _ Hr _ Hs. destruct (Hr Hs) as [Hb _]. split; [exact Hb |].
    reflexivity.
  - intros i e ip now d0 H _ _. apply rows_update; [| exact H].
    intros r _ _ _ Hs. discriminate.
  - trivial.
  - intros i reason t d0 _ H. apply rows_update; [| exact H].
    intros r _ _ _ _. split; [discriminate | reflexivity].
  - intros i e reply d0 _ H. apply rows_update; [| exact H].
    intros r _ _ _ Hs. discriminate.
Qed.

Lemma sticky_step d d' :
  core_step d d' -> well_formed d -> rows_rel sticky d d'.
Proof.
  intros Hstep [Hnd Hshape].
  assert (Hnd' : forall d1, rows_rel sticky d d1 ->
                            NoDup (map id (email_history d1))).
  { intros d1 H. rewrite (sticky_ids _ _ H). exact Hnd. }
  assert (Hsame : forall d1 r0, rows_rel sticky d d1 ->
                                In r0 (email_history d) ->
                                status r0 = bounced ->
                                In r0 (email_history d1)).
  { intros d1 r0 H Hin Hs.
    destruct (Forall2_In_left _ _ _ _ H Hin) as [y [Hy [_ Hyr]]].
    rewrite <- (Hyr Hs). exact Hy. }
  apply (core_step_keeps
           (rows_rel sticky d)
           (fun i => forall r0, In r0 (email_history d) -> id r0 = i ->
                                status r0 <> bounced))
    with (d := d); try exact Hstep.
  - unfold rows_rel. intros d1 d2 ->. auto.
  - intros i d1 H. apply rel_update; [| exact H].
    intros r0 r H0 _ [Hid Hfix] _. split; [exact Hid |].
    intro Hs. rewrite (Hfix Hs). apply mark_invalid_fixed.
    unfold rows in Hshape. rewrite Forall_forall in Hshape.
    apply (Hshape r0 H0 Hs).
  - intros i e ip now d1 H He Hb. apply rel_update; [| exact H].
    intros r0 r H0 H1 [Hid Hfix] Hi. split; [exact Hid |].
    intro Hs. exfalso.
    rewrite (single_filter_eq _ _ _ He r H1 Hi) in Hfix.
    rewrite (Hfix Hs) in Hb.
    unfold rows in Hshape. rewrite Forall_forall in Hshape.
    destruct (Hshape r0 H0 Hs) as [Hne _]. contradiction.
  - intros d1 e H He Hs r0 H0 Hid Hb.
    pose proof (Hsame d1 r0 H H0 Hb) as H1.
    rewrite (NoDup_map_inj id _ _ _ (Hnd' d1 H) H1 He Hid) in Hb.
    contradiction.
  - intros i reason t d1 Ht H. apply rel_update; [| exact H].
    intros r0 r H0 _ [Hid Hfix] Hi. split; [exact Hid |].
    intro Hs. exfalso. apply has_id_spec in Hi.
    apply (Ht r0 H0); [congruence | exact Hs].
  - intros i e reply d1 Ht H. apply rel_update; [| exact H].
    intros r0 r H0 _ [Hid Hfix] Hi. split; [exact Hid |].
    intro Hs. exfalso. apply has_id_spec in Hi.
    apply (Ht r0 H0); [congruence | exact Hs].
  - apply Forall2_refl. intro x. split; auto.
Qed.

Lemma well_formed_step d d' :
  core_step d d' -> well_formed d -> well_formed d'.
Proof.
  intros Hstep Hwf. split.
  - pose proof (sticky_step _ _ Hstep Hwf) as H.
    rewrite (sticky_ids _ _ H). apply Hwf.
  - apply (shape_step _ _ Hstep). apply Hwf.
Qed.

Lemma sticky_trans a b c : sticky a b -> sticky b c -> sticky a c.
Proof.
  intros [Hab Hfab] [Hbc Hfbc]. split; [congruence |].
  intro Hs. specialize (Hfab Hs). subst b. auto.
Qed.

Lemma sticky_run d d' :
  core_run d d' -> well_formed d -> rows_rel sticky d d' /\ well_formed d'.
Proof.
  induction 1 as [d | d d1 d2 Hstep Hrun IH]; intro Hwf.
  - split; [| exact Hwf]. apply Forall2_refl. intro x. split; auto.
  - destruct (IH (well_formed_step _ _ Hstep Hwf)) as [Hrel Hwf2].
    split; [| exact Hwf2].
    eapply Forall2_trans; [exact sticky_trans | | exact Hrel].
    apply sticky_step; assumption.
Qed.

Lemma update_where_fixed {A} (p : A -> bool) (f : A -> A) (l : list A) :
  (forall r, In r l -> p r = true -> f r = r) ->
  Store.update_where p f l = l.
Proof.
  unfold Store.update_where. induction l as [| a l IH]; intro H; simpl.
  - reflexivity.
  - rewrite IH by (intros; apply H; simpl; auto).
    destruct (p a) eqn:E; [rewrite H; simpl; auto | reflexivity].
Qed.

Lemma update_email_fixed i f d :
  (forall r, In r (email_history d) -> Store.has_id i r = true -> f r = r) ->
  Store.update_email i f d = d.
Proof.
  intro H. unfold Store.update_email. rewrite update_where_fixed by exact H.
  destruct d; reflexivity.
Qed.

Lemma track_open_bounced_noop faults now req w i e :
  TrackEmailOpen.id_param req = Some i ->
  the_email i (Store.db w) = Some e ->
  bounce_type e <> None ->
  is_valid_open e = Some false ->
  Store.db (snd (TrackEmailOpen.handler faults now req w)) = Store.db w.
Proof.
  intros Hid He Hb Hv.
  apply (keeps_after (fun d => d = Store.db w)); [| reflexivity].
  unfold TrackEmailOpen.handler, TrackEmailOpen.handler_body.
  apply keeps_try_catch; [| intro; apply keeps_ret].
  rewrite Hid.
  destruct (negb (Js.truthy (Some i))); [apply keeps_ret |].
  destruct (TrackEmailOpen.isBotUserAgent _).
  - apply keeps_bind; [| intro; apply keeps_ret].
    apply keeps_write. intros d ->. apply update_email_fixed.
    intros r Hin Hr. rewrite (single_filter_eq _ _ _ He r Hin Hr).
    apply mark_invalid_fixed. exact Hv.
  - eapply triple_bind with
      (Q1 := fun res d =>
               d = Store.db w /\ (res = Some (Some e) \/ res = None)).
    + apply triple_query. intros d ->. repeat split; auto.
      left. f_equal. exact He.
    + intros res. apply triple_pure. intros [-> | ->];
        [| apply triple_ret; auto].
      destruct (bounce_type e); [apply triple_ret; auto | contradiction].
Qed.

(* ================================================================== *)
(** ** The properties of the specification *)
(* ================================================================== *)

(** C1.  Every operation of the core (an open-tracking request, a run of
    the bounce reconciliation with its pending pass and its general
    sweep, a bounce synchronisation, a run of the earlier bounce checker,
    a run of the reply reconciliation) preserves the counter invariant of every [email_history] row:
    [unique_opens <= open_count], and a row whose [bounce_type] is set
    has [open_count = 0], [unique_opens = 0] and [opened_at] null.  The
    inputs and the faults of the store are arbitrary. *)
Theorem counter_invariant_preserved d d' :
  core_step d d' ->
  rows counter_invariant d ->
  rows counter_invariant d'.
Proof. exact (counter_step d d'). Qed.

Lemma counter_invariant_preserved_witness :
  rows counter_invariant Example.db1 /\
  rows counter_invariant Example.db_bounced.
Proof.
  assert (H : rows counter_invariant Example.db1).
  { vm_compute. constructor; [| constructor].
    split; [discriminate | intro H; exfalso; apply H; reflexivity]. }
  split; [exact H |].
  apply (counter_invariant_preserved Example.db1 Example.db_bounced).
  - exact (step_bounce_checks Store.reliable (Example.t0 + 500 * 1000)
             Example.generic_env Example.granting_idp Example.mailbox
             (ProcessBounceChecks.mkServeRequest false) Example.db1).
  - exact H.
Defined.

(** C2.  Bounced is sticky.  In a well-formed store (ids are a key, a
    bounced row has a bounce type and is not a valid open), after any
    number of operations of the core every row that was bounced is
    exactly as it was, and the store is still well formed.  In
    particular a tracking request for a bounced row leaves the whole
    store unchanged; the reply reconciliation, the general sweep and the
    pending pass select no bounced row. *)
Theorem bounced_is_sticky d :
  well_formed d ->
  (forall d', core_run d d' -> rows_rel sticky d d' /\ well_formed d') /\
  (forall faults now req w i e,
      Store.db w = d ->
      TrackEmailOpen.id_param req = Some i ->
      the_email i d = Some e ->
      status e = bounced ->
      Store.db (snd (TrackEmailOpen.handler faults now req w)) = d) /\
  (forall since e,
      In e (ProcessEmailReplies.select_sent since d) -> status e <> bounced) /\
  (forall since e,
      In e (ProcessBounceChecks.select_recent since d) ->
      status e <> bounced) /\
  (forall now,
      values_all
        (fun check => exists e, snd check = Some e /\ status e <> bounced)
        (snd (ProcessBounceChecks.group_pending
                (ProcessBounceChecks.select_pending now d) [] []))).
Proof.
  intro Hwf. repeat split.
  - apply (sticky_run d d' H Hwf).
  - apply (sticky_run d d' H Hwf).
  - apply (sticky_run d d' H Hwf).
  - intros faults now req w i e Hw Hid He Hs. subst d.
    assert (Hin : In e (email_history (Store.db w))).
    { unfold the_email, Store.select_email in He.
      destruct (filter (Store.has_id i) (email_history (Store.db w)))
        as [| x [| y t]] eqn:E; simpl in He; try discriminate.
      injection He as ->.
      assert (Hx : In e (filter (Store.has_id i)
                                (email_history (Store.db w))))
        by (rewrite E; left; reflexivity).
      apply filter_In in Hx. tauto. }
    destruct Hwf as [_ Hshape]. unfold rows in Hshape.
    rewrite Forall_forall in Hshape.
    destruct (Hshape e Hin Hs) as [Hb Hv].
    apply (track_open_bounced_noop faults now req w i e); assumption.
  - intros since e He. unfold ProcessEmailReplies.select_sent in He.
    apply In_sort_desc, filter_In in He. destruct He as [_ Hf].
    apply andb_true_iff in Hf. destruct Hf as [_ Hf].
    apply not_bounced_spec. exact Hf.
  - intros since e He. unfold ProcessBounceChecks.select_recent in He.
    apply In_firstn, In_sort_desc, filter_In in He. destruct He as [_ Hf].
    apply andb_true_iff in Hf. destruct Hf as [_ Hf].
    apply not_bounced_spec. exact Hf.
  - intro now. apply group_pending_all; [| constructor].
    apply Forall_forall. intros check _ e He Hs. exists e. auto.
Qed.

Lemma bounced_is_sticky_witness :
  well_formed Example.db_bounced /\
  rows_rel sticky Example.db_bounced
           (Example.fetch "9.9.9.9" (Example.t0 + 900 * 1000)
                          Example.db_bounced).
Proof.
  assert (H : well_formed Example.db_bounced).
  { vm_compute. split.
    - constructor; [intros [] | constructor].
    - constructor; [| constructor].
      intros _. split; [discriminate | reflexivity]. }
  split; [exact H |].
  apply (proj1 (bounced_is_sticky Example.db_bounced H)).
  apply Relation_Operators.rt1n_trans with
    (y := Example.fetch "9.9.9.9" (Example.t0 + 900 * 1000)
                        Example.db_bounced);
    [| apply rt1n_refl].
  exact (step_track_open Store.reliable (Example.t0 + 900 * 1000)
           (Example.pixel_request Example.browser "9.9.9.9")
           Example.db_bounced).
Defined.

(** C10.  Every automatic bounce transition records the type [hard]: a
    row of [email_history] that is not bounced before an operation of the
    core (tracking, pending pass and general sweep of process-bounce-checks,
    sync-email-bounces, reply processing, the earlier bounce checker) and
    is bounced after it has [bounce_type = hard], whatever the inputs and
    the faults of the store; the same holds from the start to the end of
    any number of such operations.  Moreover every operation of the core
    leaves the bounce type of a row as it is or sets it to [hard], the
    update written by the bounce transitions carries [bounce_type = hard],
    and no operation of the core turns a store without soft bounces into
    one with a soft bounce. *)
Theorem bounces_are_hard :
  (forall reason t r, bounce_type (mark_bounced reason t r) = Some hard) /\
  (forall d d', core_step d d' -> rows_rel hard_only d d') /\
  (forall d d', core_step d d' ->
                rows (fun r => bounce_type r <> Some soft) d ->
                rows (fun r => bounce_type r <> Some soft) d') /\
  (forall d d', core_step d d' -> rows_rel recorded_hard d d') /\
  (forall d d', core_run d d' -> rows_rel recorded_hard d d').
Proof.
  split; [reflexivity |]. split; [exact hard_only_step |].
  split; [| split; [exact recorded_hard_step |]].
  - intros d d' Hstep Hd. pose proof (hard_only_step d d' Hstep) as H.
    unfold rows, rows_rel in *.
    induction H as [| r0 r l0 l Hr Hl IH]; constructor.
    + inversion Hd; subst.
      destruct Hr as [-> | ->]; [assumption | discriminate].
    + inversion Hd; subst. apply IH. assumption.
  - intros d d' Hrun. unfold rows_rel.
    apply Forall2_impl with (R := hard_transition);
      [intros a b [_ H]; exact H |].
    apply hard_transition_run. exact Hrun.
Qed.

Lemma bounces_are_hard_witness :
  rows (fun r => bounce_type r <> Some soft) Example.db1 /\
  rows (fun r => bounce_type r <> Some soft) Example.db_bounced /\
  map status (email_history Example.db1) = [opened] /\
  map status (email_history Example.db_bounced) = [bounced] /\
  rows (fun r => bounce_type r = Some hard) Example.db_bounced.
Proof.
  assert (H : rows (fun r => bounce_type r <> Some soft) Example.db1).
  { vm_compute. constructor; [discriminate | constructor]. }
  assert (Hstep : core_step Example.db1 Example.db_bounced).
  { exact (step_bounce_checks Store.reliable (Example.t0 + 500 * 1000)
             Example.generic_env Example.granting_idp Example.mailbox
             (ProcessBounceChecks.mkServeRequest false) Example.db1). }
  split; [exact H |].
  split.
  { exact (proj1 (proj2 (proj2 bounces_are_hard))
             Example.db1 Example.db_bounced Hstep H). }
  assert (H1 : map status (email_history Example.db1) = [opened])
    by (vm_compute; reflexivity).
  assert (H2 : map status (email_history Example.db_bounced) = [bounced])
    by (vm_compute; reflexivity).
  split; [exact H1 |]. split; [exact H2 |].
  pose proof (proj1 (proj2 (proj2 (proj2 bounces_are_hard)))
                Example.db1 Example.db_bounced Hstep) as Hhard.
  unfold rows, rows_rel in *.
  destruct (email_history Example.db1) as [| a [| ? ?]];
    try discriminate H1.
  destruct (email_history Example.db_bounced) as [| b [| ? ?]];
    try discriminate H2.
  injection H1 as Ha. injection H2 as Hb.
  inversion Hhard as [| ? ? ? ? Hab _]; subst.
  constructor; [| constructor].
  apply Hab; [rewrite Ha; discriminate | exact Hb].
Defined.

Lemma triple_any {A} (P : DB -> Prop) (m : Store.M A) :
  triple P m (fun _ _ => True) (fun _ => True).
Proof. intros w _. destruct (m w) as [[a | e] w']; exact Logic.I. Qed.

(** A handler whose every normal exit returns [r]. *)
Ltac returns_step :=
  match goal with
  | |- triple _ (Store.ret _) _ _ => apply triple_ret; intros; reflexivity
  | |- triple _ (Store.bind _ _) _ _ =>
      eapply triple_bind with (Q1 := fun _ _ => True);
      [apply triple_any | intro]
  | |- triple _ (if ?b then _ else _) _ _ => destruct b
  | |- triple _ (match ?x with _ => _ end) _ _ => destruct x
  end.

Lemma handler_returns_pixel faults now req w :
  fst (TrackEmailOpen.handler faults now req w)
  = Store.Ok TrackEmailOpen.pixel.
Proof.
  assert (H : triple (fun _ => True) (TrackEmailOpen.handler faults now req)
                     (fun r _ => r = TrackEmailOpen.pixel) (fun _ => False)).
  { unfold TrackEmailOpen.handler.
    eapply triple_try_catch with (E1 := fun _ => True).
    - unfold TrackEmailOpen.handler_body. repeat returns_step.
    - intro e. apply triple_ret. reflexivity. }
  specialize (H w Logic.I).
  destruct (TrackEmailOpen.handler faults now req w) as [[r | e] w'];
    simpl in *; [congruence | contradiction].
Qed.

(** C8.  Whatever the request (identifier missing or not, any
    User-Agent, any address headers), whatever the store holds and
    whatever the store does at each call (success, error result, thrown
    exception), the handler of the tracking endpoint returns the same
    response: status 200, the fixed GIF of 43 bytes, and the no-cache
    headers.  It never ends with an exception. *)
Theorem pixel_always_served faults now req w :
  fst (TrackEmailOpen.handler faults now req w)
  = Store.Ok TrackEmailOpen.pixel /\
  http_status TrackEmailOpen.pixel = 200%Z /\
  body TrackEmailOpen.pixel = Bytes TrackEmailOpen.TRACKING_PIXEL /\
  List.length TrackEmailOpen.TRACKING_PIXEL = 43%nat /\
  firstn 6 TrackEmailOpen.TRACKING_PIXEL
  = [0x47; 0x49; 0x46; 0x38; 0x39; 0x61]%Z /\
  headers TrackEmailOpen.pixel
  = [("Content-Type", "image/gif");
     ("Cache-Control",
      "no-store, no-cache, must-revalidate, proxy-revalidate");
     ("Pragma", "no-cache"); ("Expires", "0")].
Proof.
  split; [apply handler_returns_pixel | repeat split].
Qed.

(** *** The token provider *)

Lemma failed_exchange_is_not_configuration text :
  ~ Spec.configuration_error
      (Store.Exn ("Failed to get access token: " ++ text)).
Proof.
  intros (msg & Hmsg & _ & Hno). injection Hmsg as <-.
  vm_compute in Hno. discriminate.
Qed.

Lemma truthy_some v : Js.truthy v = true -> exists s, v = Some s.
Proof. destruct v as [s |]; simpl; [eauto | discriminate]. Qed.

Lemma shared_token_provider env idp :
  (Spec.configuration_error
     (fst (ProcessBounceChecks.getAccessToken env idp))
   <-> Spec.some_absent env) /\
  (Spec.some_absent env ->
   snd (ProcessBounceChecks.getAccessToken env idp) = []) /\
  (forall t c s,
      Spec.tenant env = Some t -> Spec.client env = Some c ->
      Spec.secret env = Some s -> ~ Spec.some_absent env ->
      snd (ProcessBounceChecks.getAccessToken env idp)
      = [token_request t c s]).
Proof.
  unfold ProcessBounceChecks.getAccessToken, Spec.some_absent, Spec.tenant,
    Spec.client, Spec.secret, Spec.credential.
  set (tenantId := Js.or_else _ _).
  set (clientId := Js.or_else _ _).
  set (clientSecret := Js.or_else _ _).
  destruct (Js.truthy tenantId) eqn:Et;
    [| simpl; repeat split; auto; try tauto;
       intros _; exists "Azure credentials not configured";
       repeat split; reflexivity].
  destruct (Js.truthy clientId) eqn:Ec;
    [| simpl; repeat split; auto; try tauto;
       intros _; exists "Azure credentials not configured";
       repeat split; reflexivity].
  destruct (Js.truthy clientSecret) eqn:Es;
    [| simpl; repeat split; auto; try tauto;
       intros _; exists "Azure credentials not configured";
       repeat split; reflexivity].
  destruct (truthy_some _ Et) as [t Ht].
  destruct (truthy_some _ Ec) as [c Hc].
  destruct (truthy_some _ Es) as [s Hs].
  rewrite Ht, Hc, Hs. simpl.
  destruct (response_ok (idp (token_request t c s))); simpl; repeat split.
  - intros (msg & Hmsg & _). discriminate.
  - intros [H | [H | H]]; discriminate.
  - intros [H | [H | H]]; discriminate.
  - intros t' c' s' E1 E2 E3 _. congruence.
  - intro H. exfalso.
    exact (failed_exchange_is_not_configuration _ H).
  - intros [H | [H | H]]; discriminate.
  - intros [H | [H | H]]; discriminate.
  - intros t' c' s' E1 E2 E3 _. congruence.
Qed.

Lemma send_token_provider env idp :
  (Spec.configuration_error (fst (SendEmail.getAccessToken env idp))
   <-> Spec.some_specific_absent env) /\
  (Spec.some_specific_absent env ->
   snd (SendEmail.getAccessToken env idp) = []) /\
  (forall t c s,
      env "AZURE_EMAIL_TENANT_ID" = Some t ->
      env "AZURE_EMAIL_CLIENT_ID" = Some c ->
      env "AZURE_EMAIL_CLIENT_SECRET" = Some s ->
      ~ Spec.some_specific_absent env ->
      snd (SendEmail.getAccessToken env idp) = [token_request t c s]).
Proof.
  unfold SendEmail.getAccessToken, Spec.some_specific_absent.
  set (msg0 := "Azure email credentials not configured. Please set AZURE_EMAIL_TENANT_ID, AZURE_EMAIL_CLIENT_ID, and AZURE_EMAIL_CLIENT_SECRET.").
  set (tenantId := env "AZURE_EMAIL_TENANT_ID").
  set (clientId := env "AZURE_EMAIL_CLIENT_ID").
  set (clientSecret := env "AZURE_EMAIL_CLIENT_SECRET").
  destruct (Js.truthy tenantId) eqn:Et;
    [| simpl; repeat split; auto; try tauto;
       intros _; exists msg0; repeat split; reflexivity].
  destruct (Js.truthy clientId) eqn:Ec;
    [| simpl; repeat split; auto; try tauto;
       intros _; exists msg0; repeat split; reflexivity].
  destruct (Js.truthy clientSecret) eqn:Es;
    [| simpl; repeat split; auto; try tauto;
       intros _; exists msg0; repeat split; reflexivity].
  destruct (truthy_some _ Et) as [t Ht].
  destruct (truthy_some _ Ec) as [c Hc].
  destruct (truthy_some _ Es) as [s Hs].
  rewrite Ht, Hc, Hs. simpl.
  destruct (response_ok (idp (token_request t c s))); simpl; repeat split.
  - intros (msg & Hmsg & _). discriminate.
  - intros [H | [H | H]]; discriminate.
  - intros [H | [H | H]]; discriminate.
  - intros t' c' s' E1 E2 E3 _. congruence.
  - intro H. exfalso.
    exact (failed_exchange_is_not_configuration _ H).
  - intros [H | [H | H]]; discriminate.
  - intros [H | [H | H]]; discriminate.
  - intros t' c' s' E1 E2 E3 _. congruence.
Qed.

(** C9, as stated, fails on the token provider of the send path: with
    only the generic variables set, every credential is present once the
    fallbacks are applied, yet the provider fails with its configuration
    error. *)
Lemma send_path_has_no_fallback :
  ~ (forall env idp,
        Spec.configuration_error (fst (SendEmail.getAccessToken env idp))
        <-> Spec.some_absent env).
Proof.
  intro H.
  destruct (H Example.generic_env Example.granting_idp) as [H1 _].
  assert (Hc : Spec.configuration_error
                 (fst (SendEmail.getAccessToken Example.generic_env
                                                Example.granting_idp))).
  { eexists. split; [reflexivity |]. split; reflexivity. }
  destruct (H1 Hc) as [E | [E | E]]; vm_compute in E; discriminate.
Qed.

(** C9, amended.  The token provider shared by the reconciliation
    services (process-bounce-checks, sync-email-bounces,
    process-email-replies) resolves each credential from its
    mail-specific variable, falling back to the generic one when the
    mail-specific one is unset or empty; it fails with the configuration
    error if and only if a resolved credential is absent, and then sends
    nothing; otherwise it sends exactly one client-credentials request,
    built from the resolved credentials.  The token provider of the send
    path reads the mail-specific variables only: it fails with the
    configuration error if and only if one of them is absent, and
    otherwise sends exactly one request built from them. *)
Theorem token_provider_configuration env idp :
  (forall specific generic,
      (Js.truthy (env specific) = true ->
       Spec.credential env specific generic = env specific) /\
      (Js.truthy (env specific) = false ->
       Spec.credential env specific generic = env generic)) /\
  ((Spec.configuration_error
      (fst (ProcessBounceChecks.getAccessToken env idp))
    <-> Spec.some_absent env) /\
   (Spec.some_absent env ->
    snd (ProcessBounceChecks.getAccessToken env idp) = []) /\
   (forall t c s,
       Spec.tenant env = Some t -> Spec.client env = Some c ->
       Spec.secret env = Some s -> ~ Spec.some_absent env ->
       snd (ProcessBounceChecks.getAccessToken env idp)
       = [token_request t c s])) /\
  SyncEmailBounces.getAccessToken = ProcessBounceChecks.getAccessToken /\
  ProcessEmailReplies.getAccessToken = ProcessBounceChecks.getAccessToken /\
  ((Spec.configuration_error (fst (SendEmail.getAccessToken env idp))
    <-> Spec.some_specific_absent env) /\
   (Spec.some_specific_absent env ->
    snd (SendEmail.getAccessToken env idp) = []) /\
   (forall t c s,
       env "AZURE_EMAIL_TENANT_ID" = Some t ->
       env "AZURE_EMAIL_CLIENT_ID" = Some c ->
       env "AZURE_EMAIL_CLIENT_SECRET" = Some s ->
       ~ Spec.some_specific_absent env ->
       snd (SendEmail.getAccessToken env idp) = [token_request t c s])).
Proof.
  split.
  { intros specific generic. unfold Spec.credential, Js.or_else.
    split; intros ->; reflexivity. }
  split; [exact (shared_token_provider env idp) |].
  split; [reflexivity |]. split; [reflexivity |].
  exact (send_token_provider env idp).
Qed.

Lemma token_provider_configuration_witness :
  ~ Spec.some_absent Example.generic_env /\
  snd (ProcessBounceChecks.getAccessToken Example.generic_env
                                          Example.granting_idp)
  = [token_request "tenant" "client" "secret"].
Proof.
  assert (H : ~ Spec.some_absent Example.generic_env).
  { intros [E | [E | E]]; vm_compute in E; discriminate. }
  split; [exact H |].
  apply (proj2 (proj2 (proj1 (proj2
           (token_provider_configuration Example.generic_env
                                         Example.granting_idp)))));
    [reflexivity | reflexivity | reflexivity | exact H].
Defined.

(** *** The NDR parser *)

Lemma first_match_priority before p rest text m :
  Forall (fun q => Regex.exec q text = None) before ->
  Regex.exec p text = Some m ->
  Ndr.first_match (before ++ p :: rest) text = Some m.
Proof.
  induction 1 as [| q l Hq Hl IH]; intro Hp; simpl.
  - rewrite Hp. reflexivity.
  - rewrite Hq. apply IH. exact Hp.
Qed.

Lemma first_match_none patterns text :
  Forall (fun q => Regex.exec q text = None) patterns ->
  Ndr.first_match patterns text = None.
Proof.
  induction 1 as [| q l Hq Hl IH]; simpl; [reflexivity |].
  rewrite Hq. exact IH.
Qed.

Lemma first_match_found patterns text m :
  Ndr.first_match patterns text = Some m ->
  exists before p rest,
    patterns = (before ++ p :: rest)%list /\
    Forall (fun q => Regex.exec q text = None) before /\
    Regex.exec p text = Some m.
Proof.
  induction patterns as [| q l IH]; simpl; [discriminate |].
  destruct (Regex.exec q text) as [m' |] eqn:E.
  - intro H. injection H as ->. exists [], q, l. auto.
  - intro H. destruct (IH H) as (before & p & rest & -> & Hb & Hp).
    exists (q :: before), p, rest. repeat split; auto.
Qed.

(** The parser of process-bounce-checks returns the lower-cased address
    captured by the first pattern of its list that matches the body
    (with tags removed and white space collapsed), and nothing when no
    pattern matches. *)
Lemma bounce_checks_parser_priority subject body before p rest m :
  ProcessBounceChecks.emailPatterns = (before ++ p :: rest)%list ->
  Forall (fun q => Regex.exec q (ProcessBounceChecks.plain_body body) = None)
         before ->
  Regex.exec p (ProcessBounceChecks.plain_body body) = Some m ->
  Ndr.recipientEmail (ProcessBounceChecks.parseNDRContent subject body)
  = Some (Js.toLowerCase (Regex.group 1 m)).
Proof.
  intros Hl Hb Hp. unfold ProcessBounceChecks.parseNDRContent.
  cbv beta iota zeta delta [Ndr.recipientEmail].
  rewrite Hl. rewrite (first_match_priority _ _ _ _ _ Hb Hp). reflexivity.
Qed.

(** C3.  The two copies of the NDR parser disagree on the priority
    order.  On a body with the phrase of the mail provider and an
    address in angle brackets elsewhere, the copy of
    process-bounce-checks returns the address of the phrase, the copy of
    sync-email-bounces returns the address in angle brackets; on the
    bounce of the specification's scenario the copy of
    sync-email-bounces finds no recipient at all; and the copy of
    sync-email-bounces puts a generic [To:] header before its own
    provider phrase, where the copy of process-bounce-checks puts the
    provider phrase first. *)
Theorem ndr_parser_copies_disagree :
  Ndr.recipientEmail
    (ProcessBounceChecks.parseNDRContent "Undeliverable: Hi"
       "Your message to a@b.com couldn't be delivered. Contact <admin@corp.com>")
  = Some "a@b.com" /\
  Ndr.recipientEmail
    (SyncEmailBounces.parseNDRContent "Undeliverable: Hi"
       "Your message to a@b.com couldn't be delivered. Contact <admin@corp.com>")
  = Some "admin@corp.com" /\
  Ndr.recipientEmail
    (ProcessBounceChecks.parseNDRContent "Undeliverable: Hi"
       "Write to admin@corp.com for help. Your message to A@B.com couldn't be delivered.")
  = Some "a@b.com" /\
  Ndr.recipientEmail
    (ProcessBounceChecks.parseNDRContent "Undeliverable: Hello"
       "Your message to jane@acme.com couldn't be delivered. jane wasn't found at acme.com")
  = Some "jane@acme.com" /\
  Ndr.recipientEmail
    (SyncEmailBounces.parseNDRContent "Undeliverable: Hello"
       "Your message to jane@acme.com couldn't be delivered. jane wasn't found at acme.com")
  = None /\
  Ndr.recipientEmail
    (ProcessBounceChecks.parseNDRContent "Undeliverable: Hi"
       "Reply-To: help@corp.com. We couldn't deliver to a@b.com today.")
  = Some "a@b.com" /\
  Ndr.recipientEmail
    (SyncEmailBounces.parseNDRContent "Undeliverable: Hi"
       "Reply-To: help@corp.com. It couldn't be delivered to a@b.com today.")
  = Some "help@corp.com".
Proof. vm_compute. repeat split. Qed.

(** *** The tracking endpoint *)

Section Working.

Import Store.
Variable faults : nat -> Fault.
Hypothesis working : forall n, faults n = NoFault.

Lemma triple_query_working {A} (q : DB -> A) (P : DB -> Prop) Q E :
  (forall d, P d -> Q (Some (q d)) d) ->
  triple P (query faults q) Q E.
Proof.
  intros H w Hw. unfold query. rewrite working. simpl. auto.
Qed.

Lemma triple_write_working (u : DB -> DB) (P : DB -> Prop) Q E :
  (forall d, P d -> Q true (u d)) ->
  triple P (write faults u) Q E.
Proof.
  intros H w Hw. unfold write. rewrite working. simpl. auto.
Qed.

End Working.

Lemma single_map {A} (f : A -> A) (l : list A) :
  Store.single (map f l) = option_map f (Store.single l).
Proof. destruct l as [| x [| y t]]; reflexivity. Qed.

Lemma filter_update_same i f l :
  (forall r, id (f r) = id r) ->
  filter (Store.has_id i) (Store.update_where (Store.has_id i) f l)
  = map f (filter (Store.has_id i) l).
Proof.
  intro Hf. unfold Store.update_where.
  induction l as [| r l IH]; simpl; [reflexivity |].
  destruct (Store.has_id i r) eqn:E.
  - assert (E' : Store.has_id i (f r) = true).
    { unfold Store.has_id in *. rewrite Hf. exact E. }
    rewrite E'. simpl. rewrite IH. reflexivity.
  - rewrite E. exact IH.
Qed.

Lemma the_email_update i f d :
  (forall r, id (f r) = id r) ->
  the_email i (Store.update_email i f d) = option_map f (the_email i d).
Proof.
  intro Hf. unfold the_email, Store.select_email, Store.update_email. simpl.
  rewrite filter_update_same by exact Hf. apply single_map.
Qed.

Lemma map_update_where {A B} (g : A -> B) p f (l : list A) :
  (forall r, g (f r) = g r) ->
  map g (Store.update_where p f l) = map g l.
Proof.
  intro H. unfold Store.update_where. rewrite map_map.
  apply map_ext. intro r. destruct (p r); auto.
Qed.

Lemma bot_signature ua sig :
  In sig TrackEmailOpen.BOT_USER_AGENTS ->
  Js.includes (Js.toLowerCase ua) sig = true ->
  TrackEmailOpen.isBotUserAgent (Some ua) = true.
Proof.
  intros Hin Hinc. unfold TrackEmailOpen.isBotUserAgent.
  destruct (String.eqb ua ""); [reflexivity |].
  apply existsb_exists. exists sig. auto.
Qed.

Lemma truthy_id i : i <> "" -> Js.truthy (Some i) = true.
Proof.
  intro H. simpl. destruct (String.eqb i "") eqn:E; [| reflexivity].
  apply String.eqb_eq in E. contradiction.
Qed.

(** The counters of all rows, as a store invariant. *)
Lemma suppressed_keeps_counters faults now req w i :
  TrackEmailOpen.id_param req = Some i ->
  (TrackEmailOpen.isBotUserAgent (TrackEmailOpen.user_agent req) = true
   \/ (forall e, the_email i (Store.db w) = Some e ->
                 (now - num (sent_at e)
                  < TrackEmailOpen.MIN_OPEN_DELAY_SECONDS * 1000)%Z)) ->
  let d' := Store.db (snd (TrackEmailOpen.handler faults now req w)) in
  map open_count (email_history d')
  = map open_count (email_history (Store.db w)) /\
  map unique_opens (email_history d')
  = map unique_opens (email_history (Store.db w)).
Proof.
  intros Hid Hsup.
  set (I0 := fun d : DB =>
               map open_count (email_history d)
               = map open_count (email_history (Store.db w)) /\
               map unique_opens (email_history d)
               = map unique_opens (email_history (Store.db w))).
  assert (Hinv : forall d, I0 d ->
                   I0 (Store.update_email i TrackEmailOpen.mark_invalid d)).
  { intros d [H1 H2]. unfold I0, Store.update_email. simpl.
    rewrite !map_update_where by reflexivity. auto. }
  assert (H : triple (fun d => d = Store.db w)
                     (TrackEmailOpen.handler faults now req)
                     (fun _ => I0) I0).
  { unfold TrackEmailOpen.handler, TrackEmailOpen.handler_body.
    eapply triple_try_catch with (E1 := I0);
      [| intro; apply triple_ret; auto].
    rewrite Hid.
    destruct (negb (Js.truthy (Some i)));
      [apply triple_ret; intros d ->; split; reflexivity |].
    destruct (TrackEmailOpen.isBotUserAgent _) eqn:Ebot.
    - eapply triple_bind with (Q1 := fun _ => I0);
        [| intro; apply triple_ret; auto].
      apply triple_write. intros d ->.
      assert (I0 (Store.db w)) by (split; reflexivity). auto.
    - destruct Hsup as [Hbot | Hsoon]; [discriminate |].
      eapply triple_bind with
        (Q1 := fun res d =>
                 d = Store.db w /\
                 (res = Some (the_email i (Store.db w)) \/ res = None)).
      + apply triple_query. intros d ->. repeat split; auto.
      + intro res. apply triple_pure.
        assert (H0 : I0 (Store.db w)) by (split; reflexivity).
        intros [-> | ->]; [| apply triple_ret; intros d ->; exact H0].
        destruct (the_email i (Store.db w)) as [e |] eqn:He;
          [| apply triple_ret; intros d ->; exact H0].
        destruct (bounce_type e);
          [apply triple_ret; intros d ->; exact H0 |].
        assert (Hs : seconds_below (now - num (sent_at e))
                       TrackEmailOpen.MIN_OPEN_DELAY_SECONDS = true).
        { unfold seconds_below. apply Z.ltb_lt. apply Hsoon. reflexivity. }
        rewrite Hs.
        eapply triple_bind with (Q1 := fun _ => I0);
          [| intro; apply triple_ret; auto].
        apply triple_write. intros d ->. auto. }
  specialize (H w eq_refl).
  destruct (TrackEmailOpen.handler faults now req w) as [[r | e] w'];
    exact H.
Qed.

(** With a working store, the referenced row is marked. *)
Lemma suppressed_marks_invalid faults now req w i e :
  (forall n, faults n = Store.NoFault) ->
  TrackEmailOpen.id_param req = Some i ->
  i <> "" ->
  (TrackEmailOpen.isBotUserAgent (TrackEmailOpen.user_agent req) = true
   \/ (forall e, the_email i (Store.db w) = Some e ->
                 (now - num (sent_at e)
                  < TrackEmailOpen.MIN_OPEN_DELAY_SECONDS * 1000)%Z)) ->
  the_email i (Store.db w) = Some e ->
  (bounce_type e <> None -> is_valid_open e = Some false) ->
  exists e',
    the_email i (Store.db (snd (TrackEmailOpen.handler faults now req w)))
    = Some e' /\
    is_valid_open e' = Some false /\
    open_count e' = open_count e /\ unique_opens e' = unique_opens e.
Proof.
  intros Hw Hid Hne Hsup He Hshape.
  set (Q := fun d : DB =>
              exists e', the_email i d = Some e' /\
                         is_valid_open e' = Some false /\
                         open_count e' = open_count e /\
                         unique_opens e' = unique_opens e).
  assert (Hmark : Q (Store.update_email i TrackEmailOpen.mark_invalid
                                        (Store.db w))).
  { exists (TrackEmailOpen.mark_invalid e).
    rewrite the_email_update by reflexivity. rewrite He. auto. }
  assert (H : triple (fun d => d = Store.db w)
                     (TrackEmailOpen.handler faults now req)
                     (fun _ => Q) Q).
  { unfold TrackEmailOpen.handler, TrackEmailOpen.handler_body.
    eapply triple_try_catch with (E1 := Q);
      [| intro; apply triple_ret; auto].
    rewrite Hid. rewrite (truthy_id i Hne). simpl negb. cbv iota.
    destruct (TrackEmailOpen.isBotUserAgent _) eqn:Ebot.
    - eapply triple_bind with (Q1 := fun _ => Q);
        [| intro; apply triple_ret; auto].
      apply triple_write_working; [exact Hw |]. intros d ->. exact Hmark.
    - destruct Hsup as [Hbot | Hsoon]; [discriminate |].
      eapply triple_bind with
        (Q1 := fun res d => d = Store.db w /\ res = Some (Some e)).
      + apply triple_query_working; [exact Hw |]. intros d ->.
        split; [reflexivity |]. f_equal. exact He.
      + intro res. apply triple_pure. intros ->.
        destruct (bounce_type e) eqn:Hb.
        * apply triple_ret. intros d ->. exists e.
          repeat split; auto. apply Hshape. discriminate.
        * assert (Hs : seconds_below (now - num (sent_at e))
                         TrackEmailOpen.MIN_OPEN_DELAY_SECONDS = true).
          { unfold seconds_below. apply Z.ltb_lt. apply Hsoon. exact He. }
          rewrite Hs.
          eapply triple_bind with (Q1 := fun _ => Q);
            [| intro; apply triple_ret; auto].
          apply triple_write_working; [exact Hw |]. intros d ->. exact Hmark. }
  specialize (H w eq_refl).
  destruct (TrackEmailOpen.handler faults now req w) as [[r | x] w'];
    exact H.
Qed.

(** C5.  A request for the pixel of row [i] whose User-Agent is missing,
    or contains (case-insensitively) a signature of the fixed list, or
    that arrives less than 5 seconds after the send time of the row, is
    answered with the pixel and changes [open_count] and [unique_opens]
    of no row, whatever the store does; when the store works and the
    referenced row exists (a bounced row being not a valid open
    already), that row has [is_valid_open = false] afterwards and its
    counters are as before. *)
Theorem suppressed_opens_do_not_count faults now req w i :
  TrackEmailOpen.id_param req = Some i ->
  (TrackEmailOpen.user_agent req = None
   \/ (exists ua sig,
          TrackEmailOpen.user_agent req = Some ua /\
          In sig TrackEmailOpen.BOT_USER_AGENTS /\
          Js.includes (Js.toLowerCase ua) sig = true)
   \/ (forall e, the_email i (Store.db w) = Some e ->
                 (now - num (sent_at e) < 5 * 1000)%Z)) ->
  let result := TrackEmailOpen.handler faults now req w in
  fst result = Store.Ok TrackEmailOpen.pixel /\
  map open_count (email_history (Store.db (snd result)))
  = map open_count (email_history (Store.db w)) /\
  map unique_opens (email_history (Store.db (snd result)))
  = map unique_opens (email_history (Store.db w)) /\
  (forall e,
      (forall n, faults n = Store.NoFault) ->
      i <> "" ->
      the_email i (Store.db w) = Some e ->
      (bounce_type e <> None -> is_valid_open e = Some false) ->
      exists e',
        the_email i (Store.db (snd result)) = Some e' /\
        is_valid_open e' = Some false /\
        open_count e' = open_count e /\ unique_opens e' = unique_opens e).
Proof.
  intros Hid Hsup result.
  assert (Hsup' :
            TrackEmailOpen.isBotUserAgent (TrackEmailOpen.user_agent req) = true
            \/ (forall e, the_email i (Store.db w) = Some e ->
                          (now - num (sent_at e)
                           < TrackEmailOpen.MIN_OPEN_DELAY_SECONDS * 1000)%Z)).
  { destruct Hsup as [Hnone | [(ua & sig & Hua & Hin & Hinc) | Hsoon]].
    - left. rewrite Hnone. reflexivity.
    - left. rewrite Hua. eapply bot_signature; eassumption.
    - right. exact Hsoon. }
  split; [apply handler_returns_pixel |].
  destruct (suppressed_keeps_counters faults now req w i Hid Hsup')
    as [H1 H2].
  split; [exact H1 |]. split; [exact H2 |].
  intros e Hw Hne He Hshape.
  apply (suppressed_marks_invalid faults now req w i e); assumption.
Qed.

Lemma suppressed_opens_do_not_count_witness :
  map open_count
      (email_history
         (after (TrackEmailOpen.handler Store.reliable
                   (Example.t0 + 10 * 1000) Example.crawler_request)
                Example.db0))
  = [Some 0%Z] /\
  exists e',
    the_email "E1"
      (after (TrackEmailOpen.handler Store.reliable
                (Example.t0 + 10 * 1000) Example.crawler_request)
             Example.db0)
    = Some e' /\
    is_valid_open e' = Some false.
Proof.
  assert (Hbot : TrackEmailOpen.user_agent Example.crawler_request = None
                 \/ (exists ua sig,
                        TrackEmailOpen.user_agent Example.crawler_request
                        = Some ua /\
                        In sig TrackEmailOpen.BOT_USER_AGENTS /\
                        Js.includes (Js.toLowerCase ua) sig = true)
                 \/ (forall e,
                        the_email "E1" (Store.db (Store.start Example.db0))
                        = Some e ->
                        (Example.t0 + 10 * 1000 - num (sent_at e)
                         < 5 * 1000)%Z)).
  { right. left. exists "Googlebot/2.1", "googlebot".
    split; [reflexivity |]. split; [| reflexivity].
    unfold TrackEmailOpen.BOT_USER_AGENTS. simpl. tauto. }
  destruct (suppressed_opens_do_not_count Store.reliable
              (Example.t0 + 10 * 1000) Example.crawler_request
              (Store.start Example.db0) "E1" eq_refl Hbot)
    as (_ & Hcount & _ & Hmark).
  split; [exact Hcount |].
  destruct (Hmark Example.E1) as (e' & He' & Hv & _).
  - intro n. reflexivity.
  - discriminate.
  - reflexivity.
  - intro H. exfalso. apply H. reflexivity.
  - exists e'. split; assumption.
Defined.

Lemma unique_open_rule e ip now :
  TrackEmailOpen.isUniqueOpen e ip now = true <->
  (num (open_count e) = 0%Z
   \/ first_open_ip e <> Some ip
   \/ exists t, opened_at e = Some t /\ (300 * 1000 < now - t)%Z).
Proof.
  unfold TrackEmailOpen.isUniqueOpen, seconds_above,
    TrackEmailOpen.DEDUP_WINDOW_SECONDS.
  destruct (num (open_count e) =? 0)%Z eqn:E0.
  { apply Z.eqb_eq in E0. tauto. }
  apply Z.eqb_neq in E0.
  destruct (first_open_ip e) as [f |].
  - destruct (String.eqb f ip) eqn:Ef; simpl.
    + apply String.eqb_eq in Ef. subst f.
      destruct (opened_at e) as [t |].
      * rewrite Z.ltb_lt. split.
        -- intro H. right. right. exists t. auto.
        -- intros [H | [H | (t' & Ht & H)]];
             [contradiction | exfalso; apply H; reflexivity |].
           injection Ht as ->. exact H.
      * split; [discriminate |].
        intros [H | [H | (t' & Ht & H)]];
          [contradiction | exfalso; apply H; reflexivity | discriminate].
    + apply String.eqb_neq in Ef. split; [| reflexivity].
      intros _. right. left. congruence.
  - simpl. split; [| reflexivity]. intros _. right. left. discriminate.
Qed.

Lemma qualifying_open_row faults now req w i e :
  (forall n, faults n = Store.NoFault) ->
  TrackEmailOpen.id_param req = Some i ->
  i <> "" ->
  TrackEmailOpen.isBotUserAgent (TrackEmailOpen.user_agent req) = false ->
  the_email i (Store.db w) = Some e ->
  bounce_type e = None ->
  (5 * 1000 <= now - num (sent_at e))%Z ->
  the_email i (Store.db (snd (TrackEmailOpen.handler faults now req w)))
  = Some (TrackEmailOpen.apply_open e (TrackEmailOpen.getClientIP req) now e).
Proof.
  intros Hw Hid Hne Hbot He Hb Hlate.
  set (ip := TrackEmailOpen.getClientIP req).
  set (Q := fun d : DB =>
              email_history d
              = email_history
                  (Store.update_email i (TrackEmailOpen.apply_open e ip now)
                                      (Store.db w))).
  assert (HQ : forall d d', email_history d' = email_history d -> Q d -> Q d').
  { unfold Q. intros d d' ->. auto. }
  assert (H : triple (fun d => d = Store.db w)
                     (TrackEmailOpen.handler faults now req)
                     (fun _ => Q) Q).
  { unfold TrackEmailOpen.handler, TrackEmailOpen.handler_body.
    rewrite Hid. rewrite (truthy_id i Hne). simpl negb. cbv iota.
    rewrite Hbot. fold ip.
    eapply triple_try_catch with (E1 := Q);
      [| intro; apply triple_ret; auto].
    eapply triple_bind with
      (Q1 := fun res d => d = Store.db w /\ res = Some (Some e)).
    - apply triple_query_working; [exact Hw |]. intros d ->.
      split; [reflexivity |]. f_equal. exact He.
    - intro res. apply triple_pure. intros ->. rewrite Hb.
      assert (Hs : seconds_below (now - num (sent_at e))
                     TrackEmailOpen.MIN_OPEN_DELAY_SECONDS = false).
      { unfold seconds_below. apply Z.ltb_ge. exact Hlate. }
      rewrite Hs.
      eapply triple_bind with (Q1 := fun _ => Q).
      + apply triple_write_working; [exact Hw |]. intros d ->. reflexivity.
      + intros _. as_keeps. apply keeps_bind; [| intro; apply keeps_ret].
        destruct (num (open_count e) =? 0)%Z; [| apply keeps_ret].
        apply keeps_first_open_effects. exact HQ. }
  specialize (H w eq_refl).
  assert (Hfinal : Q (Store.db (snd (TrackEmailOpen.handler faults now req w)))).
  { destruct (TrackEmailOpen.handler faults now req w) as [[r | x] w'];
      exact H. }
  unfold Q in Hfinal. unfold the_email, Store.select_email in *.
  rewrite Hfinal.
  change (the_email i (Store.update_email i
                         (TrackEmailOpen.apply_open e ip now) (Store.db w))
          = Some (TrackEmailOpen.apply_open e ip now e)).
  rewrite the_email_update by reflexivity.
  unfold the_email, Store.select_email. rewrite He. reflexivity.
Qed.

(** The rule as worded fails on the third of three fetches from one
    address at 10 s, 200 s and 400 s after the send. *)
Lemma worded_rule_fails :
  ~ Spec.worded_rule "E1" Example.db2' Example.db3'
      [Spec.mkOpen "1.1.1.1" (Example.t0 + 10 * 1000);
       Spec.mkOpen "1.1.1.1" (Example.t0 + 200 * 1000)]
      "1.1.1.1" (Example.t0 + 400 * 1000).
Proof.
  intro H.
  destruct (the_email "E1" Example.db2') as [e |] eqn:E2;
    [| vm_compute in E2; discriminate].
  destruct (the_email "E1" Example.db3') as [e' |] eqn:E3;
    [| vm_compute in E3; discriminate].
  destruct (H e e' E2 E3) as [H1 _].
  vm_compute in E2. injection E2 as <-.
  vm_compute in E3. injection E3 as <-.
  vm_compute in H1. specialize (H1 eq_refl). discriminate.
Qed.

(** X29.  What the handler does on a qualifying pixel fetch (identifier
    present, non-bot User-Agent, row found, [bounce_type] null, at least
    5 seconds after the send, the store working): [open_count] becomes
    the stored count plus one, [status] becomes [opened] and
    [is_valid_open] true; [unique_opens] becomes the stored value plus
    one if and only if the stored [open_count] is 0, or the requesting
    IP differs from the stored [first_open_ip], or more than 300 seconds
    have passed since the stored [opened_at]; otherwise [unique_opens]
    is unchanged.  [opened_at] and [first_open_ip] are written on the
    first open only.  In the scenario of the specification the three
    fetches give the counters (1, 1), (2, 1) and (3, 2), the status
    [opened] and one notification. *)
Theorem qualifying_open_counts :
  (forall faults now req w i e,
      (forall n, faults n = Store.NoFault) ->
      TrackEmailOpen.id_param req = Some i ->
      i <> "" ->
      TrackEmailOpen.isBotUserAgent (TrackEmailOpen.user_agent req) = false ->
      the_email i (Store.db w) = Some e ->
      bounce_type e = None ->
      (5 * 1000 <= now - num (sent_at e))%Z ->
      let ip := TrackEmailOpen.getClientIP req in
      let unique :=
        num (open_count e) = 0%Z
        \/ first_open_ip e <> Some ip
        \/ exists t, opened_at e = Some t /\ (300 * 1000 < now - t)%Z in
      exists e',
        the_email i (Store.db (snd (TrackEmailOpen.handler faults now req w)))
        = Some e' /\
        open_count e' = Some (num (open_count e) + 1)%Z /\
        status e' = opened /\
        is_valid_open e' = Some true /\
        (unique -> unique_opens e' = Some (num (unique_opens e) + 1)%Z) /\
        (~ unique -> unique_opens e' = unique_opens e) /\
        (num (open_count e) = 0%Z ->
         opened_at e' = Some now /\ first_open_ip e' = Some ip) /\
        (num (open_count e) <> 0%Z ->
         opened_at e' = opened_at e /\ first_open_ip e' = first_open_ip e)) /\
  (option_map (fun r => (open_count r, unique_opens r, status r))
              (the_email "E1" Example.db1)
   = Some (Some 1%Z, Some 1%Z, opened) /\
   map notification_type (notifications Example.db1) = [email_opened] /\
   option_map (fun r => (open_count r, unique_opens r, status r))
              (the_email "E1" Example.db2)
   = Some (Some 2%Z, Some 1%Z, opened) /\
   option_map (fun r => (open_count r, unique_opens r, status r))
              (the_email "E1" Example.db3)
   = Some (Some 3%Z, Some 2%Z, opened)).
Proof.
  split; [| vm_compute; repeat split].
  intros faults now req w i e Hw Hid Hne Hbot He Hb Hlate ip unique.
  exists (TrackEmailOpen.apply_open e ip now e).
  split; [apply qualifying_open_row; assumption |].
  pose proof (unique_open_rule e ip now) as Hrule. fold unique in Hrule.
  simpl. repeat split.
  - intro Hu. apply Hrule in Hu. rewrite Hu. reflexivity.
  - intro Hn. destruct (TrackEmailOpen.isUniqueOpen e ip now) eqn:Eu;
      [| reflexivity].
    exfalso. apply Hn. apply Hrule. reflexivity.
  - apply Z.eqb_eq in H. rewrite H. reflexivity.
  - apply Z.eqb_eq in H. rewrite H. reflexivity.
  - apply Z.eqb_neq in H. rewrite H. reflexivity.
  - apply Z.eqb_neq in H. rewrite H. reflexivity.
Qed.

Lemma qualifying_open_counts_witness :
  exists e',
    the_email "E1"
      (Store.db (snd (TrackEmailOpen.handler Store.reliable
                        (Example.t0 + 10 * 1000)
                        (Example.pixel_request Example.browser "1.1.1.1")
                        (Store.start Example.db0))))
    = Some e' /\
    open_count e' = Some 1%Z /\ unique_opens e' = Some 1%Z.
Proof.
  destruct (proj1 qualifying_open_counts Store.reliable
              (Example.t0 + 10 * 1000)%Z
              (Example.pixel_request Example.browser "1.1.1.1")
              (Store.start Example.db0) "E1" Example.E1)
    as (e' & He' & Hc & _ & _ & Hu & _).
  - intro n. reflexivity.
  - reflexivity.
  - discriminate.
  - vm_compute. reflexivity.
  - reflexivity.
  - reflexivity.
  - vm_compute. discriminate.
  - exists e'. split; [exact He' |]. split; [exact Hc |].
    apply Hu. left. reflexivity.
Defined.

(** *** Replies *)

Lemma select_existing_app i g l r :
  filter (fun x => String.eqb (er_email_history_id x) i
                   && String.eqb (graph_message_id x) g) (l ++ [r])
  = (filter (fun x => String.eqb (er_email_history_id x) i
                      && String.eqb (graph_message_id x) g) l
     ++ (if String.eqb (er_email_history_id r) i
            && String.eqb (graph_message_id r) g then [r] else []))%list.
Proof.
  rewrite filter_app. simpl.
  destruct (String.eqb (er_email_history_id r) i
            && String.eqb (graph_message_id r) g); reflexivity.
Qed.

(** X30.  Recording is idempotent on the provider message id: with a working
    store, a matched reply that is not yet recorded adds exactly one
    [email_replies] row, and processing the same reply again adds
    none. *)
Lemma reply_recorded_once faults index acc acc' reply target e w :
  (forall n, faults n = Store.NoFault) ->
  ProcessEmailReplies.in_reply_to reply = Some target ->
  target <> "" ->
  ProcessEmailReplies.lookup_original index target = Some e ->
  ProcessEmailReplies.select_existing_reply
    (id e) (ProcessEmailReplies.ri_graph_message_id reply) (Store.db w) = [] ->
  let w1 := snd (ProcessEmailReplies.process_reply faults index acc reply w) in
  let w2 := snd (ProcessEmailReplies.process_reply faults index acc' reply w1) in
  email_replies (Store.db w1)
  = (email_replies (Store.db w)
       ++ [ProcessEmailReplies.reply_row e reply])%list /\
  ProcessEmailReplies.select_existing_reply
    (id e) (ProcessEmailReplies.ri_graph_message_id reply) (Store.db w1)
  = [ProcessEmailReplies.reply_row e reply] /\
  Store.db w2 = Store.db w1.
Proof.
  intros Hw Hin Hne Hlook Hnone w1 w2.
  assert (H1 : email_replies (Store.db w1)
               = (email_replies (Store.db w)
                    ++ [ProcessEmailReplies.reply_row e reply])%list).
  { subst w1.
    set (Q := fun d : DB =>
                email_replies d
                = (email_replies (Store.db w)
                     ++ [ProcessEmailReplies.reply_row e reply])%list).
    assert (H : triple (fun d => d = Store.db w)
                  (ProcessEmailReplies.process_reply faults index acc reply)
                  (fun _ => Q) Q).
    { unfold ProcessEmailReplies.process_reply.
      rewrite Hin, (truthy_id target Hne). simpl negb. cbv iota.
      rewrite Hlook.
      eapply triple_bind with
        (Q1 := fun res d => d = Store.db w /\ res = Some None).
      - apply triple_query_working; [exact Hw |]. intros d ->.
        rewrite Hnone. auto.
      - intro res. apply triple_pure. intros ->.
        eapply triple_bind with (Q1 := fun ok d => Q d /\ ok = true).
        + apply triple_write_working; [exact Hw |]. intros d ->.
          split; reflexivity.
        + intro ok. apply triple_pure. intros ->. simpl negb. cbv iota.
          eapply triple_bind with (Q1 := fun ok d => Q d /\ ok = true).
          * apply triple_write_working; [exact Hw |]. intros d Hd.
            split; [exact Hd | reflexivity].
          * intro ok. apply triple_pure. intros ->. simpl negb. cbv iota.
            eapply triple_bind with (Q1 := fun _ => Q);
              [| intro; apply triple_ret; auto].
            destruct (Js.truthy (sent_by e));
              [| apply triple_ret; auto].
            destruct (sent_by e); [| apply triple_ret; auto].
            eapply triple_bind with (Q1 := fun _ => Q);
              [| intro; apply triple_ret; auto].
            apply triple_write_working; [exact Hw |]. intros d Hd. exact Hd. }
    specialize (H w eq_refl).
    destruct (ProcessEmailReplies.process_reply faults index acc reply w)
      as [[r | x] w']; exact H. }
  assert (H2 : ProcessEmailReplies.select_existing_reply
                 (id e) (ProcessEmailReplies.ri_graph_message_id reply)
                 (Store.db w1)
               = [ProcessEmailReplies.reply_row e reply]).
  { unfold ProcessEmailReplies.select_existing_reply in *.
    rewrite H1, select_existing_app, Hnone. simpl.
    rewrite !String.eqb_refl. reflexivity. }
  split; [exact H1 |]. split; [exact H2 |].
  subst w2.
  apply (keeps_after (fun d => d = Store.db w1)); [| reflexivity].
  unfold ProcessEmailReplies.process_reply.
  rewrite Hin, (truthy_id target Hne). simpl negb. cbv iota. rewrite Hlook.
  eapply triple_bind with
    (Q1 := fun res d =>
             d = Store.db w1
             /\ res = Some (Some (ProcessEmailReplies.reply_row e reply))).
  - apply triple_query_working; [exact Hw |]. intros d ->.
    rewrite H2. auto.
  - intro res. apply triple_pure. intros ->. apply triple_ret. auto.
Qed.

(** C6.  Two distinct replies to one sent email, found by one run of the
    reply reconciliation: both are recorded (two [email_replies] rows,
    two notifications), yet [reply_count] ends at 1, and [replied_at] is
    written by the second reply as well, because both updates are
    computed from the row read at the start of the run.  Running the
    reconciliation again on the same messages records nothing more. *)
Theorem replies_of_one_run_use_a_stale_count :
  map graph_message_id (email_replies Example.db_replied) = ["G1"; "G2"] /\
  option_map reply_count (the_email "E1" Example.db_replied)
  = Some (Some 1%Z) /\
  option_map replied_at (the_email "E1" Example.db_replied)
  = Some (Some (Example.t0 + 80000)%Z) /\
  option_map last_reply_at (the_email "E1" Example.db_replied)
  = Some (Some (Example.t0 + 80000)%Z) /\
  option_map status (the_email "E1" Example.db_replied) = Some replied /\
  email_replies
    (Example.check_replies [Example.reply1; Example.reply2]
                           (Example.t0 + 900 * 1000)%Z Example.db_replied)
  = email_replies Example.db_replied.
Proof. vm_compute. repeat split. Qed.

(** C7.  The contact of [E1] has score 20 before the first open and 25
    after it.  When process-bounce-checks then finds the bounce, the
    email becomes bounced and a notification is inserted, but the
    contact keeps its credit (one open, score 25).  When
    sync-email-bounces finds it, the open is taken back but the score
    drops by 10, to 15, not to 20.  The manual endpoint takes back
    exactly the credit.  Applying either service a second time changes
    neither the contact nor the notifications. *)
Theorem bounce_transition_contact_correction :
  contacts Example.db0 = [mkContact "C1" (Some 0%Z) (Some 20%Z)] /\
  contacts Example.db1 = [mkContact "C1" (Some 1%Z) (Some 25%Z)] /\
  option_map status (the_email "E1" Example.db_bounced) = Some bounced /\
  contacts Example.db_bounced = [mkContact "C1" (Some 1%Z) (Some 25%Z)] /\
  map notification_type (notifications Example.db_bounced)
  = [email_opened; email_bounced] /\
  option_map status
    (the_email "E1" (Example.sync_bounces (Example.t0 + 500 * 1000)%Z
                                          Example.db1))
  = Some bounced /\
  contacts (Example.sync_bounces (Example.t0 + 500 * 1000)%Z Example.db1)
  = [mkContact "C1" (Some 0%Z) (Some 15%Z)] /\
  contacts (Example.mark_manually (Example.t0 + 500 * 1000)%Z Example.db1)
  = [mkContact "C1" (Some 0%Z) (Some 20%Z)] /\
  Example.bounce_checks (Example.t0 + 900 * 1000)%Z Example.db_bounced
  = Example.db_bounced /\
  Example.sync_bounces (Example.t0 + 900 * 1000)%Z
    (Example.sync_bounces (Example.t0 + 500 * 1000)%Z Example.db1)
  = Example.sync_bounces (Example.t0 + 500 * 1000)%Z Example.db1.
Proof. vm_compute. repeat split. Qed.

(** C4.  The scenario of the specification runs as stated: counters (1, 1) with
    status [opened], then (2, 1), then (3, 2).  But the deduplication
    window is measured from the stored [opened_at], which only the first
    open writes, and not from the previous open of the same address:
    after opens from 1.1.1.1 at 10 s and at 200 s (counters (2, 1),
    [opened_at] still the time of the first open), a third fetch from
    1.1.1.1 at 400 s, which is 200 s after the previous open of that
    address, not the first open and from the stored first address, is
    counted as a unique open (counters (3, 2)), where the worded rule
    counts none. *)
Theorem dedup_window_runs_from_first_open :
  (option_map (fun r => (open_count r, unique_opens r, status r))
              (the_email "E1" Example.db1)
   = Some (Some 1%Z, Some 1%Z, opened) /\
   option_map (fun r => (open_count r, unique_opens r, status r))
              (the_email "E1" Example.db2)
   = Some (Some 2%Z, Some 1%Z, opened) /\
   option_map (fun r => (open_count r, unique_opens r, status r))
              (the_email "E1" Example.db3)
   = Some (Some 3%Z, Some 2%Z, opened)) /\
  option_map (fun r => (open_count r, unique_opens r, first_open_ip r,
                        opened_at r))
             (the_email "E1" Example.db2')
  = Some (Some 2%Z, Some 1%Z, Some "1.1.1.1",
          Some (Example.t0 + 10 * 1000)%Z) /\
  Spec.unique_as_worded
    [Spec.mkOpen "1.1.1.1" (Example.t0 + 10 * 1000);
     Spec.mkOpen "1.1.1.1" (Example.t0 + 200 * 1000)]
    (Some "1.1.1.1") "1.1.1.1" (Example.t0 + 400 * 1000) = false /\
  option_map (fun r => (open_count r, unique_opens r))
             (the_email "E1" Example.db3')
  = Some (Some 3%Z, Some 2%Z) /\
  ~ Spec.worded_rule "E1" Example.db2' Example.db3'
      [Spec.mkOpen "1.1.1.1" (Example.t0 + 10 * 1000);
       Spec.mkOpen "1.1.1.1" (Example.t0 + 200 * 1000)]
      "1.1.1.1" (Example.t0 + 400 * 1000).
Proof.
  split; [vm_compute; repeat split |].
  split; [vm_compute; reflexivity |].
  split; [vm_compute; reflexivity |].
  split; [vm_compute; reflexivity |].
  exact worded_rule_fails.
Qed.

(* ================================================================== *)
(** ** Further properties of the code *)
(* ================================================================== *)

(* THEOREMS *)
(** *** Strings *)

Lemma chars_of_string_of_chars l :
  list_ascii_of_string (string_of_list_ascii l) = l.
Proof. induction l; simpl; congruence. Qed.

Lemma string_of_chars_of_string s :
  string_of_list_ascii (list_ascii_of_string s) = s.
Proof. induction s; simpl; congruence. Qed.

Lemma length_string_of_chars l :
  String.length (string_of_list_ascii l) = List.length l.
Proof. induction l; simpl; congruence. Qed.

Lemma chars_of_append a b :
  list_ascii_of_string (a ++ b)
  = (list_ascii_of_string a ++ list_ascii_of_string b)%list.
Proof. induction a; simpl; congruence. Qed.

Lemma lower_char_idempotent c : Js.lower_char (Js.lower_char c) = Js.lower_char c.
Proof. destruct c as [[] [] [] [] [] [] [] []]; reflexivity. Qed.

Lemma toLowerCase_idempotent s :
  Js.toLowerCase (Js.toLowerCase s) = Js.toLowerCase s.
Proof.
  unfold Js.toLowerCase. rewrite chars_of_string_of_chars, map_map.
  f_equal. apply map_ext. apply lower_char_idempotent.
Qed.

Lemma toLowerCase_append a b :
  Js.toLowerCase (a ++ b) = Js.toLowerCase a ++ Js.toLowerCase b.
Proof.
  unfold Js.toLowerCase. rewrite chars_of_append, map_app.
  generalize (map Js.lower_char (list_ascii_of_string a)) as x.
  generalize (map Js.lower_char (list_ascii_of_string b)) as y.
  intros y x. induction x; simpl; congruence.
Qed.

Lemma toLowerCase_empty s : Js.toLowerCase s = "" -> s = "".
Proof. destruct s; [reflexivity | discriminate]. Qed.

Lemma prefix_chars_app p s : Js.prefix_chars p (p ++ s)%list = true.
Proof.
  induction p as [| c p IH]; simpl; [reflexivity |].
  rewrite Ascii.eqb_refl. exact IH.
Qed.

Lemma includes_chars_prefix s p :
  Js.prefix_chars p s = true -> Js.includes_chars s p = true.
Proof. intro H. destruct s; simpl; rewrite H; reflexivity. Qed.

Lemma includes_chars_app a b c :
  Js.includes_chars (a ++ b ++ c)%list b = true.
Proof.
  induction a as [| x a IH].
  - cbn [app]. apply includes_chars_prefix. apply prefix_chars_app.
  - simpl. rewrite IH. apply orb_true_r.
Qed.

Lemma includes_append a b c : Js.includes (a ++ b ++ c) b = true.
Proof.
  unfold Js.includes. rewrite !chars_of_append. apply includes_chars_app.
Qed.

(** X1.  Bot detection looks at the lower-cased User-Agent only, and a
    signature is found wherever it stands: two User-Agents that differ
    in letter case are classified alike, and a User-Agent that contains
    a listed signature in any letter case, with anything before and
    after it, is a bot. *)
Theorem bot_detection_ignores_case_and_position :
  (forall ua ua',
      Js.toLowerCase ua = Js.toLowerCase ua' ->
      TrackEmailOpen.isBotUserAgent (Some ua)
      = TrackEmailOpen.isBotUserAgent (Some ua')) /\
  (forall before mid behind sig,
      In sig TrackEmailOpen.BOT_USER_AGENTS ->
      Js.toLowerCase mid = sig ->
      TrackEmailOpen.isBotUserAgent (Some (before ++ mid ++ behind)) = true).
Proof.
  split.
  - intros ua ua' H. unfold TrackEmailOpen.isBotUserAgent.
    destruct (String.eqb ua "") eqn:E; destruct (String.eqb ua' "") eqn:E'.
    + reflexivity.
    + apply String.eqb_eq in E. subst ua. symmetry in H.
      apply toLowerCase_empty in H. subst ua'. discriminate.
    + apply String.eqb_eq in E'. subst ua'.
      apply toLowerCase_empty in H. subst ua. discriminate.
    + rewrite H. reflexivity.
  - intros before mid behind sig Hin Hsig.
    unfold TrackEmailOpen.isBotUserAgent.
    destruct (String.eqb _ ""); [reflexivity |].
    apply existsb_exists. exists sig. split; [exact Hin |].
    rewrite !toLowerCase_append, Hsig. apply includes_append.
Qed.

Lemma bot_detection_ignores_case_and_position_witness :
  TrackEmailOpen.isBotUserAgent
    (Some ("Mozilla/5.0 (compatible; " ++ "GoogleBot" ++ "/2.1)")) = true.
Proof.
  apply (proj2 bot_detection_ignores_case_and_position
           "Mozilla/5.0 (compatible; " "GoogleBot" "/2.1)" "googlebot").
  - unfold TrackEmailOpen.BOT_USER_AGENTS. simpl. tauto.
  - reflexivity.
Defined.

(** *** The client address *)

Lemma drop_spaces_split s :
  exists p, s = (p ++ Js.drop_spaces s)%list /\
            Forall (fun c => Js.is_space c = true) p.
Proof.
  induction s as [| c s IH]; simpl.
  - exists []. auto.
  - destruct (Js.is_space c) eqn:E.
    + destruct IH as (p & Hp & Hall). exists (c :: p). split.
      * simpl. congruence.
      * constructor; assumption.
    + exists []. auto.
Qed.

Lemma drop_spaces_head s c t :
  Js.drop_spaces s = c :: t -> Js.is_space c = false.
Proof.
  induction s as [| x s IH]; simpl; [discriminate |].
  destruct (Js.is_space x) eqn:E; [exact IH |].
  intro H. injection H as <- _. exact E.
Qed.

Lemma In_drop_spaces s x : In x (Js.drop_spaces s) -> In x s.
Proof.
  destruct (drop_spaces_split s) as (p & Hp & _). intro H.
  rewrite Hp. apply in_or_app. right. exact H.
Qed.

Lemma In_trim_chars s x : In x (Js.trim_chars s) -> In x s.
Proof.
  unfold Js.trim_chars. intro H. apply in_rev in H.
  apply In_drop_spaces in H. apply in_rev in H.
  apply In_drop_spaces in H. exact H.
Qed.

Lemma trim_chars_last s c t :
  rev (Js.trim_chars s) = c :: t -> Js.is_space c = false.
Proof.
  unfold Js.trim_chars. rewrite rev_involutive. apply drop_spaces_head.
Qed.

Lemma trim_chars_head s c t :
  Js.trim_chars s = c :: t -> Js.is_space c = false.
Proof.
  unfold Js.trim_chars. intro H.
  destruct (Js.drop_spaces s) as [| d u] eqn:E.
  - simpl in H. discriminate.
  - pose proof (drop_spaces_head _ _ _ E) as Hd.
    destruct (drop_spaces_split (rev (d :: u))) as (p & Hp & Hall).
    set (r := Js.drop_spaces (rev (d :: u))) in *.
    assert (Hr : (d :: u) = (rev r ++ rev p)%list).
    { rewrite <- rev_app_distr, <- Hp, rev_involutive. reflexivity. }
    rewrite H in Hr. simpl in Hr. injection Hr as Hc _. subst d. exact Hd.
Qed.

Lemma before_comma_no_comma s : ~ In ","%char (Js.before_comma s).
Proof.
  induction s as [| c s IH]; simpl; [tauto |].
  destruct (Ascii.eqb c ",") eqn:E; simpl; [tauto |].
  intros [H | H]; [| contradiction].
  subst c. rewrite Ascii.eqb_refl in E. discriminate.
Qed.

Lemma drop_spaces_nil s :
  Js.drop_spaces s = [] <-> Forall (fun c => Js.is_space c = true) s.
Proof.
  induction s as [| c s IH]; simpl.
  - split; auto.
  - destruct (Js.is_space c) eqn:E.
    + rewrite IH. split; intro H; [constructor; assumption |].
      inversion H; assumption.
    + split; [discriminate |]. intro H. inversion H. congruence.
Qed.

Lemma trim_chars_nil s :
  Js.trim_chars s = [] <-> Forall (fun c => Js.is_space c = true) s.
Proof.
  unfold Js.trim_chars. split.
  - intro H. apply (f_equal (@rev ascii)) in H. rewrite rev_involutive in H.
    simpl in H. apply drop_spaces_nil in H.
    apply Forall_rev in H. rewrite rev_involutive in H.
    destruct (drop_spaces_split s) as (p & Hp & Hall).
    rewrite Hp. apply Forall_app. split; assumption.
  - intro H. apply drop_spaces_nil in H. rewrite H. reflexivity.
Qed.

(** X2.  The client address.  When the [x-forwarded-for] header is set
    and not empty, the address is the first comma-separated element of
    that header with the white space around it removed, whatever the
    other headers say: it holds no comma, it neither starts nor ends
    with white space, and it is the empty string exactly when that first
    element is blank (the other headers are not consulted then).
    Without any non-empty header the address is [unknown]. *)
Theorem client_ip_normal_form :
  (forall req xff,
      TrackEmailOpen.x_forwarded_for req = Some xff ->
      xff <> "" ->
      let ip := list_ascii_of_string (TrackEmailOpen.getClientIP req) in
      ip = Js.trim_chars (Js.before_comma (list_ascii_of_string xff)) /\
      ~ In ","%char ip /\
      (forall c rest, ip = c :: rest -> Js.is_space c = false) /\
      (forall c rest, rev ip = c :: rest -> Js.is_space c = false) /\
      (ip = [] <->
       Forall (fun c => Js.is_space c = true)
              (Js.before_comma (list_ascii_of_string xff)))) /\
  (forall req,
      Js.truthy (TrackEmailOpen.x_forwarded_for req) = false ->
      Js.truthy (TrackEmailOpen.x_real_ip req) = false ->
      Js.truthy (TrackEmailOpen.cf_connecting_ip req) = false ->
      TrackEmailOpen.getClientIP req = "unknown").
Proof.
  split.
  - intros req xff Hx Hne ip.
    assert (Hip : ip = Js.trim_chars
                         (Js.before_comma (list_ascii_of_string xff))).
    { subst ip. unfold TrackEmailOpen.getClientIP. rewrite Hx.
      rewrite (truthy_id xff Hne). apply chars_of_string_of_chars. }
    split; [exact Hip |]. rewrite Hip. repeat split.
    + intro H. apply In_trim_chars in H.
      exact (before_comma_no_comma _ H).
    + intros c rest. apply trim_chars_head.
    + intros c rest. apply trim_chars_last.
    + apply trim_chars_nil.
    + apply trim_chars_nil.
  - intros req H1 H2 H3. unfold TrackEmailOpen.getClientIP.
    rewrite H1, H2, H3. reflexivity.
Qed.

Lemma client_ip_normal_form_witness :
  TrackEmailOpen.getClientIP
    (TrackEmailOpen.mkRequest (Some "E1") None
       (Some "  203.0.113.7 , 10.0.0.1") (Some "10.9.9.9") None)
  = "203.0.113.7".
Proof.
  destruct (proj1 client_ip_normal_form
              (TrackEmailOpen.mkRequest (Some "E1") None
                 (Some "  203.0.113.7 , 10.0.0.1") (Some "10.9.9.9") None)
              "  203.0.113.7 , 10.0.0.1" eq_refl)
    as (H & _).
  - discriminate.
  - rewrite <- (string_of_chars_of_string (TrackEmailOpen.getClientIP _)).
    rewrite H. reflexivity.
Defined.

Module RegexFacts.
Import Js Regex RegexSpec.
Local Open Scope list_scope.

Lemma run_sound r :
  forall st k res,
    run r st k = Some res ->
    exists st', matches r st st' /\ k st' = Some res.
Proof.
  induction r as [| p | a IHa b IHb | a IHa b IHb | g a IHa | i a IHa | |];
    intros st k res H; [simpl in H .. | idtac | simpl in H | simpl in H | simpl in H].
  - exists st. split; [constructor | exact H].
  - destruct (rest st) as [| c t] eqn:E; [discriminate |].
    destruct (p c) eqn:Ep; [| discriminate].
    eexists. split; [econstructor; eassumption | exact H].
  - apply IHa in H. destruct H as (st1 & M1 & H).
    apply IHb in H. destruct H as (st2 & M2 & H).
    exists st2. split; [econstructor; eassumption | exact H].
  - destruct (run a st k) eqn:E.
    + injection H as <-. apply IHa in E. destruct E as (st1 & M1 & E).
      exists st1. split; [apply m_alt_l; exact M1 | exact E].
    + apply IHb in H. destruct H as (st1 & M1 & H).
      exists st1. split; [apply m_alt_r; exact M1 | exact H].
  - change (run (Rep g a) st k)
      with ((fix loop (n : nat) (st : mstate) {struct n} : option mstate :=
               match n with
               | O => k st
               | S n' =>
                   let again := fun st' =>
                     if (List.length (rest st') <? List.length (rest st))%nat
                     then loop n' st' else None in
                   if g
                   then match run a st again with
                        | Some x => Some x
                        | None => k st
                        end
                   else match k st with
                        | Some x => Some x
                        | None => run a st again
                        end
               end) (S (List.length (rest st))) st) in H.
    remember (S (List.length (rest st))) as n eqn:En. clear En.
    revert st H. induction n as [| n IHn]; intros st H.
    + exists st. split; [constructor | exact H].
    + simpl in H. destruct g.
      * match type of H with
        | match ?e with _ => _ end = _ => destruct e eqn:E
        end.
        -- injection H as <-. apply IHa in E. destruct E as (st1 & M1 & Hx).
           destruct (List.length (rest st1) <? List.length (rest st))%nat;
             [| discriminate].
           apply IHn in Hx. destruct Hx as (st2 & M2 & Hx).
           exists st2. split; [eapply m_rep_more; eassumption | exact Hx].
        -- exists st. split; [constructor | exact H].
      * destruct (k st) eqn:E.
        -- injection H as <-. exists st. split; [constructor | exact E].
        -- apply IHa in H. destruct H as (st1 & M1 & Hx).
           destruct (List.length (rest st1) <? List.length (rest st))%nat;
             [| discriminate].
           apply IHn in Hx. destruct Hx as (st2 & M2 & Hx).
           exists st2. split; [eapply m_rep_more; eassumption | exact Hx].
  - apply IHa in H. destruct H as (st1 & M1 & H).
    eexists. split; [econstructor; eassumption | exact H].
  - destruct (at_word_boundary st) eqn:E; [| discriminate].
    exists st. split; [constructor; exact E | exact H].
  - destruct (rest st) eqn:E; [| discriminate].
    exists st. split; [constructor; exact E | exact H].
Qed.

Lemma consumed_refl st : consumed st st [].
Proof. split; reflexivity. Qed.

Lemma consumed_trans st1 st2 st3 w1 w2 :
  consumed st1 st2 w1 -> consumed st2 st3 w2 ->
  consumed st1 st3 (w1 ++ w2)%list.
Proof.
  intros [A1 B1] [A2 B2]. split.
  - rewrite A2, A1, rev_app_distr, app_assoc. reflexivity.
  - rewrite B1, B2, app_assoc. reflexivity.
Qed.

Lemma matches_consumed r st st' :
  matches r st st' ->
  exists w, consumed st st' w /\
            forall P, chars_in P r -> Forall (fun c => P c = true) w.
Proof.
  induction 1.
  - exists []. split; [apply consumed_refl | constructor].
  - exists [c]. split.
    + split; simpl; [reflexivity | assumption].
    + intros P HP. constructor; [apply HP; assumption | constructor].
  - destruct IHmatches1 as (w1 & C1 & F1).
    destruct IHmatches2 as (w2 & C2 & F2).
    exists (w1 ++ w2)%list. split; [eapply consumed_trans; eassumption |].
    intros P [Ha Hb]. apply Forall_app. split; auto.
  - destruct IHmatches as (w & C & F). exists w. split; [exact C |].
    intros P [Ha Hb]. auto.
  - destruct IHmatches as (w & C & F). exists w. split; [exact C |].
    intros P [Ha Hb]. auto.
  - exists []. split; [apply consumed_refl | constructor].
  - destruct IHmatches1 as (w1 & C1 & F1).
    destruct IHmatches2 as (w2 & C2 & F2).
    exists (w1 ++ w2)%list. split; [eapply consumed_trans; eassumption |].
    intros P HP. apply Forall_app. split; auto.
  - destruct IHmatches as (w & C & F). exists w. split; [exact C |].
    intros P HP. auto.
  - exists []. split; [apply consumed_refl | constructor].
  - exists []. split; [apply consumed_refl | constructor].
Qed.

Lemma consumed_taken st st' w :
  consumed st st' w -> taken (List.length (pre st)) st' = w.
Proof.
  intros [A _]. unfold taken. rewrite A.
  rewrite length_app, length_rev.
  replace (List.length w + List.length (pre st) - List.length (pre st))%nat
    with (List.length (rev w) + 0)%nat by (rewrite length_rev; lia).
  rewrite firstn_app_2. simpl. rewrite app_nil_r. apply rev_involutive.
Qed.

Lemma consumed_unique st st' w w' :
  consumed st st' w -> consumed st st' w' -> w = w'.
Proof.
  intros H H'. rewrite <- (consumed_taken _ _ _ H).
  apply consumed_taken. exact H'.
Qed.

Lemma matches_group_free r st st' :
  matches r st st' -> group_free r = true -> caps st' = caps st.
Proof.
  induction 1; simpl; intro G; try reflexivity;
    try (apply andb_prop in G; destruct G as [G1 G2]); auto.
  - rewrite IHmatches2, IHmatches1; auto.
  - rewrite IHmatches2, IHmatches1; auto.
  - discriminate.
Qed.

Lemma exec_from_sound r :
  forall input before m,
    exec_from r before input = Some m ->
    exists before' after' st',
      (rev before' ++ after' = rev before ++ input)%list /\
      matches r (MState before' after' []) st' /\
      groups m = caps st' /\
      whole m = string_of_list_ascii (taken (List.length before') st').
Proof.
  induction input as [| c t IH]; intros before m H; simpl in H.
  - destruct (run r (MState before [] []) Some) as [st0 |] eqn:E;
      [| discriminate].
    injection H as <-. apply run_sound in E.
    destruct E as (st' & M & E). injection E as <-.
    exists before, [], st'. auto.
  - destruct (run r (MState before (c :: t) []) Some) as [st0 |] eqn:E.
    + injection H as <-. apply run_sound in E.
      destruct E as (st' & M & E). injection E as <-.
      exists before, (c :: t), st'. auto.
    + apply IH in H. destruct H as (b' & a' & st' & Hs & M & G).
      exists b', a', st'. split; [| auto].
      rewrite Hs. simpl. rewrite <- app_assoc. reflexivity.
Qed.

(** A match of [r] in [s] is a match of [r] on some infix of [s]. *)
Lemma exec_sound r s m :
  exec r s = Some m ->
  exists before st' w behind,
    list_ascii_of_string s = (rev before ++ w ++ behind)%list /\
    matches r (MState before (w ++ behind)%list []) st' /\
    consumed (MState before (w ++ behind)%list []) st' w /\
    rest st' = behind /\
    groups m = caps st' /\
    whole m = string_of_list_ascii w /\
    forall P, chars_in P r -> Forall (fun c => P c = true) w.
Proof.
  unfold exec. intro H. apply exec_from_sound in H.
  destruct H as (b' & a' & st' & Hs & M & G & W).
  destruct (matches_consumed _ _ _ M) as (w & C & F).
  pose proof C as [C1 C2]. simpl in C1, C2. subst a'.
  exists b', st', w, (rest st'). simpl in Hs.
  split; [symmetry; exact Hs |]. split; [exact M |]. split; [exact C |].
  split; [reflexivity |]. split; [exact G |]. split; [| exact F].
  rewrite W. f_equal.
  apply (consumed_taken (MState b' (w ++ rest st') []) st' w C).
Qed.

End RegexFacts.

(** *** The text the patterns of process-bounce-checks run on *)

Lemma has_tag_no_gt s o :
  ~ In ">"%char s -> has_tag s o = false.
Proof.
  revert o. induction s as [| c s IH]; intros o H; simpl; [reflexivity |].
  destruct (Ascii.eqb c ">") eqn:E.
  - apply Ascii.eqb_eq in E. subst c. exfalso. apply H. left. reflexivity.
  - rewrite andb_false_r. apply IH. intro F. apply H. right. exact F.
Qed.

Lemma has_tag_opened_no_gt s :
  has_tag s true = false -> ~ In ">"%char s.
Proof.
  induction s as [| c s IH]; simpl; [tauto |].
  destruct (Ascii.eqb c ">") eqn:E; [discriminate |].
  intros H [F | F].
  - subst c. rewrite Ascii.eqb_refl in E. discriminate.
  - exact (IH H F).
Qed.

Lemma strip_tags_no_tag s :
  has_tag (ProcessBounceChecks.strip_tags s None) false = false /\
  forall buf, ~ In ">"%char buf ->
              has_tag (ProcessBounceChecks.strip_tags s (Some buf)) false
              = false.
Proof.
  induction s as [| c s [IH1 IH2]]; simpl.
  - split; [reflexivity |]. intros buf H. apply has_tag_no_gt.
    intro F. apply in_rev in F. exact (H F).
  - split.
    + destruct (Ascii.eqb c "<") eqn:E.
      * apply IH2. intros [F | []]. subst c. discriminate.
      * simpl. rewrite E. exact IH1.
    + intros buf H. destruct (Ascii.eqb c ">") eqn:E.
      * simpl. exact IH1.
      * apply IH2. intros [F | F]; [| exact (H F)].
        subst c. rewrite Ascii.eqb_refl in E. discriminate.
Qed.

Lemma is_space_not_angle c :
  Js.is_space c = true -> Ascii.eqb c "<" = false /\ Ascii.eqb c ">" = false.
Proof.
  intro H. split.
  - destruct (Ascii.eqb c "<") eqn:E; [| reflexivity].
    apply Ascii.eqb_eq in E. subst c. discriminate.
  - destruct (Ascii.eqb c ">") eqn:E; [| reflexivity].
    apply Ascii.eqb_eq in E. subst c. discriminate.
Qed.

Lemma has_tag_collapse s w o :
  has_tag (ProcessBounceChecks.collapse_spaces s w) o = has_tag s o.
Proof.
  revert w o. induction s as [| c s IH]; intros w o; simpl; [reflexivity |].
  destruct (Js.is_space c) eqn:E.
  - destruct (is_space_not_angle c E) as [E1 E2]. rewrite E1, E2.
    rewrite andb_false_r, orb_false_r.
    destruct w; simpl; rewrite ?andb_false_r, ?orb_false_r; apply IH.
  - simpl. rewrite IH. reflexivity.
Qed.

Lemma has_tag_plain_body body :
  has_tag (list_ascii_of_string (ProcessBounceChecks.plain_body body)) false
  = false.
Proof.
  unfold ProcessBounceChecks.plain_body.
  rewrite chars_of_string_of_chars, has_tag_collapse.
  apply strip_tags_no_tag.
Qed.

Lemma has_tag_opened_app b c : has_tag (b ++ ">"%char :: c)%list true = true.
Proof.
  induction b as [| x b IH]; simpl.
  - reflexivity.
  - destruct (Ascii.eqb x ">"); [reflexivity | exact IH].
Qed.

Lemma has_tag_app a b c o :
  has_tag (a ++ "<"%char :: b ++ ">"%char :: c)%list o = true.
Proof.
  revert o. induction a as [| x a IH]; intro o; simpl.
  - rewrite andb_false_r, orb_true_r. apply has_tag_opened_app.
  - destruct (o && Ascii.eqb x ">"); [reflexivity | apply IH].
Qed.

Lemma collapse_spaces_shape s w :
  let t := ProcessBounceChecks.collapse_spaces s w in
  (forall c, In c t -> Js.is_space c = true -> c = " "%char) /\
  (forall a b, t <> (a ++ " "%char :: " "%char :: b)%list) /\
  (w = true -> forall b, t <> " "%char :: b).
Proof.
  revert w. induction s as [| c s IH]; intro w; simpl.
  - repeat split.
    + intros c [].
    + intros a b H. destruct a; discriminate.
    + intros _ b H. discriminate.
  - destruct (Js.is_space c) eqn:E.
    + destruct w.
      * apply IH.
      * destruct (IH true) as (H1 & H2 & H3). repeat split.
        -- intros x [<- | Hx] Hs; [reflexivity | auto].
        -- intros a b H. destruct a as [| y a]; simpl in H.
           ++ injection H as H. exact (H3 eq_refl _ H).
           ++ injection H as _ H. exact (H2 _ _ H).
        -- discriminate.
    + destruct (IH false) as (H1 & H2 & _). repeat split.
      * intros x [<- | Hx] Hs; [congruence | auto].
      * intros a b H. destruct a as [| y a]; simpl in H.
        -- injection H as -> _. discriminate.
        -- injection H as _ H. exact (H2 _ _ H).
      * intros _ b H. injection H as -> _. discriminate.
Qed.

(** X3.  The text the patterns of process-bounce-checks run on.  After
    the two replacements the body holds no [<] that is followed,
    anywhere later, by a [>]; its only white space is the plain space;
    and no two spaces stand next to each other. *)
Theorem plain_body_normal_form body :
  let t := list_ascii_of_string (ProcessBounceChecks.plain_body body) in
  (forall a b c, t <> (a ++ "<"%char :: b ++ ">"%char :: c)%list) /\
  (forall c, In c t -> Js.is_space c = true -> c = " "%char) /\
  (forall a b, t <> (a ++ " "%char :: " "%char :: b)%list).
Proof.
  intro t. split.
  - intros a b c H. pose proof (has_tag_plain_body body) as N.
    fold t in N. rewrite H, has_tag_app in N. discriminate.
  - subst t. unfold ProcessBounceChecks.plain_body.
    rewrite chars_of_string_of_chars.
    destruct (collapse_spaces_shape
                (ProcessBounceChecks.strip_tags (list_ascii_of_string body)
                                                None) false)
      as (H1 & H2 & _).
    split; assumption.
Qed.

Lemma strip_tags_fixed s :
  (has_tag s false = false -> ProcessBounceChecks.strip_tags s None = s) /\
  (forall buf, ~ In ">"%char s ->
               ProcessBounceChecks.strip_tags s (Some buf)
               = (rev buf ++ s)%list).
Proof.
  induction s as [| c s [IH1 IH2]]; simpl.
  - split; [reflexivity |]. intros buf _. rewrite app_nil_r. reflexivity.
  - split.
    + destruct (Ascii.eqb c "<") eqn:E.
      * intro H. apply has_tag_opened_no_gt in H.
        rewrite IH2 by exact H. reflexivity.
      * intro H. rewrite IH1 by exact H. reflexivity.
    + intros buf H. destruct (Ascii.eqb c ">") eqn:E.
      * apply Ascii.eqb_eq in E. subst c. exfalso. apply H. left. reflexivity.
      * rewrite IH2 by (intro F; apply H; right; exact F).
        simpl. rewrite <- app_assoc. reflexivity.
Qed.

Lemma collapse_spaces_idempotent s w :
  ProcessBounceChecks.collapse_spaces
    (ProcessBounceChecks.collapse_spaces s w) w
  = ProcessBounceChecks.collapse_spaces s w.
Proof.
  revert w. induction s as [| c s IH]; intro w; simpl; [reflexivity |].
  destruct (Js.is_space c) eqn:E.
  - destruct w; [apply IH |]. simpl. rewrite IH. reflexivity.
  - simpl. rewrite E, IH. reflexivity.
Qed.

(** X4.  Cleaning a body that has been cleaned changes nothing. *)
Theorem plain_body_idempotent body :
  ProcessBounceChecks.plain_body (ProcessBounceChecks.plain_body body)
  = ProcessBounceChecks.plain_body body.
Proof.
  pose proof (has_tag_plain_body body) as N.
  unfold ProcessBounceChecks.plain_body in *.
  rewrite chars_of_string_of_chars in *.
  rewrite (proj1 (strip_tags_fixed _) N).
  rewrite collapse_spaces_idempotent. reflexivity.
Qed.

Module AddressFacts.
Import Js Regex RegexSpec RegexFacts Ndr.
Local Open Scope list_scope.

Lemma matches_seq_inv a b st st' :
  matches (Seq a b) st st' ->
  exists st1, matches a st st1 /\ matches b st1 st'.
Proof. intro H. inversion H; subst. eauto. Qed.

Lemma matches_chr_inv p st st' :
  matches (Chr p) st st' ->
  exists c t, rest st = c :: t /\ p c = true /\
              st' = MState (c :: pre st) t (caps st).
Proof. intro H. inversion H; subst. eauto. Qed.

Lemma matches_grp_inv i a st st' :
  matches (Grp i a) st st' ->
  exists st1, matches a st st1 /\
              st' = MState (pre st1) (rest st1)
                           ((i, taken (List.length (pre st)) st1) :: caps st1).
Proof. intro H. inversion H; subst. eauto. Qed.

Lemma address_chars :
  chars_in (fun c => local_part c || Ascii.eqb c "@")
           (seqs [plus (Chr local_part); chr "@"; host]).
Proof.
  assert (D : forall c, domain_part c = true -> local_part c = true).
  { intros c. unfold domain_part, local_part.
    destruct (is_lower c), (is_upper c), (is_digit c); simpl; auto.
    unfold one_of. simpl. rewrite !orb_false_r.
    destruct (Ascii.eqb c "."); simpl; [reflexivity |].
    destruct (Ascii.eqb c "-"); simpl; [| discriminate].
    intros _. rewrite !orb_true_r. reflexivity. }
  assert (A : forall c, alpha c = true -> local_part c = true).
  { intros c. unfold alpha, local_part.
    destruct (is_lower c), (is_upper c); simpl; auto. discriminate. }
  assert (P : forall c, Ascii.eqb "." c = true -> local_part c = true).
  { intros c H. apply Ascii.eqb_eq in H. subst c. reflexivity. }
  cbv beta iota delta [seqs plus host at_least2 chr chars_in].
  repeat split; intros c H;
    first [ rewrite H; reflexivity
          | rewrite (D c H); reflexivity
          | rewrite (A c H); reflexivity
          | apply Ascii.eqb_eq in H; subst c; reflexivity ].
Qed.

Lemma matches_address st st' :
  matches address st st' ->
  exists w, caps st' = (1%nat, w) :: caps st /\ address_like w.
Proof.
  intro H. unfold address in H.
  apply matches_grp_inv in H. destruct H as (st1 & M & ->).
  destruct (matches_consumed _ _ _ M) as (w & C & F).
  exists w. simpl. split.
  - rewrite (consumed_taken _ _ _ C). f_equal.
    apply (matches_group_free _ _ _ M). reflexivity.
  - split; [apply F, address_chars |].
    cbv beta iota delta [seqs] in M.
    apply matches_seq_inv in M. destruct M as (s1 & M1 & M).
    apply matches_seq_inv in M. destruct M as (s2 & M2 & M3).
    destruct (matches_consumed _ _ _ M1) as (w1 & C1 & _).
    destruct (matches_consumed _ _ _ M3) as (w3 & C3 & _).
    apply matches_chr_inv in M2. destruct M2 as (c & t & R & E & ->).
    apply Ascii.eqb_eq in E. subst c.
    assert (C2 : consumed s1 (MState ("@"%char :: pre s1) t (caps s1))
                          ["@"%char]).
    { split; simpl; [reflexivity | exact R]. }
    pose proof (consumed_trans _ _ _ _ _ C1
                  (consumed_trans _ _ _ _ _ C2 C3)) as C'.
    rewrite (consumed_unique _ _ _ _ C C').
    apply in_or_app. right. left. reflexivity.
Qed.

Lemma captures_address_sound r :
  captures_address r ->
  forall st st', matches r st st' ->
    exists w, caps st' = (1%nat, w) :: caps st /\ address_like w.
Proof.
  induction 1 as [| a b Ha IH Hb | a b Ha Hb IH]; intros st st' M.
  - apply matches_address. exact M.
  - apply matches_seq_inv in M. destruct M as (s1 & M1 & M2).
    destruct (IH _ _ M1) as (w & Hw & G). exists w. split; [| exact G].
    rewrite (matches_group_free _ _ _ M2 Hb). exact Hw.
  - apply matches_seq_inv in M. destruct M as (s1 & M1 & M2).
    destruct (IH _ _ M2) as (w & Hw & G). exists w. split; [| exact G].
    rewrite Hw, (matches_group_free _ _ _ M1 Ha). reflexivity.
Qed.

Ltac find_address :=
  first [ apply ca_here
        | apply ca_right; [reflexivity | find_address]
        | apply ca_left; [find_address | reflexivity] ].

Lemma bounce_checks_patterns_capture :
  Forall captures_address ProcessBounceChecks.emailPatterns.
Proof.
  unfold ProcessBounceChecks.emailPatterns.
  cbv beta iota delta [seqs].
  repeat (constructor; [find_address |]). constructor.
Qed.

Lemma sync_patterns_capture :
  Forall captures_address SyncEmailBounces.emailPatterns.
Proof.
  unfold SyncEmailBounces.emailPatterns.
  cbv beta iota delta [seqs].
  repeat (constructor; [find_address |]). constructor.
Qed.

Lemma first_match_address patterns text m :
  Forall captures_address patterns ->
  first_match patterns text = Some m ->
  exists w, group 1 m = string_of_list_ascii w /\ address_like w.
Proof.
  intros Hall H. apply first_match_found in H.
  destruct H as (before & p & behind & -> & _ & H).
  apply Forall_app in Hall. destruct Hall as [_ Hall].
  inversion Hall as [| ? ? Hp _]; subst.
  apply exec_sound in H.
  destruct H as (b & st' & w & r & _ & M & _ & _ & G & _).
  destruct (captures_address_sound _ Hp _ _ M) as (x & Hx & L).
  exists x. split; [| exact L].
  unfold group. rewrite G, Hx. reflexivity.
Qed.

Lemma lower_address_char c :
  (local_part c || Ascii.eqb c "@") = true ->
  address_char (lower_char c) = true.
Proof.
  destruct c as [[] [] [] [] [] [] [] []]; vm_compute; congruence.
Qed.

Lemma lower_address w :
  address_like w ->
  let r := toLowerCase (string_of_list_ascii w) in
  Forall (fun c => address_char c = true) (list_ascii_of_string r) /\
  In "@"%char (list_ascii_of_string r).
Proof.
  intros [F I] r. subst r. unfold toLowerCase.
  rewrite !chars_of_string_of_chars. split.
  - apply Forall_map. eapply Forall_impl; [| exact F].
    intros c. apply lower_address_char.
  - change "@"%char with (lower_char "@"). apply in_map. exact I.
Qed.

End AddressFacts.

(** X5.  Whatever the subject and the body, a recipient returned by any
    of the three copies of the parser is a lower-cased address: it is
    made of the characters a-z, 0-9 and [._%+-@], it holds an [@], and
    lower-casing it again changes nothing. *)
Theorem parsed_recipient_is_an_address :
  forall parse, In parse ndr_parsers ->
  forall subject body r,
    Ndr.recipientEmail (parse subject body) = Some r ->
    Forall (fun c => address_char c = true) (list_ascii_of_string r) /\
    In "@"%char (list_ascii_of_string r) /\
    Js.toLowerCase r = r.
Proof.
  intros parse Hin subject body r H.
  assert (G : exists patterns text m,
             Forall RegexSpec.captures_address patterns /\
             Ndr.first_match patterns text = Some m /\
             r = Js.toLowerCase (Regex.group 1 m)).
  { unfold ndr_parsers in Hin. simpl in Hin.
    destruct Hin as [<- | [<- | [<- | []]]];
      cbv beta iota zeta delta
          [ProcessBounceChecks.parseNDRContent
             SyncEmailBounces.parseNDRContent
             CheckEmailBounces.parseNDRContent Ndr.recipientEmail] in H;
      match type of H with
      | option_map _ (Ndr.first_match ?ps ?t) = _ =>
          destruct (Ndr.first_match ps t) as [m |] eqn:E;
          [| discriminate];
          simpl in H; injection H as <-; exists ps, t, m
      end;
      (split; [| split; [exact E | reflexivity]]).
    - apply AddressFacts.bounce_checks_patterns_capture.
    - apply AddressFacts.sync_patterns_capture.
    - apply AddressFacts.bounce_checks_patterns_capture. }
  destruct G as (patterns & text & m & Hall & E & ->).
  destruct (AddressFacts.first_match_address _ _ _ Hall E) as (w & -> & L).
  destruct (AddressFacts.lower_address w L) as [F I].
  split; [exact F |]. split; [exact I |]. apply toLowerCase_idempotent.
Qed.

Lemma parsed_recipient_is_an_address_witness :
  Js.toLowerCase "bob@example.com" = "bob@example.com".
Proof.
  apply (parsed_recipient_is_an_address
           ProcessBounceChecks.parseNDRContent (or_introl eq_refl)
           "Undeliverable: Hi"
           "Your message to Bob@Example.com couldn't be delivered.").
  vm_compute. reflexivity.
Defined.

(** X6.  No address pattern of process-bounce-checks that asks for an
    address in angle brackets can match: the sixth pattern never
    matches the cleaned body, so an address that the notice gives only
    in angle brackets is not found by it. *)
Theorem bracket_pattern_never_matches body :
  nth_error ProcessBounceChecks.emailPatterns 5
  = Some (Regex.seqs [Regex.chr "<"; Ndr.address; Regex.chr ">"]) /\
  Regex.exec (Regex.seqs [Regex.chr "<"; Ndr.address; Regex.chr ">"])
             (ProcessBounceChecks.plain_body body) = None.
Proof.
  split; [reflexivity |].
  destruct (Regex.exec _ _) as [m |] eqn:E; [exfalso | reflexivity].
  apply RegexFacts.exec_sound in E.
  destruct E as (b & st' & w & r & Hs & M & C & _).
  cbv beta iota delta [Regex.seqs] in M.
  apply AddressFacts.matches_seq_inv in M. destruct M as (s1 & M1 & M).
  apply AddressFacts.matches_seq_inv in M. destruct M as (s2 & M2 & M3).
  apply AddressFacts.matches_chr_inv in M1.
  destruct M1 as (c1 & t1 & R1 & E1 & ->).
  apply AddressFacts.matches_chr_inv in M3.
  destruct M3 as (c3 & t3 & R3 & E3 & ->).
  apply Ascii.eqb_eq in E1, E3. subst c1 c3.
  destruct (RegexFacts.matches_consumed _ _ _ M2) as (w2 & [_ C2] & _).
  simpl in R1, C2. rewrite R3 in C2.
  pose proof (has_tag_plain_body body) as N.
  rewrite Hs, R1, C2 in N.
  rewrite has_tag_app in N. discriminate.
Qed.

(** *** The text fields of a parsed notice *)

Lemma length_substring0 n s : (String.length (Js.substring0 n s) <= n)%nat.
Proof.
  unfold Js.substring0. rewrite length_string_of_chars.
  rewrite length_firstn. lia.
Qed.

Lemma trimmed_reason_shape s :
  (String.length (Ndr.trimmed_reason s) <= 500)%nat /\
  forall c t, list_ascii_of_string (Ndr.trimmed_reason s) = c :: t ->
              Js.is_space c = false.
Proof.
  split; [apply length_substring0 |].
  unfold Ndr.trimmed_reason, Js.substring0, Js.trim.
  rewrite !chars_of_string_of_chars. intros c t H.
  destruct (Js.trim_chars (list_ascii_of_string s)) as [| x u] eqn:E;
    [discriminate |].
  simpl in H. injection H as -> _. eapply trim_chars_head. exact E.
Qed.

Lemma trim_shape s :
  let t := list_ascii_of_string (Js.trim s) in
  (forall c u, t = c :: u -> Js.is_space c = false) /\
  (forall c u, rev t = c :: u -> Js.is_space c = false).
Proof.
  unfold Js.trim. rewrite chars_of_string_of_chars. split.
  - intros c u. apply trim_chars_head.
  - intros c u. apply trim_chars_last.
Qed.

(** X7.  The text fields of a parsed notice, for the three copies of the
    parser: a reason has at most 500 characters and does not start with
    white space; an original subject neither starts nor ends with white
    space. *)
Theorem parsed_text_fields_are_trimmed :
  forall parse, In parse ndr_parsers ->
  forall subject body,
    (forall x, Ndr.reason (parse subject body) = Some x ->
               (String.length x <= 500)%nat /\
               forall c t, list_ascii_of_string x = c :: t ->
                           Js.is_space c = false) /\
    (forall o, Ndr.originalSubject (parse subject body) = Some o ->
               (forall c t, list_ascii_of_string o = c :: t ->
                            Js.is_space c = false) /\
               (forall c t, rev (list_ascii_of_string o) = c :: t ->
                            Js.is_space c = false)).
Proof.
  intros parse Hin subject body.
  assert (D : (String.length "Email could not be delivered" <= 500)%nat /\
              forall c t,
                list_ascii_of_string "Email could not be delivered" = c :: t ->
                Js.is_space c = false).
  { split; [simpl; lia |]. intros c t H. injection H as <- _. reflexivity. }
  unfold ndr_parsers in Hin. simpl in Hin.
  destruct Hin as [<- | [<- | [<- | []]]];
    cbv beta iota zeta delta
        [ProcessBounceChecks.parseNDRContent SyncEmailBounces.parseNDRContent
           CheckEmailBounces.parseNDRContent Ndr.reason Ndr.originalSubject];
    (split;
     [ intros x H;
       match type of H with
       | (if ?b then _ else _) = _ => destruct b
       end;
       [ injection H as <-; exact D
       | match type of H with
         | option_map _ ?m = _ => destruct m; [| discriminate]
         end;
         simpl in H; injection H as <-; apply trimmed_reason_shape ]
     | intros o H;
       match type of H with
       | option_map _ ?m = _ => destruct m; [| discriminate]
       end;
       simpl in H; injection H as <-; apply trim_shape ]).
Qed.

Lemma parsed_text_fields_are_trimmed_witness :
  (String.length "mailbox unavailable" <= 500)%nat.
Proof.
  apply (proj1 (parsed_text_fields_are_trimmed
                  SyncEmailBounces.parseNDRContent
                  (or_intror (or_introl eq_refl))
                  "Hi" "The mailbox unavailable")
               "mailbox unavailable").
  vm_compute. reflexivity.
Defined.

(** X8.  A failure subject always yields a reason.  When the subject
    contains [undeliverable] or [failure] in any letter case, each copy
    of the parser returns a non-empty reason, whatever the body. *)
Theorem failure_subject_gives_a_reason :
  forall parse, In parse ndr_parsers ->
  forall subject body,
    Js.includes (Js.toLowerCase subject) "undeliverable" = true \/
    Js.includes (Js.toLowerCase subject) "failure" = true ->
    Js.truthy (Ndr.reason (parse subject body)) = true.
Proof.
  intros parse Hin subject body Hs.
  assert (K : (Js.includes (Js.toLowerCase subject) "undeliverable"
               || Js.includes (Js.toLowerCase subject) "failure") = true).
  { destruct Hs as [-> | ->]; [reflexivity | apply orb_true_r]. }
  unfold ndr_parsers in Hin. simpl in Hin.
  destruct Hin as [<- | [<- | [<- | []]]];
    cbv beta iota zeta delta
        [ProcessBounceChecks.parseNDRContent SyncEmailBounces.parseNDRContent
           CheckEmailBounces.parseNDRContent Ndr.reason];
    rewrite K; simpl orb; rewrite andb_true_r;
    match goal with
    | |- Js.truthy (if negb (Js.truthy ?r) then _ else _) = true =>
        destruct (Js.truthy r) eqn:E; simpl; [exact E | reflexivity]
    end.
Qed.

Lemma failure_subject_gives_a_reason_witness :
  Js.truthy
    (Ndr.reason
       (CheckEmailBounces.parseNDRContent "Delivery FAILURE" "no details"))
  = true.
Proof.
  apply (failure_subject_gives_a_reason
           CheckEmailBounces.parseNDRContent
           (or_intror (or_intror (or_introl eq_refl)))).
  right. vm_compute. reflexivity.
Defined.

(** *** Invariants closed under the writes of the handlers

    The invariant [I] may speak of every table.  [K e] is known of a
    row of [email_history] that a handler has read, [J c] of a contact
    it has read.  Each lemma depends on the hypotheses for the writes
    its handler can issue, and on no other. *)

Lemma single_In {A} (l : list A) x : Store.single l = Some x -> In x l.
Proof.
  destruct l as [| a [| b t]]; simpl; try discriminate.
  intro H. injection H as ->. left. reflexivity.
Qed.

Section Frame.

Import Store.

Variable I : DB -> Prop.
Variable K : EmailHistory -> Prop.
Variable J : Contact -> Prop.

Hypothesis K_intro : forall d e, I d -> In e (email_history d) -> K e.
Hypothesis J_intro : forall d c, I d -> In c (contacts d) -> J c.
Hypothesis F_invalid :
  forall i d, I d -> I (update_email i TrackEmailOpen.mark_invalid d).
Hypothesis F_open :
  forall i e ip now d,
    I d -> I (update_email i (TrackEmailOpen.apply_open e ip now) d).
Hypothesis F_bounced :
  forall i reason t d, I d -> I (update_email i (mark_bounced reason t) d).
Hypothesis F_replied :
  forall i e reply d,
    I d -> I (update_email i (ProcessEmailReplies.apply_reply e reply) d).
Hypothesis F_marked :
  forall i bt reason t d,
    I d -> I (update_email i (MarkEmailBounced.mark_as bt reason t) d).
Hypothesis F_notify : forall n d, I d -> I (insert_notification n d).
Hypothesis F_reply :
  forall e reply d,
    K e -> I d -> I (insert_reply (ProcessEmailReplies.reply_row e reply) d).
Hypothesis F_checks :
  forall ids res d, I d -> I (ProcessBounceChecks.mark_checks ids res d).
Hypothesis F_delete :
  forall t d, I d -> I (ProcessBounceChecks.delete_old_checks t d).
Hypothesis F_credit :
  forall cid c d,
    J c -> I d -> I (update_contact cid (TrackEmailOpen.credit_contact c) d).
Hypothesis F_debit :
  forall cid c d,
    J c -> I d -> I (update_contact cid (SyncEmailBounces.debit_contact c) d).
Hypothesis F_uncredit :
  forall cid c d,
    J c -> I d ->
    I (update_contact cid (MarkEmailBounced.uncredit_contact c) d).

Local Ltac frun :=
  repeat (first [ keeps_step
                | apply keeps_write; intros ? ?; solve [eauto] ]).

(** A contact that has been read satisfies [J]. *)
Lemma fetch_contact faults cid :
  triple I (query faults (fun d => single (select_contact cid d)))
         (fun found d => I d /\ forall c, found = Some (Some c) -> J c)
         I.
Proof.
  apply triple_query. intros d Hd. repeat split; auto.
  - intros c H. injection H as H. apply single_In in H.
    apply filter_In in H. destruct H as [H _]. eapply J_intro; eassumption.
  - intros c H. discriminate.
Qed.

Lemma frame_first_open_effects faults e :
  keeps I (TrackEmailOpen.first_open_effects faults e).
Proof.
  unfold TrackEmailOpen.first_open_effects.
  apply keeps_bind; [frun | intros _].
  destruct (Js.truthy (contact_id e)); [| apply keeps_ret].
  destruct (contact_id e) as [cid |]; [| apply keeps_ret].
  eapply triple_bind; [apply fetch_contact |].
  intros found. destruct found as [[c |] |];
    try (apply triple_ret; intros d [Hd _]; exact Hd).
  eapply triple_bind with (Q1 := fun _ => I);
    [| intro; apply triple_ret; auto].
  apply triple_write. intros d [Hd Hc]. repeat split; auto.
Qed.

Lemma frame_track_open faults now req :
  keeps I (TrackEmailOpen.handler faults now req).
Proof.
  unfold TrackEmailOpen.handler, TrackEmailOpen.handler_body.
  apply keeps_try_catch; [| intro; apply keeps_ret].
  destruct (negb (Js.truthy (TrackEmailOpen.id_param req)));
    [apply keeps_ret |].
  destruct (TrackEmailOpen.id_param req) as [emailId |]; [| apply keeps_ret].
  destruct (TrackEmailOpen.isBotUserAgent (TrackEmailOpen.user_agent req)).
  { frun. }
  apply keeps_bind; [apply keeps_query |].
  intros [[emailData |] |]; try apply keeps_ret.
  destruct (bounce_type emailData); [apply keeps_ret |].
  destruct (seconds_below _ _); [frun |].
  apply keeps_bind; [frun | intros _].
  apply keeps_bind; [| intro; apply keeps_ret].
  destruct (num (open_count emailData) =? 0)%Z;
    [apply frame_first_open_effects | apply keeps_ret].
Qed.

Lemma frame_pending_check faults now ndrs acc check :
  keeps I (ProcessBounceChecks.pending_check faults now ndrs acc check).
Proof.
  unfold ProcessBounceChecks.pending_check. destruct check as [c eh].
  destruct (email_history_id c); frun.
Qed.

Lemma frame_bounce_checks faults now env idp graph req :
  keeps I (ProcessBounceChecks.serve faults now env idp graph req).
Proof.
  unfold ProcessBounceChecks.serve, ProcessBounceChecks.serve_body.
  destruct (ProcessBounceChecks.is_options req); [apply keeps_ret |].
  apply keeps_try_catch; [| intro; apply keeps_ret].
  destruct (fst _); [| apply keeps_ret].
  apply keeps_bind.
  { unfold ProcessBounceChecks.pending_pass.
    apply keeps_bind; [apply keeps_query | intro pending].
    destruct (ProcessBounceChecks.group_pending _ _ _)
      as [processed bySender].
    apply keeps_bind.
    - apply keeps_fold_m. intros s [sender checks] _.
      unfold ProcessBounceChecks.pending_sender.
      destruct checks; [apply keeps_ret |].
      apply keeps_fold_m. intros. apply frame_pending_check.
    - intro acc. frun. }
  intros [acc processedSenders].
  apply keeps_bind.
  { unfold ProcessBounceChecks.general_sweep.
    apply keeps_bind; [apply keeps_query | intro recent].
    destruct recent as [[| e l] |]; try apply keeps_ret.
    apply keeps_fold_m. intros found [sender emails] _.
    unfold ProcessBounceChecks.sweep_sender.
    destruct (ProcessBounceChecks.mem _ _); [apply keeps_ret |].
    apply keeps_fold_m. intros.
    unfold ProcessBounceChecks.sweep_email. frun. }
  intro g. frun.
Qed.

Lemma frame_bounce_email faults reason t email :
  keeps I (SyncEmailBounces.bounce_email faults reason t email).
Proof.
  unfold SyncEmailBounces.bounce_email.
  apply keeps_bind; [frun | intros _].
  destruct (_ && _); [| apply keeps_ret].
  destruct (contact_id email) as [cid |]; [| apply keeps_ret].
  eapply triple_bind; [apply fetch_contact |].
  intros found. destruct found as [[c |] |];
    try (apply triple_ret; intros d [Hd _]; exact Hd).
  eapply triple_bind with (Q1 := fun _ => I);
    [| intro; apply triple_ret; auto].
  apply triple_write. intros d [Hd Hc]. repeat split; auto.
Qed.

Lemma frame_bounce_emails faults reason t recipient emails acc :
  keeps I (SyncEmailBounces.bounce_emails faults reason t recipient emails acc).
Proof.
  revert acc. induction emails as [| e l IH]; intro acc; simpl.
  - apply keeps_ret.
  - apply keeps_bind.
    + apply keeps_attempt. apply frame_bounce_email.
    + intros [u |]; [apply IH | apply keeps_ret].
Qed.

Lemma frame_process_ndrs faults now ilike sender hrs ndrs acc :
  keeps I (SyncEmailBounces.process_ndrs faults now ilike sender hrs ndrs acc).
Proof.
  revert acc. induction ndrs as [| n l IH]; intro acc; simpl.
  - apply keeps_ret.
  - apply keeps_bind.
    + unfold SyncEmailBounces.process_ndr.
      destruct (negb _); [apply keeps_ret |].
      destruct (Ndr.recipientEmail _); [| apply keeps_ret].
      apply keeps_bind; [apply keeps_attempt, keeps_query |].
      intros found. destruct found as [[[| e0 l0] |] |]; try apply keeps_ret.
      apply frame_bounce_emails.
    + intros [acc' [|]]; [apply IH | apply keeps_ret].
Qed.

Lemma frame_sync_bounces faults now env idp getUser search ilike req :
  keeps I (SyncEmailBounces.serve faults now env idp getUser search ilike req).
Proof.
  unfold SyncEmailBounces.serve, SyncEmailBounces.serve_body.
  destruct (SyncEmailBounces.is_options req); [apply keeps_ret |].
  apply keeps_try_catch; [| intro; apply keeps_ret].
  destruct (negb _); [apply keeps_ret |].
  destruct (SyncEmailBounces.authorization req); [| apply keeps_ret].
  destruct (negb _); [apply keeps_ret |].
  apply keeps_bind.
  - destruct (Js.truthy _); [apply keeps_ret |].
    apply keeps_bind; [apply keeps_query | intro; apply keeps_ret].
  - intros [| s0 l]; [apply keeps_ret |].
    destruct (fst _); [| apply keeps_throw].
    apply keeps_bind; [| intro; apply keeps_ret].
    apply keeps_fold_m. intros acc sender _.
    unfold SyncEmailBounces.process_sender.
    destruct (search _ _); [apply frame_process_ndrs | apply keeps_ret].
Qed.

Lemma frame_process_reply faults index acc reply :
  Forall (fun entry => K (snd entry)) index ->
  keeps I (ProcessEmailReplies.process_reply faults index acc reply).
Proof.
  intro Hidx. unfold ProcessEmailReplies.process_reply.
  destruct (negb _); [apply keeps_ret |].
  destruct (ProcessEmailReplies.in_reply_to reply); [| apply keeps_ret].
  destruct (ProcessEmailReplies.lookup_original index s) as [e |] eqn:E;
    [| apply keeps_ret].
  pose proof (lookup_original_all K _ _ _ Hidx E) as Hk.
  frun.
Qed.

Lemma frame_replies faults now env idp inbox req :
  keeps I (ProcessEmailReplies.serve faults now env idp inbox req).
Proof.
  unfold ProcessEmailReplies.serve, ProcessEmailReplies.serve_body.
  destruct (ProcessEmailReplies.is_options req); [apply keeps_ret |].
  apply keeps_try_catch; [| intro; apply keeps_ret].
  destruct (fst _); [| apply keeps_ret].
  eapply triple_bind with
    (Q1 := fun sent d =>
             I d /\
             Forall K (match sent with Some l => l | None => [] end)).
  { apply triple_query. intros d Hd. repeat split; auto.
    apply Forall_forall. intros e He.
    unfold ProcessEmailReplies.select_sent in He.
    apply In_sort_desc, filter_In in He. destruct He as [Hin _].
    eapply K_intro; eassumption. }
  intro sent. apply triple_pure. intro Hgood. as_keeps.
  destruct sent as [[| e l] |]; try apply keeps_ret.
  pose proof (group_by_sender_all _ _ Hgood) as Hg.
  apply keeps_bind; [| intro; apply keeps_ret].
  apply keeps_fold_m. intros acc [sender emails] Hin.
  unfold ProcessEmailReplies.process_sender.
  assert (Hall : Forall K emails).
  { unfold values_all in Hg. rewrite Forall_forall in Hg. apply (Hg _ Hin). }
  apply keeps_fold_m. intros. apply frame_process_reply.
  apply (index_by_message_id_all K). exact Hall.
Qed.

Lemma frame_checkBounceForEmail faults now search sender recipient target
  sentAt :
  keeps I (CheckEmailBounces.checkBounceForEmail faults now search sender
             recipient target sentAt).
Proof.
  unfold CheckEmailBounces.checkBounceForEmail.
  apply keeps_try_catch; [| intro; apply keeps_ret].
  destruct (search _ _) as [msgs |]; [| apply keeps_ret].
  induction (filter ProcessBounceChecks.is_ndr_message msgs) as [| n l IH];
    simpl.
  - apply keeps_ret.
  - destruct (_ && _); [| exact IH].
    destruct target; frun.
Qed.

Lemma frame_check_bounces faults now env idp search req :
  keeps I (CheckEmailBounces.serve faults now env idp search req).
Proof.
  unfold CheckEmailBounces.serve, CheckEmailBounces.serve_body.
  destruct (CheckEmailBounces.is_options req); [apply keeps_ret |].
  apply keeps_try_catch; [| intro; apply keeps_ret].
  destruct (fst _); [| apply keeps_ret].
  apply keeps_bind.
  { unfold CheckEmailBounces.pending_pass.
    apply keeps_bind; [apply keeps_query | intro pending].
    destruct pending as [[| c0 l0] |]; try apply keeps_ret.
    apply keeps_bind.
    - apply keeps_fold_m. intros [processed found] [c eh] _.
      unfold CheckEmailBounces.pending_check.
      destruct eh as [e |]; [| apply keeps_ret].
      destruct (status_eqb (status e) bounced); [apply keeps_ret |].
      apply keeps_bind; [| intro; apply keeps_ret].
      apply frame_checkBounceForEmail.
    - intros [processed found]. frun. }
  intros [processed found].
  apply keeps_bind.
  { unfold CheckEmailBounces.general_sweep.
    apply keeps_bind; [apply keeps_query | intro recent].
    destruct recent as [[| e l] |]; try apply keeps_ret.
    apply keeps_fold_m. intros acc sender _.
    apply keeps_fold_m. intros acc' email _.
    unfold CheckEmailBounces.sweep_email.
    apply keeps_bind; [| intro; apply keeps_ret].
    apply frame_checkBounceForEmail. }
  intro g. frun.
Qed.

Lemma frame_mark_bounced faults now req :
  keeps I (MarkEmailBounced.handler faults now req).
Proof.
  unfold MarkEmailBounced.handler, MarkEmailBounced.handler_body.
  destruct (MarkEmailBounced.is_options req); [apply keeps_ret |].
  apply keeps_try_catch; [| intro; apply keeps_ret].
  destruct (negb _); [apply keeps_ret |].
  destruct (MarkEmailBounced.emailId req) as [i |]; [| apply keeps_ret].
  apply keeps_bind; [apply keeps_query |].
  intros [[emailData |] |]; try apply keeps_ret.
  apply keeps_bind; [frun | intro updated].
  destruct (negb updated); [apply keeps_ret |].
  apply keeps_bind; [| intro; apply keeps_ret].
  destruct (_ && _); [| apply keeps_ret].
  destruct (contact_id emailData) as [cid |]; [| apply keeps_ret].
  eapply triple_bind; [apply fetch_contact |].
  intros found. destruct found as [[c |] |];
    try (apply triple_ret; intros d [Hd _]; exact Hd).
  destruct (0 <? num (email_opens c))%Z;
    [| apply triple_ret; intros d [Hd _]; exact Hd].
  eapply triple_bind with (Q1 := fun _ => I);
    [| intro; apply triple_ret; auto].
  apply triple_write. intros d [Hd Hc]. repeat split; auto.
Qed.

Lemma frame_core_step d d' : core_step d d' -> I d -> I d'.
Proof.
  intros Hstep Hd. destruct Hstep; unfold after.
  - apply keeps_after; [apply frame_track_open | exact Hd].
  - apply keeps_after; [apply frame_bounce_checks | exact Hd].
  - apply keeps_after; [apply frame_sync_bounces | exact Hd].
  - apply keeps_after; [apply frame_replies | exact Hd].
  - apply keeps_after; [apply frame_check_bounces | exact Hd].
Qed.

Lemma frame_lifecycle_step d d' : lifecycle_step d d' -> I d -> I d'.
Proof.
  intros Hstep Hd. destruct Hstep as [d d' Hstep | faults now req d].
  - eapply frame_core_step; eassumption.
  - unfold after. apply keeps_after; [apply frame_mark_bounced | exact Hd].
Qed.

End Frame.

(** *** What the handlers leave alone *)

Lemma lifecycle_run_keeps (I : DB -> Prop) d d' :
  (forall a b, lifecycle_step a b -> I a -> I b) ->
  lifecycle_run d d' -> I d -> I d'.
Proof.
  intros Hstep Hrun. induction Hrun as [d | d d1 d2 H1 _ IH]; intro Hd.
  - exact Hd.
  - apply IH. eapply Hstep; eassumption.
Qed.

(** X9.  The tables each function writes.  Whatever the request, the
    outside world and the faults of the store:
    the tracking endpoint leaves [pending_bounce_checks] and
    [email_replies] as they are; process-bounce-checks leaves
    [email_replies] and [contacts]; sync-email-bounces leaves
    [pending_bounce_checks], [email_replies] and [notifications];
    process-email-replies leaves [pending_bounce_checks] and [contacts];
    the earlier bounce checker leaves [email_replies], [contacts] and
    [notifications]; the manual bounce endpoint leaves
    [pending_bounce_checks], [email_replies] and [notifications]. *)
Theorem handler_footprints d :
  (forall faults now req,
      let d' := after (TrackEmailOpen.handler faults now req) d in
      pending_bounce_checks d' = pending_bounce_checks d /\
      email_replies d' = email_replies d) /\
  (forall faults now env idp graph req,
      let d' := after (ProcessBounceChecks.serve faults now env idp graph req)
                      d in
      email_replies d' = email_replies d /\ contacts d' = contacts d) /\
  (forall faults now env idp getUser search ilike req,
      let d' := after (SyncEmailBounces.serve faults now env idp getUser
                                              search ilike req) d in
      pending_bounce_checks d' = pending_bounce_checks d /\
      email_replies d' = email_replies d /\
      notifications d' = notifications d) /\
  (forall faults now env idp inbox req,
      let d' := after (ProcessEmailReplies.serve faults now env idp inbox req)
                      d in
      pending_bounce_checks d' = pending_bounce_checks d /\
      contacts d' = contacts d) /\
  (forall faults now env idp search req,
      let d' := after (CheckEmailBounces.serve faults now env idp search req)
                      d in
      email_replies d' = email_replies d /\ contacts d' = contacts d /\
      notifications d' = notifications d) /\
  (forall faults now req,
      let d' := after (MarkEmailBounced.handler faults now req) d in
      pending_bounce_checks d' = pending_bounce_checks d /\
      email_replies d' = email_replies d /\
      notifications d' = notifications d).
Proof.
  repeat apply conj; intros; cbv zeta; repeat apply conj; unfold after.
  - apply (keeps_after (fun x => pending_bounce_checks x
                                 = pending_bounce_checks d));
      [| reflexivity].
    apply frame_track_open with (J := fun _ => True); auto.
  - apply (keeps_after (fun x => email_replies x = email_replies d));
      [| reflexivity].
    apply frame_track_open with (J := fun _ => True); auto.
  - apply (keeps_after (fun x => email_replies x = email_replies d));
      [| reflexivity].
    apply frame_bounce_checks; auto.
  - apply (keeps_after (fun x => contacts x = contacts d)); [| reflexivity].
    apply frame_bounce_checks; auto.
  - apply (keeps_after (fun x => pending_bounce_checks x
                                 = pending_bounce_checks d));
      [| reflexivity].
    apply frame_sync_bounces with (J := fun _ => True); auto.
  - apply (keeps_after (fun x => email_replies x = email_replies d));
      [| reflexivity].
    apply frame_sync_bounces with (J := fun _ => True); auto.
  - apply (keeps_after (fun x => notifications x = notifications d));
      [| reflexivity].
    apply frame_sync_bounces with (J := fun _ => True); auto.
  - apply (keeps_after (fun x => pending_bounce_checks x
                                 = pending_bounce_checks d));
      [| reflexivity].
    apply frame_replies with (K := fun _ => True); auto.
  - apply (keeps_after (fun x => contacts x = contacts d)); [| reflexivity].
    apply frame_replies with (K := fun _ => True); auto.
  - apply (keeps_after (fun x => email_replies x = email_replies d));
      [| reflexivity].
    apply frame_check_bounces; auto.
  - apply (keeps_after (fun x => contacts x = contacts d)); [| reflexivity].
    apply frame_check_bounces; auto.
  - apply (keeps_after (fun x => notifications x = notifications d));
      [| reflexivity].
    apply frame_check_bounces; auto.
  - apply (keeps_after (fun x => pending_bounce_checks x
                                 = pending_bounce_checks d));
      [| reflexivity].
    apply frame_mark_bounced with (J := fun _ => True); auto.
  - apply (keeps_after (fun x => email_replies x = email_replies d));
      [| reflexivity].
    apply frame_mark_bounced with (J := fun _ => True); auto.
  - apply (keeps_after (fun x => notifications x = notifications d));
      [| reflexivity].
    apply frame_mark_bounced with (J := fun _ => True); auto.
Qed.

(** *** What was sent is never rewritten *)

Lemma same_message_refl r : same_message r r.
Proof. repeat split. Qed.

Lemma same_message_trans a b c :
  same_message a b -> same_message b c -> same_message a c.
Proof.
  unfold same_message. intros H1 H2.
  repeat match goal with H : _ /\ _ |- _ => destruct H end.
  repeat split; congruence.
Qed.

Lemma status_moves_on_trans a b c :
  status_moves_on a b -> status_moves_on b c -> status_moves_on a c.
Proof.
  unfold status_moves_on. intros H1 [H2 | H2]; [| right; exact H2].
  rewrite H2. exact H1.
Qed.

Ltac same_row :=
  match goal with
  | H : same_message _ _ /\ status_moves_on _ _ |- _ =>
      destruct H as [Hm Hs]; split;
      [ unfold same_message in *; simpl;
        repeat match goal with H : _ /\ _ |- _ => destruct H end;
        repeat split; assumption
      | unfold status_moves_on in *; simpl; tauto ]
  end.

(** X10.  No function of the core, and not the manual bounce endpoint,
    adds, removes or reorders rows of [email_history], and none rewrites
    what was sent: after any number of invocations every row has its id,
    recipient, sender, subject, author, send time, contact, lead and
    message id, and its status is the old one or one of opened, bounced
    and replied. *)
Theorem sent_message_is_never_rewritten d d' :
  lifecycle_run d d' ->
  rows_rel (fun r0 r => same_message r0 r /\ status_moves_on r0 r) d d'.
Proof.
  intro Hrun.
  apply (lifecycle_run_keeps
           (rows_rel (fun r0 r => same_message r0 r /\ status_moves_on r0 r)
                     d) d d'); [| exact Hrun |].
  - intros a b Hstep Ha.
    apply (frame_lifecycle_step
             (rows_rel (fun r0 r => same_message r0 r /\ status_moves_on r0 r)
                       d)
             (fun _ => True) (fun _ => True)) with (d := a);
      try exact Hstep; try exact Ha; auto;
      try (intros; apply rel_update; [| assumption]; intros; same_row).
  - apply Forall2_refl. intro x. split; [apply same_message_refl |].
    left. reflexivity.
Qed.

Lemma sent_message_is_never_rewritten_witness :
  rows_rel (fun r0 r => same_message r0 r /\ status_moves_on r0 r)
           Example.db0 Example.db1.
Proof.
  apply sent_message_is_never_rewritten.
  eapply Relation_Operators.rt1n_trans; [| apply rt1n_refl].
  apply step_core.
  exact (step_track_open Store.reliable (Example.t0 + 10 * 1000)%Z
           (Example.pixel_request Example.browser "1.1.1.1") Example.db0).
Defined.

(** *** Contacts *)

(** X11.  The engagement columns stay within their bounds.  If every
    contact has a non-negative number of opens and a score between 0
    and 100, this is still so after any number of invocations of the
    core and of the manual bounce endpoint, whatever the store does; and
    no contact is added, removed or renamed. *)
Theorem engagement_stays_in_range d d' :
  lifecycle_run d d' ->
  Forall contact_in_range (contacts d) ->
  Forall contact_in_range (contacts d') /\
  map c_id (contacts d') = map c_id (contacts d).
Proof.
  intros Hrun Hd.
  apply (lifecycle_run_keeps
           (fun x => Forall contact_in_range (contacts x) /\
                     map c_id (contacts x) = map c_id (contacts d)) d d');
    [| exact Hrun | split; [exact Hd | reflexivity]].
  intros a b Hstep Ha.
  apply (frame_lifecycle_step
           (fun x => Forall contact_in_range (contacts x) /\
                     map c_id (contacts x) = map c_id (contacts d))
           (fun _ => True) contact_in_range) with (d := a);
    try exact Hstep; try exact Ha; auto.
  - intros x c [Hx _] Hin. rewrite Forall_forall in Hx. auto.
  - intros cid c x [Hlo Hhi] [Hx Hids].
    unfold Store.update_contact, Store.update_where. simpl. split.
    + apply Forall_map. eapply Forall_impl; [| exact Hx].
      intros y Hy. destruct (String.eqb (c_id y) cid); [| exact Hy].
      unfold contact_in_range, TrackEmailOpen.credit_contact. simpl. lia.
    + rewrite <- Hids, map_map. apply map_ext. intro y.
      destruct (String.eqb (c_id y) cid); reflexivity.
  - intros cid c x [Hlo Hhi] [Hx Hids].
    unfold Store.update_contact, Store.update_where. simpl. split.
    + apply Forall_map. eapply Forall_impl; [| exact Hx].
      intros y Hy. destruct (String.eqb (c_id y) cid); [| exact Hy].
      unfold contact_in_range, SyncEmailBounces.debit_contact. simpl. lia.
    + rewrite <- Hids, map_map. apply map_ext. intro y.
      destruct (String.eqb (c_id y) cid); reflexivity.
  - intros cid c x [Hlo Hhi] [Hx Hids].
    unfold Store.update_contact, Store.update_where. simpl. split.
    + apply Forall_map. eapply Forall_impl; [| exact Hx].
      intros y Hy. destruct (String.eqb (c_id y) cid); [| exact Hy].
      unfold contact_in_range, MarkEmailBounced.uncredit_contact. simpl. lia.
    + rewrite <- Hids, map_map. apply map_ext. intro y.
      destruct (String.eqb (c_id y) cid); reflexivity.
Qed.

Lemma engagement_stays_in_range_witness :
  Forall contact_in_range (contacts Example.db1).
Proof.
  apply (engagement_stays_in_range Example.db0 Example.db1).
  - eapply Relation_Operators.rt1n_trans; [| apply rt1n_refl].
    apply step_core.
    exact (step_track_open Store.reliable (Example.t0 + 10 * 1000)%Z
             (Example.pixel_request Example.browser "1.1.1.1") Example.db0).
  - vm_compute. constructor; [| constructor]. split; [| split]; discriminate.
Defined.

(** *** Tables that only grow, and the table of pending checks *)

Lemma same_check_refl c : same_check c c.
Proof. repeat split; auto. Qed.

(** X12.  Notifications and recorded replies are only ever appended, and
    no function of the core creates a pending check: after any number
    of invocations the old notifications and replies are a prefix of the
    new ones, and every pending check is one of the old checks with its
    id, email, sender, recipient, due time and creation time; a check
    that was checked is still checked. *)
Theorem logs_only_grow_and_no_check_is_created d d' :
  lifecycle_run d d' ->
  (exists added, notifications d' = (notifications d ++ added)%list) /\
  (exists added, email_replies d' = (email_replies d ++ added)%list) /\
  Forall (fun c' => exists c, In c (pending_bounce_checks d) /\
                              same_check c c')
         (pending_bounce_checks d').
Proof.
  intro Hrun.
  set (I := fun x : DB =>
              (exists added,
                  notifications x = (notifications d ++ added)%list) /\
              (exists added,
                  email_replies x = (email_replies d ++ added)%list) /\
              Forall (fun c' => exists c, In c (pending_bounce_checks d) /\
                                          same_check c c')
                     (pending_bounce_checks x)).
  apply (lifecycle_run_keeps I d d'); [| exact Hrun |].
  - intros a b Hstep Ha.
    apply (frame_lifecycle_step I (fun _ => True) (fun _ => True))
      with (d := a); try exact Hstep; try exact Ha; auto.
    + intros n x ([l Hl] & Hr & Hp). split; [| split; assumption].
      exists (l ++ [n])%list. unfold Store.insert_notification. simpl.
      rewrite Hl, app_assoc. reflexivity.
    + intros e reply x _ (Hn & [l Hl] & Hp).
      split; [exact Hn |]. split; [| exact Hp].
      exists (l ++ [ProcessEmailReplies.reply_row e reply])%list.
      unfold Store.insert_reply. simpl.
      rewrite Hl, app_assoc. reflexivity.
    + intros ids res x (Hn & Hr & Hp).
      split; [exact Hn |]. split; [exact Hr |].
      unfold ProcessBounceChecks.mark_checks, Store.update_where. simpl.
      apply Forall_map. eapply Forall_impl; [| exact Hp].
      intros c [c0 [Hin Hc]].
      destruct (ProcessBounceChecks.mem (pc_id c) ids); [| eauto].
      exists c0. split; [exact Hin |].
      unfold same_check in *. simpl. tauto.
    + intros t x (Hn & Hr & Hp).
      split; [exact Hn |]. split; [exact Hr |].
      unfold ProcessBounceChecks.delete_old_checks. simpl.
      apply Forall_forall. intros c Hc. apply filter_In in Hc.
      rewrite Forall_forall in Hp. apply Hp. tauto.
  - split; [exists []; rewrite app_nil_r; reflexivity |].
    split; [exists []; rewrite app_nil_r; reflexivity |].
    apply Forall_forall. intros c Hc. exists c. split; [exact Hc |].
    apply same_check_refl.
Qed.

Lemma logs_only_grow_and_no_check_is_created_witness :
  exists added,
    notifications Example.db1 = (notifications Example.db0 ++ added)%list.
Proof.
  apply (logs_only_grow_and_no_check_is_created Example.db0 Example.db1).
  eapply Relation_Operators.rt1n_trans; [| apply rt1n_refl].
  apply step_core.
  exact (step_track_open Store.reliable (Example.t0 + 10 * 1000)%Z
           (Example.pixel_request Example.browser "1.1.1.1") Example.db0).
Defined.

(** *** Replies and the rows they belong to *)

(** X13.  Every recorded reply belongs to a row of [email_history]: if
    this is so in a store, it is so after any number of invocations of
    the core and of the manual bounce endpoint, whatever the mailbox
    returns and whatever the store does. *)
Theorem replies_belong_to_emails d d' :
  lifecycle_run d d' -> replies_refer d -> replies_refer d'.
Proof.
  intros Hrun Hd.
  set (I := fun x : DB =>
              map id (email_history x) = map id (email_history d) /\
              replies_refer x).
  assert (Hupd : forall i f x,
             (forall r, id (f r) = id r) -> I x -> I (Store.update_email i f x)).
  { intros i f x Hf [Hids Hr]. split.
    - rewrite <- Hids. unfold Store.update_email, Store.update_where. simpl.
      rewrite map_map. apply map_ext. intro r.
      destruct (Store.has_id i r); auto.
    - intros r Hin. specialize (Hr r Hin).
      unfold Store.update_email, Store.update_where. simpl.
      rewrite map_map.
      rewrite (map_ext (fun r0 => id (if Store.has_id i r0 then f r0 else r0))
                       id); [exact Hr |].
      intro r0. destruct (Store.has_id i r0); auto. }
  apply (lifecycle_run_keeps I d d'); [| exact Hrun | split; auto].
  intros a b Hstep Ha.
  apply (frame_lifecycle_step I
           (fun e => In (id e) (map id (email_history d))) (fun _ => True))
    with (d := a); try exact Hstep; try exact Ha; auto;
    try (intros; apply Hupd; [reflexivity | assumption]).
  - intros x e [Hids _] Hin. rewrite <- Hids. apply in_map. exact Hin.
  - intros e reply x Hk [Hids Hr]. split; [exact Hids |].
    intros r Hin. unfold Store.insert_reply in Hin. simpl in Hin.
    apply in_app_or in Hin. destruct Hin as [Hin | [<- | []]].
    + apply (Hr r Hin).
    + simpl. rewrite Hids. exact Hk.
Qed.

(** *** Every service answers *)

(** A handler whose every normal exit returns a response with one of
    the status codes [codes]. *)
Ltac answers_step :=
  match goal with
  | |- triple _ (Store.ret _) _ _ => apply triple_ret; intros; simpl; tauto
  | |- triple _ (Store.throw _) _ _ => apply triple_throw; intros; exact Logic.I
  | |- triple _ (Store.bind _ _) _ _ =>
      eapply triple_bind with (Q1 := fun _ _ => True);
      [apply triple_any | intro]
  | |- triple _ (if ?b then _ else _) _ _ => destruct b
  | |- triple _ (match ?x with _ => _ end) _ _ => destruct x
  end.

Lemma answers {A} (m : Store.M A) (Q : A -> Prop) w :
  triple (fun _ => True) m (fun r _ => Q r) (fun _ => False) ->
  exists r, fst (m w) = Store.Ok r /\ Q r.
Proof.
  intro H. specialize (H w Logic.I).
  destruct (m w) as [[r | e] w']; simpl in *; [eauto | contradiction].
Qed.

(** X14.  Every service answers.  Whatever the request, the outside
    world and the faults of the store, each of the four scheduled or
    interactive bounce and reply services, and the manual bounce
    endpoint, ends with a response and not with an exception, and the
    status of that response is 200 or 500 (or 401 for
    sync-email-bounces, or 400 or 404 for the manual endpoint). *)
Theorem services_always_answer faults now env idp w :
  (forall graph req,
      exists r,
        fst (ProcessBounceChecks.serve faults now env idp graph req w)
        = Store.Ok r /\
        (http_status r = 200 \/ http_status r = 500)%Z) /\
  (forall getUser search ilike req,
      exists r,
        fst (SyncEmailBounces.serve faults now env idp getUser search ilike
                                    req w)
        = Store.Ok r /\
        (http_status r = 200 \/ http_status r = 401 \/ http_status r = 500)%Z)
  /\
  (forall inbox req,
      exists r,
        fst (ProcessEmailReplies.serve faults now env idp inbox req w)
        = Store.Ok r /\
        (http_status r = 200 \/ http_status r = 500)%Z) /\
  (forall search req,
      exists r,
        fst (CheckEmailBounces.serve faults now env idp search req w)
        = Store.Ok r /\
        (http_status r = 200 \/ http_status r = 500)%Z) /\
  (forall req,
      exists r,
        fst (MarkEmailBounced.handler faults now req w) = Store.Ok r /\
        (http_status r = 200 \/ http_status r = 400 \/ http_status r = 404 \/
         http_status r = 500)%Z).
Proof.
  repeat apply conj; intros.
  - apply (answers _ (fun r => http_status r = 200 \/ http_status r = 500)%Z).
    unfold ProcessBounceChecks.serve.
    destruct (ProcessBounceChecks.is_options req);
      [apply triple_ret; intros; simpl; tauto |].
    eapply triple_try_catch with (E1 := fun _ => True);
      [| intro; apply triple_ret; intros; simpl; tauto].
    unfold ProcessBounceChecks.serve_body. repeat answers_step.
  - apply (answers _ (fun r => http_status r = 200 \/ http_status r = 401 \/
                               http_status r = 500)%Z).
    unfold SyncEmailBounces.serve.
    destruct (SyncEmailBounces.is_options req);
      [apply triple_ret; intros; simpl; tauto |].
    eapply triple_try_catch with (E1 := fun _ => True);
      [| intro; apply triple_ret; intros; simpl; tauto].
    unfold SyncEmailBounces.serve_body. repeat answers_step.
  - apply (answers _ (fun r => http_status r = 200 \/ http_status r = 500)%Z).
    unfold ProcessEmailReplies.serve.
    destruct (ProcessEmailReplies.is_options req);
      [apply triple_ret; intros; simpl; tauto |].
    eapply triple_try_catch with (E1 := fun _ => True);
      [| intro; apply triple_ret; intros; simpl; tauto].
    unfold ProcessEmailReplies.serve_body. repeat answers_step.
  - apply (answers _ (fun r => http_status r = 200 \/ http_status r = 500)%Z).
    unfold CheckEmailBounces.serve.
    destruct (CheckEmailBounces.is_options req);
      [apply triple_ret; intros; simpl; tauto |].
    eapply triple_try_catch with (E1 := fun _ => True);
      [| intro; apply triple_ret; intros; simpl; tauto].
    unfold CheckEmailBounces.serve_body. repeat answers_step.
  - apply (answers _ (fun r => http_status r = 200 \/ http_status r = 400 \/
                               http_status r = 404 \/ http_status r = 500)%Z).
    unfold MarkEmailBounced.handler.
    destruct (MarkEmailBounced.is_options req);
      [apply triple_ret; intros; simpl; tauto |].
    eapply triple_try_catch with (E1 := fun _ => True);
      [| intro; apply triple_ret; intros; simpl; tauto].
    unfold MarkEmailBounced.handler_body. repeat answers_step.
Qed.

(** *** Runs that stop before the store is touched *)

(** X15.  A run that cannot obtain a token touches nothing.  When the
    identity endpoint gives no token, process-bounce-checks,
    process-email-replies and the earlier bounce checker answer 500
    without a single call to the store (so no check is consumed and the
    clean-up of old checks does not take place); and sync-email-bounces
    answers 401 without a call to the store when the authorization
    header is missing or names no user. *)
Theorem refused_runs_touch_nothing faults now env idp w :
  (forall e, fst (ProcessBounceChecks.getAccessToken env idp) = Store.Exn e ->
     (forall graph,
         exists r,
           ProcessBounceChecks.serve faults now env idp graph
             (ProcessBounceChecks.mkServeRequest false) w = (Store.Ok r, w) /\
           http_status r = 500%Z) /\
     (forall inbox,
         exists r,
           ProcessEmailReplies.serve faults now env idp inbox
             (ProcessEmailReplies.mkServeRequest false) w = (Store.Ok r, w) /\
           http_status r = 500%Z) /\
     (forall search,
         exists r,
           CheckEmailBounces.serve faults now env idp search
             (CheckEmailBounces.mkServeRequest false) w = (Store.Ok r, w) /\
           http_status r = 500%Z)) /\
  (forall getUser search ilike req,
      SyncEmailBounces.is_options req = false ->
      (forall h, SyncEmailBounces.authorization req = Some h ->
                 h <> "" -> getUser (bearer_token h) = false) ->
      SyncEmailBounces.serve faults now env idp getUser search ilike req w
      = (Store.Ok SyncEmailBounces.unauthorized, w)).
Proof.
  split.
  - intros e He. repeat apply conj; intros.
    + unfold ProcessBounceChecks.serve, ProcessBounceChecks.serve_body.
      simpl. rewrite He. eexists. split; reflexivity.
    + unfold ProcessEmailReplies.serve, ProcessEmailReplies.serve_body,
        ProcessEmailReplies.getAccessToken.
      simpl. rewrite He. eexists. split; reflexivity.
    + unfold CheckEmailBounces.serve, CheckEmailBounces.serve_body,
        CheckEmailBounces.getAccessToken.
      simpl. rewrite He. eexists. split; reflexivity.
  - intros getUser search ilike req Hopt Hauth.
    unfold SyncEmailBounces.serve, SyncEmailBounces.serve_body.
    rewrite Hopt.
    destruct (SyncEmailBounces.authorization req) as [h |] eqn:Eh; simpl.
    + destruct (String.eqb h "") eqn:E; simpl; [reflexivity |].
      rewrite (Hauth h eq_refl); [reflexivity |].
      intros ->. discriminate.
    + reflexivity.
Qed.

Lemma refused_runs_touch_nothing_witness :
  exists r,
    ProcessBounceChecks.serve Store.reliable Example.t0 (fun _ => None)
      Example.granting_idp (fun _ _ _ => None)
      (ProcessBounceChecks.mkServeRequest false) (Store.start Example.db0)
    = (Store.Ok r, Store.start Example.db0) /\
    http_status r = 500%Z.
Proof.
  apply (proj1 (refused_runs_touch_nothing Store.reliable Example.t0
                  (fun _ => None) Example.granting_idp
                  (Store.start Example.db0))
               "Azure credentials not configured").
  reflexivity.
Defined.

(** *** Contacts and notifications *)

(** X16.  Only a first open reaches the contact and the sender.  When
    the stored row already counts an open, a request for its pixel
    leaves [contacts] and [notifications] as they are, whatever the
    request and whatever the store does. *)
Theorem repeat_open_credits_nothing faults now req w i e :
  TrackEmailOpen.id_param req = Some i ->
  the_email i (Store.db w) = Some e ->
  num (open_count e) <> 0%Z ->
  let d' := Store.db (snd (TrackEmailOpen.handler faults now req w)) in
  contacts d' = contacts (Store.db w) /\
  notifications d' = notifications (Store.db w).
Proof.
  intros Hid He Hn d'. subst d'.
  set (I := fun x : DB => contacts x = contacts (Store.db w) /\
                          notifications x = notifications (Store.db w)).
  assert (H : triple (fun x => x = Store.db w)
                     (TrackEmailOpen.handler faults now req)
                     (fun _ => I) I).
  { unfold TrackEmailOpen.handler, TrackEmailOpen.handler_body.
    rewrite Hid.
    apply triple_try_catch with (E1 := I);
      [| intro; apply triple_ret; auto].
    destruct (negb _); [apply triple_ret; intros ? ->; split; reflexivity |].
    destruct (TrackEmailOpen.isBotUserAgent _).
    { eapply triple_bind with (Q1 := fun _ => I);
        [| intro; apply triple_ret; auto].
      apply triple_write. intros ? ->. repeat split. }
    eapply triple_bind with
      (Q1 := fun fetched x =>
               I x /\ forall e', fetched = Some (Some e') -> e' = e).
    { apply triple_query. intros ? ->. repeat split.
      - intros e' H. injection H as H. unfold the_email in He. congruence.
      - intros e' H. discriminate. }
    intros [[e' |] |]; try (apply triple_ret; intros ? [? _]; assumption).
    apply triple_pure. intro Heq. rewrite (Heq e' eq_refl).
    destruct (bounce_type e); [apply triple_ret; auto |].
    destruct (seconds_below _ _).
    { eapply triple_bind with (Q1 := fun _ => I);
        [| intro; apply triple_ret; auto].
      apply triple_write. intros ? Hx. repeat split; apply Hx. }
    eapply triple_bind with (Q1 := fun _ => I).
    { apply triple_write. intros ? Hx. repeat split; apply Hx. }
    intros _.
    destruct (num (open_count e) =? 0)%Z eqn:E;
      [apply Z.eqb_eq in E; contradiction |].
    eapply triple_bind with (Q1 := fun _ => I);
      [apply triple_ret; auto | intro; apply triple_ret; auto]. }
  specialize (H w eq_refl).
  destruct (TrackEmailOpen.handler faults now req w) as [[r | x] w'];
    exact H.
Qed.

(** X17.  The manual endpoint corrects a contact only for a row that
    counts as opened.  When the stored row does not have the status
    opened, or counts no open, marking it as bounced leaves [contacts]
    as they are, whatever the store does; in particular a row that is
    bounced already is not corrected a second time. *)
Theorem manual_mark_corrects_only_opened_rows faults now req w i e :
  MarkEmailBounced.emailId req = Some i ->
  the_email i (Store.db w) = Some e ->
  status e <> opened \/ (num (open_count e) <= 0)%Z ->
  contacts (Store.db (snd (MarkEmailBounced.handler faults now req w)))
  = contacts (Store.db w).
Proof.
  intros Hid He Hs.
  set (I := fun x : DB => contacts x = contacts (Store.db w)).
  assert (Hw : (status_eqb (status e) opened
                && (0 <? num (open_count e))%Z) = false).
  { destruct Hs as [Hs | Hs].
    - destruct (status_eqb (status e) opened) eqn:E; [| reflexivity].
      apply status_eqb_eq in E. contradiction.
    - replace (0 <? num (open_count e))%Z with false by (symmetry; lia).
      apply andb_false_r. }
  assert (H : triple (fun x => x = Store.db w)
                     (MarkEmailBounced.handler faults now req)
                     (fun _ => I) I).
  { unfold MarkEmailBounced.handler, MarkEmailBounced.handler_body.
    rewrite Hid.
    destruct (MarkEmailBounced.is_options req);
      [apply triple_ret; intros ? ->; reflexivity |].
    apply triple_try_catch with (E1 := I);
      [| intro; apply triple_ret; auto].
    destruct (negb _); [apply triple_ret; intros ? ->; reflexivity |].
    eapply triple_bind with
      (Q1 := fun fetched x =>
               I x /\ forall e', fetched = Some (Some e') -> e' = e).
    { apply triple_query. intros ? ->. repeat split.
      - intros e' H. injection H as H. unfold the_email in He. congruence.
      - intros e' H. discriminate. }
    intros [[e' |] |]; try (apply triple_ret; intros ? [? _]; assumption).
    apply triple_pure. intro Heq. rewrite (Heq e' eq_refl). rewrite Hw.
    eapply triple_bind with (Q1 := fun _ => I).
    { apply triple_write. intros ? Hx. repeat split; apply Hx. }
    intro updated. destruct (negb updated); [apply triple_ret; auto |].
    simpl.
    eapply triple_bind with (Q1 := fun _ => I);
      [apply triple_ret; auto | intro; apply triple_ret; auto]. }
  specialize (H w eq_refl).
  destruct (MarkEmailBounced.handler faults now req w) as [[r | x] w'];
    exact H.
Qed.

(** *** No notice, no bounce *)

Section NoNotice.

Import Store.
Variable d0 : DB.

Local Abbreviation I := (history_unchanged d0).

Local Ltac quiet :=
  repeat (first [ keeps_step
                | apply keeps_write; intros ? ?; solve [auto] ]).

Lemma quiet_bounce_checks faults now env idp graph req :
  (forall sender since,
      ProcessBounceChecks.fetchNDRsForSender graph sender since = []) ->
  keeps I (ProcessBounceChecks.serve faults now env idp graph req).
Proof.
  intro Hn.
  unfold ProcessBounceChecks.serve, ProcessBounceChecks.serve_body.
  destruct (ProcessBounceChecks.is_options req); [apply keeps_ret |].
  apply keeps_try_catch; [| intro; apply keeps_ret].
  destruct (fst _); [| apply keeps_ret].
  apply keeps_bind.
  { unfold ProcessBounceChecks.pending_pass.
    apply keeps_bind; [apply keeps_query | intro pending].
    destruct (ProcessBounceChecks.group_pending _ _ _)
      as [processed bySender].
    apply keeps_bind.
    - apply keeps_fold_m. intros s [sender checks] _.
      unfold ProcessBounceChecks.pending_sender.
      destruct checks; [apply keeps_ret |].
      rewrite Hn.
      apply keeps_fold_m. intros acc [c eh] _.
      unfold ProcessBounceChecks.pending_check. simpl. apply keeps_ret.
    - intro acc. quiet. }
  intros [acc processedSenders].
  apply keeps_bind.
  { unfold ProcessBounceChecks.general_sweep.
    apply keeps_bind; [apply keeps_query | intro recent].
    destruct recent as [[| e l] |]; try apply keeps_ret.
    apply keeps_fold_m. intros found [sender emails] _.
    unfold ProcessBounceChecks.sweep_sender.
    destruct (ProcessBounceChecks.mem _ _); [apply keeps_ret |].
    rewrite Hn.
    apply keeps_fold_m. intros.
    unfold ProcessBounceChecks.sweep_email. simpl. apply keeps_ret. }
  intro g. quiet.
Qed.

Lemma quiet_process_ndrs faults now ilike sender hrs ndrs acc :
  Forall (fun ndr =>
            Js.truthy
              (Ndr.recipientEmail
                 (SyncEmailBounces.parseNDRContent
                    (ProcessBounceChecks.text_of (msg_subject ndr))
                    (ProcessBounceChecks.text_of (msg_body ndr)))) = false)
         ndrs ->
  keeps I (SyncEmailBounces.process_ndrs faults now ilike sender hrs ndrs acc).
Proof.
  intro Hall. revert acc.
  induction Hall as [| n l Hn Hl IH]; intro acc; simpl.
  - apply keeps_ret.
  - unfold SyncEmailBounces.process_ndr. rewrite Hn. simpl.
    apply keeps_bind; [apply keeps_ret |].
    intros [acc' [|]]; [apply IH | apply keeps_ret].
Qed.

Lemma quiet_sync_bounces faults now env idp getUser search ilike req :
  (forall sender since ndrs,
      search sender since = Some ndrs ->
      Forall (fun ndr =>
                Js.truthy
                  (Ndr.recipientEmail
                     (SyncEmailBounces.parseNDRContent
                        (ProcessBounceChecks.text_of (msg_subject ndr))
                        (ProcessBounceChecks.text_of (msg_body ndr))))
                = false) ndrs) ->
  keeps I (SyncEmailBounces.serve faults now env idp getUser search ilike req).
Proof.
  intro Hn.
  unfold SyncEmailBounces.serve, SyncEmailBounces.serve_body.
  destruct (SyncEmailBounces.is_options req); [apply keeps_ret |].
  apply keeps_try_catch; [| intro; apply keeps_ret].
  destruct (negb _); [apply keeps_ret |].
  destruct (SyncEmailBounces.authorization req); [| apply keeps_ret].
  destruct (negb _); [apply keeps_ret |].
  apply keeps_bind.
  - destruct (Js.truthy _); [apply keeps_ret |].
    apply keeps_bind; [apply keeps_query | intro; apply keeps_ret].
  - intros [| s0 l]; [apply keeps_ret |].
    destruct (fst _); [| apply keeps_throw].
    apply keeps_bind; [| intro; apply keeps_ret].
    apply keeps_fold_m. intros acc sender _.
    unfold SyncEmailBounces.process_sender.
    destruct (search _ _) eqn:E; [| apply keeps_ret].
    apply quiet_process_ndrs. eapply Hn. exact E.
Qed.

Lemma quiet_checkBounceForEmail faults now search sender recipient target
  sentAt :
  (forall sender since msgs,
      search sender since = Some msgs ->
      Forall (fun ndr =>
                Js.truthy
                  (Ndr.recipientEmail
                     (CheckEmailBounces.parseNDRContent
                        (ProcessBounceChecks.text_of (msg_subject ndr))
                        (ProcessBounceChecks.text_of (msg_body ndr))))
                = false)
             (filter ProcessBounceChecks.is_ndr_message msgs)) ->
  keeps I (CheckEmailBounces.checkBounceForEmail faults now search sender
             recipient target sentAt).
Proof.
  intro Hn. unfold CheckEmailBounces.checkBounceForEmail.
  apply keeps_try_catch; [| intro; apply keeps_ret].
  destruct (search _ _) as [msgs |] eqn:E; [| apply keeps_ret].
  specialize (Hn _ _ _ E).
  induction Hn as [| n l Hn Hl IH]; cbn [CheckEmailBounces.check_ndrs].
  - apply keeps_ret.
  - rewrite Hn. cbn [andb]. exact IH.
Qed.

Lemma quiet_check_bounces faults now env idp search req :
  (forall sender since msgs,
      search sender since = Some msgs ->
      Forall (fun ndr =>
                Js.truthy
                  (Ndr.recipientEmail
                     (CheckEmailBounces.parseNDRContent
                        (ProcessBounceChecks.text_of (msg_subject ndr))
                        (ProcessBounceChecks.text_of (msg_body ndr))))
                = false)
             (filter ProcessBounceChecks.is_ndr_message msgs)) ->
  keeps I (CheckEmailBounces.serve faults now env idp search req).
Proof.
  intro Hn.
  unfold CheckEmailBounces.serve, CheckEmailBounces.serve_body.
  destruct (CheckEmailBounces.is_options req); [apply keeps_ret |].
  apply keeps_try_catch; [| intro; apply keeps_ret].
  destruct (fst _); [| apply keeps_ret].
  apply keeps_bind.
  { unfold CheckEmailBounces.pending_pass.
    apply keeps_bind; [apply keeps_query | intro pending].
    destruct pending as [[| c0 l0] |]; try apply keeps_ret.
    apply keeps_bind.
    - apply keeps_fold_m. intros [processed found] [c eh] _.
      unfold CheckEmailBounces.pending_check.
      destruct eh as [e |]; [| apply keeps_ret].
      destruct (status_eqb (status e) bounced); [apply keeps_ret |].
      apply keeps_bind; [| intro; apply keeps_ret].
      apply quiet_checkBounceForEmail. exact Hn.
    - intros [processed found]. quiet. }
  intros [processed found].
  apply keeps_bind.
  { unfold CheckEmailBounces.general_sweep.
    apply keeps_bind; [apply keeps_query | intro recent].
    destruct recent as [[| e l] |]; try apply keeps_ret.
    apply keeps_fold_m. intros acc sender _.
    apply keeps_fold_m. intros acc' email _.
    unfold CheckEmailBounces.sweep_email.
    apply keeps_bind; [| intro; apply keeps_ret].
    apply quiet_checkBounceForEmail. exact Hn. }
  intro g. quiet.
Qed.

End NoNotice.

(** X18.  No notice, no bounce.  When the mailbox holds no message in
    which the service finds a notice with a recipient, a run of
    process-bounce-checks, of sync-email-bounces or of the earlier
    bounce checker leaves [email_history] exactly as it is, whatever the
    store does. *)
Theorem no_notice_no_bounce faults now env idp d :
  (forall graph req,
      (forall sender since,
          ProcessBounceChecks.fetchNDRsForSender graph sender since = []) ->
      email_history
        (after (ProcessBounceChecks.serve faults now env idp graph req) d)
      = email_history d) /\
  (forall getUser search ilike req,
      (forall sender since ndrs,
          search sender since = Some ndrs ->
          Forall (fun ndr =>
                    Js.truthy
                      (Ndr.recipientEmail
                         (SyncEmailBounces.parseNDRContent
                            (ProcessBounceChecks.text_of (msg_subject ndr))
                            (ProcessBounceChecks.text_of (msg_body ndr))))
                    = false) ndrs) ->
      email_history
        (after (SyncEmailBounces.serve faults now env idp getUser search
                                       ilike req) d)
      = email_history d) /\
  (forall search req,
      (forall sender since msgs,
          search sender since = Some msgs ->
          Forall (fun ndr =>
                    Js.truthy
                      (Ndr.recipientEmail
                         (CheckEmailBounces.parseNDRContent
                            (ProcessBounceChecks.text_of (msg_subject ndr))
                            (ProcessBounceChecks.text_of (msg_body ndr))))
                    = false)
                 (filter ProcessBounceChecks.is_ndr_message msgs)) ->
      email_history
        (after (CheckEmailBounces.serve faults now env idp search req) d)
      = email_history d).
Proof.
  repeat apply conj; intros; unfold after.
  - apply (keeps_after (history_unchanged d));
      [| reflexivity].
    apply quiet_bounce_checks. assumption.
  - apply (keeps_after (history_unchanged d));
      [| reflexivity].
    apply quiet_sync_bounces. assumption.
  - apply (keeps_after (history_unchanged d));
      [| reflexivity].
    apply quiet_check_bounces. assumption.
Qed.

Lemma no_notice_no_bounce_witness :
  email_history
    (after (ProcessBounceChecks.serve Store.reliable
              (Example.t0 + 500 * 1000)%Z Example.generic_env
              Example.granting_idp (fun _ _ _ => Some [])
              (ProcessBounceChecks.mkServeRequest false)) Example.db1)
  = email_history Example.db1.
Proof.
  apply (proj1 (no_notice_no_bounce Store.reliable (Example.t0 + 500 * 1000)%Z
                  Example.generic_env Example.granting_idp Example.db1)).
  intros sender since. reflexivity.
Defined.

(** *** Runs on a working store *)

Section Safe.

Import Store.
Variable faults : nat -> Fault.
Hypothesis working : forall n, faults n = NoFault.

Lemma safe_ret {A} (a : A) : safe (ret a).
Proof. apply triple_ret. auto. Qed.

Lemma safe_bind {A B} (m : M A) (f : A -> M B) :
  safe m -> (forall a, safe (f a)) -> safe (bind m f).
Proof. intros Hm Hf. eapply triple_bind; [exact Hm | exact Hf]. Qed.

Lemma safe_query {A} (q : DB -> A) : safe (query faults q).
Proof. apply triple_query_working; auto. Qed.

Lemma safe_write (u : DB -> DB) : safe (write faults u).
Proof. apply triple_write_working; auto. Qed.

Lemma safe_try_catch {A} (m : M A) h :
  (forall e, safe (h e)) -> safe (try_catch m h).
Proof.
  intro Hh. eapply triple_try_catch with (E1 := fun _ => True);
    [apply triple_any | exact Hh].
Qed.

Lemma safe_attempt {A} (m : M A) : safe (attempt m).
Proof. apply triple_attempt. apply triple_any. Qed.

Lemma safe_fold_m {A S} (l : list A) (body : S -> A -> M S) (s : S) :
  (forall s x, safe (body s x)) -> safe (fold_m l body s).
Proof.
  intro H. revert s. induction l as [| x l IH]; intro s; simpl.
  - apply safe_ret.
  - apply safe_bind; [apply H | exact IH].
Qed.

Lemma safe_then {A B} (m : M A) (f : A -> M B) (Q : B -> DB -> Prop) :
  safe m ->
  (forall a, triple (fun _ => True) (f a) Q (fun _ => False)) ->
  triple (fun _ => True) (bind m f) Q (fun _ => False).
Proof. intros Hm Hf. eapply triple_bind; [exact Hm | exact Hf]. Qed.

End Safe.

Ltac safe_step :=
  match goal with
  | |- safe (Store.ret _) => apply safe_ret
  | |- safe (Store.bind _ _) => apply safe_bind; [| intro]
  | |- safe (Store.query _ _) => apply safe_query; assumption
  | |- safe (Store.write _ _) => apply safe_write; assumption
  | |- safe (Store.try_catch _ _) => apply safe_try_catch; intro
  | |- safe (Store.attempt _) => apply safe_attempt
  | |- safe (Store.fold_m _ _ _) => apply safe_fold_m; intros
  | |- safe (if ?b then _ else _) => destruct b
  | |- safe (match ?x with _ => _ end) => destruct x
  end.

Lemma safe_bounce_checks_passes faults now graph since :
  (forall n, faults n = Store.NoFault) ->
  safe (ProcessBounceChecks.pending_pass faults now graph since) /\
  forall senders,
    safe (ProcessBounceChecks.general_sweep faults now graph since senders).
Proof.
  intro working. split.
  - unfold ProcessBounceChecks.pending_pass.
    apply safe_bind; [apply safe_query; assumption | intro pending].
    destruct (ProcessBounceChecks.group_pending _ _ _) as [processed bySender].
    apply safe_bind.
    + apply safe_fold_m. intros s [sender checks].
      unfold ProcessBounceChecks.pending_sender.
      destruct checks; [apply safe_ret |].
      apply safe_fold_m. intros acc [c eh].
      unfold ProcessBounceChecks.pending_check. repeat safe_step.
    + intro acc. repeat safe_step.
  - intro senders. unfold ProcessBounceChecks.general_sweep.
    apply safe_bind; [apply safe_query; assumption | intro recent].
    destruct recent as [[| e l] |]; try apply safe_ret.
    apply safe_fold_m. intros found [sender emails].
    unfold ProcessBounceChecks.sweep_sender.
    destruct (ProcessBounceChecks.mem _ _); [apply safe_ret |].
    apply safe_fold_m. intros.
    unfold ProcessBounceChecks.sweep_email. repeat safe_step.
Qed.

Lemma safe_check_bounces_passes faults now search :
  (forall n, faults n = Store.NoFault) ->
  safe (CheckEmailBounces.pending_pass faults now search) /\
  safe (CheckEmailBounces.general_sweep faults now search).
Proof.
  intro working.
  assert (C : forall a b c d,
             safe (CheckEmailBounces.checkBounceForEmail faults now search
                     a b c d)).
  { intros. unfold CheckEmailBounces.checkBounceForEmail.
    apply safe_try_catch. intro. apply safe_ret. }
  split.
  - unfold CheckEmailBounces.pending_pass.
    apply safe_bind; [apply safe_query; assumption | intro pending].
    destruct pending as [[| c0 l0] |]; try apply safe_ret.
    apply safe_bind.
    + apply safe_fold_m. intros [processed found] [c eh].
      unfold CheckEmailBounces.pending_check.
      destruct eh as [e |]; [| apply safe_ret].
      destruct (status_eqb _ _); [apply safe_ret |].
      apply safe_bind; [apply C | intro; apply safe_ret].
    + intros [processed found]. repeat safe_step.
  - unfold CheckEmailBounces.general_sweep.
    apply safe_bind; [apply safe_query; assumption | intro recent].
    destruct recent as [[| e l] |]; try apply safe_ret.
    apply safe_fold_m. intros acc sender.
    apply safe_fold_m. intros acc' email.
    unfold CheckEmailBounces.sweep_email.
    apply safe_bind; [apply C | intro; apply safe_ret].
Qed.

(** X19.  The clean-up of old checks.  When the token is granted and the
    store works, a run of process-bounce-checks or of the earlier bounce
    checker ends with status 200 and leaves no pending check that was
    created more than seven days before the run. *)
Theorem old_checks_are_removed faults now env idp token d :
  (forall n, faults n = Store.NoFault) ->
  fst (ProcessBounceChecks.getAccessToken env idp) = Store.Ok token ->
  (forall graph,
      let out := ProcessBounceChecks.serve faults now env idp graph
                   (ProcessBounceChecks.mkServeRequest false)
                   (Store.start d) in
      (exists r, fst out = Store.Ok r /\ http_status r = 200%Z) /\
      Forall (fun c => (now - hours (7 * 24) <= created_at c)%Z)
             (pending_bounce_checks (Store.db (snd out)))) /\
  (forall search,
      let out := CheckEmailBounces.serve faults now env idp search
                   (CheckEmailBounces.mkServeRequest false)
                   (Store.start d) in
      (exists r, fst out = Store.Ok r /\ http_status r = 200%Z) /\
      Forall (fun c => (now - hours (7 * 24) <= created_at c)%Z)
             (pending_bounce_checks (Store.db (snd out)))).
Proof.
  intros working Htok.
  assert (Hdel : forall x,
             Forall (fun c => (now - hours (7 * 24) <= created_at c)%Z)
                    (pending_bounce_checks
                       (ProcessBounceChecks.delete_old_checks
                          (now - hours (7 * 24))%Z x))).
  { intro x. unfold ProcessBounceChecks.delete_old_checks. simpl.
    apply Forall_forall. intros c Hc. apply filter_In in Hc.
    destruct Hc as [_ Hc]. apply negb_true_iff in Hc. lia. }
  split.
  - intros graph out.
    assert (H : triple (fun _ => True)
                  (ProcessBounceChecks.serve faults now env idp graph
                     (ProcessBounceChecks.mkServeRequest false))
                  (fun r x =>
                     http_status r = 200%Z /\
                     Forall (fun c => (now - hours (7 * 24) <= created_at c)%Z)
                            (pending_bounce_checks x))
                  (fun _ => False)).
    { unfold ProcessBounceChecks.serve, ProcessBounceChecks.serve_body.
      simpl. rewrite Htok.
      eapply triple_try_catch with (E1 := fun _ => False);
        [| intros e w []].
      destruct (safe_bounce_checks_passes faults now graph
                  (now - hours 72)%Z working) as [S1 S2].
      apply safe_then; [exact S1 |]. intros [acc senders].
      apply safe_then; [apply S2 |]. intro g.
      eapply triple_bind with
        (Q1 := fun _ x =>
                 Forall (fun c => (now - hours (7 * 24) <= created_at c)%Z)
                        (pending_bounce_checks x)).
      - apply triple_write_working; [exact working |]. intros x _. apply Hdel.
      - intros _. apply triple_ret. intros x Hx. split; [reflexivity | exact Hx]. }
    specialize (H (Store.start d) Logic.I). subst out.
    destruct (ProcessBounceChecks.serve _ _ _ _ _ _ _) as [[r | e] w'];
      simpl in *; [| contradiction].
    destruct H as [H1 H2]. split; [eauto | exact H2].
  - intros search out.
    assert (H : triple (fun _ => True)
                  (CheckEmailBounces.serve faults now env idp search
                     (CheckEmailBounces.mkServeRequest false))
                  (fun r x =>
                     http_status r = 200%Z /\
                     Forall (fun c => (now - hours (7 * 24) <= created_at c)%Z)
                            (pending_bounce_checks x))
                  (fun _ => False)).
    { unfold CheckEmailBounces.serve, CheckEmailBounces.serve_body,
        CheckEmailBounces.getAccessToken.
      simpl. rewrite Htok.
      eapply triple_try_catch with (E1 := fun _ => False);
        [| intros e w []].
      destruct (safe_check_bounces_passes faults now search working)
        as [S1 S2].
      apply safe_then; [exact S1 |]. intros [processed found].
      apply safe_then; [exact S2 |]. intro g.
      eapply triple_bind with
        (Q1 := fun _ x =>
                 Forall (fun c => (now - hours (7 * 24) <= created_at c)%Z)
                        (pending_bounce_checks x)).
      - apply triple_write_working; [exact working |]. intros x _. apply Hdel.
      - intros _. apply triple_ret. intros x Hx. split; [reflexivity | exact Hx]. }
    specialize (H (Store.start d) Logic.I). subst out.
    destruct (CheckEmailBounces.serve _ _ _ _ _ _ _) as [[r | e] w'];
      simpl in *; [| contradiction].
    destruct H as [H1 H2]. split; [eauto | exact H2].
Qed.

(** *** Due checks are consumed *)

Lemma grouped_ids_set m k v id :
  In id (grouped_ids m) \/ In id (map (fun check => pc_id (fst check)) v) ->
  (forall x, SMap.get m k = Some x ->
             incl (map (fun check => pc_id (fst check)) x)
                  (map (fun check => pc_id (fst check)) v)) ->
  In id (grouped_ids (SMap.set m k v)).
Proof.
  unfold grouped_ids. induction m as [| [k' v'] m IH]; simpl; intros H Hget.
  - rewrite app_nil_r. destruct H as [[] | H]; exact H.
  - destruct (String.eqb k' k) eqn:E; simpl.
    + apply in_or_app. destruct H as [H | H]; [| left; exact H].
      apply in_app_or in H. destruct H as [H | H]; [| right; exact H].
      left. apply (Hget v' eq_refl). exact H.
    + apply in_or_app. destruct H as [H | H].
      * apply in_app_or in H. destruct H as [H | H]; [left; exact H |].
        right. apply IH; [left; exact H | exact Hget].
      * right. apply IH; [right; exact H | exact Hget].
Qed.

Lemma grouped_ids_push m k (x : ProcessBounceChecks.JoinedCheck) id :
  In id (grouped_ids m) \/ id = pc_id (fst x) ->
  In id (grouped_ids (SMap.push m k x)).
Proof.
  intro H. unfold SMap.push. apply grouped_ids_set.
  - destruct H as [H | ->]; [left; exact H |].
    right. rewrite map_app. apply in_or_app. right. left. reflexivity.
  - intros v Hv. rewrite Hv. intros y Hy.
    rewrite map_app. apply in_or_app. left. exact Hy.
Qed.

Lemma group_pending_covers checks :
  forall processed bySender id,
    In id processed \/ In id (grouped_ids bySender) \/
    In id (map (fun check => pc_id (fst check)) checks) ->
    In id (fst (ProcessBounceChecks.group_pending checks processed bySender))
    \/ In id (grouped_ids
                (snd (ProcessBounceChecks.group_pending checks processed
                                                        bySender))).
Proof.
  induction checks as [| [c eh] l IH]; intros processed bySender i H; simpl.
  - destruct H as [H | [H | []]]; auto.
  - assert (Hskip : In i (processed ++ [pc_id c]) \/
                    In i (grouped_ids bySender) \/
                    In i (map (fun check => pc_id (fst check)) l)).
    { destruct H as [H | [H | [H | H]]]; auto.
      - left. apply in_or_app. left. exact H.
      - left. apply in_or_app. right. left. exact H. }
    destruct eh as [e |]; [| apply IH; exact Hskip].
    destruct (status_eqb (status e) bounced); [apply IH; exact Hskip |].
    apply IH. destruct H as [H | [H | [H | H]]]; auto.
    + right. left. apply grouped_ids_push. left. exact H.
    + right. left. apply grouped_ids_push. right. symmetry. exact H.
Qed.

Section Consumed.

Import Store.
Variable faults : nat -> Fault.
Hypothesis working : forall n, faults n = NoFault.
Variable now : Z.
Variable graph : Graph.

Lemma fold_m_collects {A S} (g : S -> list string) (key : A -> list string)
  (l : list A) (body : S -> A -> M S) (s : S) :
  (forall s x,
      triple (fun _ => True) (body s x)
             (fun s' _ => g s' = (g s ++ key x)%list) (fun _ => False)) ->
  triple (fun _ => True) (fold_m l body s)
         (fun s' _ => g s' = (g s ++ flat_map key l)%list) (fun _ => False).
Proof.
  intro H. revert s. induction l as [| x l IH]; intro s; simpl.
  - apply triple_ret. intros. rewrite app_nil_r. reflexivity.
  - eapply triple_bind; [apply H |].
    intro s'. simpl.
    intros w Hw. specialize (IH s' w Logic.I).
    destruct (fold_m l body s' w) as [[a | e] w']; [| exact IH].
    rewrite IH, Hw, app_assoc. reflexivity.
Qed.

Lemma pending_check_collects ndrs acc check :
  triple (fun _ => True)
         (ProcessBounceChecks.pending_check faults now ndrs acc check)
         (fun acc' _ =>
            ProcessBounceChecks.processedPendingIds acc'
            = (ProcessBounceChecks.processedPendingIds acc
                 ++ [pc_id (fst check)])%list)
         (fun _ => False).
Proof.
  unfold ProcessBounceChecks.pending_check. destruct check as [c eh].
  destruct (ProcessBounceChecks.find_ndr _ _); [| apply triple_ret; auto].
  eapply triple_bind with (Q1 := fun _ _ => True);
    [apply triple_write_working; auto | intro ok].
  eapply triple_bind with
    (Q1 := fun acc' _ =>
             ProcessBounceChecks.processedPendingIds acc'
             = ProcessBounceChecks.processedPendingIds acc).
  - destruct ok; [| apply triple_ret; auto].
    eapply triple_bind with (Q1 := fun _ _ => True);
      [| intro; apply triple_ret; auto].
    change (safe (match eh with
                  | Some emailHistory =>
                      if Js.truthy (sent_by emailHistory)
                      then match sent_by emailHistory with
                           | Some user =>
                               bind (write faults
                                       (insert_notification
                                          (ProcessBounceChecks.bounce_notification
                                             user (pc_recipient_email c))))
                                    (fun _ => ret tt)
                           | None => ret tt
                           end
                      else ret tt
                  | None => ret tt
                  end)).
    repeat safe_step.
  - intro acc'. apply triple_ret. intros x Hx. simpl. rewrite Hx. reflexivity.
Qed.

Lemma flat_map_singleton {A B} (f : A -> B) (l : list A) :
  flat_map (fun x => [f x]) l = map f l.
Proof. induction l; simpl; congruence. Qed.

Lemma pending_sender_collects since acc entry :
  triple (fun _ => True)
         (ProcessBounceChecks.pending_sender faults now graph since acc entry)
         (fun acc' _ =>
            ProcessBounceChecks.processedPendingIds acc'
            = (ProcessBounceChecks.processedPendingIds acc
                 ++ map (fun check => pc_id (fst check)) (snd entry))%list)
         (fun _ => False).
Proof.
  unfold ProcessBounceChecks.pending_sender. destruct entry as [sender checks].
  simpl snd. destruct checks as [| c0 l0] eqn:E.
  - apply triple_ret. intros. simpl. rewrite app_nil_r. reflexivity.
  - rewrite <- E. rewrite <- flat_map_singleton.
    apply (fold_m_collects ProcessBounceChecks.processedPendingIds
             (fun check => [pc_id (fst check)])).
    intros s x. apply pending_check_collects.
Qed.

Lemma mem_In i l : ProcessBounceChecks.mem i l = true <-> In i l.
Proof.
  unfold ProcessBounceChecks.mem. rewrite existsb_exists. split.
  - intros [x [Hx E]]. apply String.eqb_eq in E. subst x. exact Hx.
  - intro H. exists i. split; [exact H | apply String.eqb_refl].
Qed.

Lemma mark_checks_checks ids res d :
  checked_all ids (ProcessBounceChecks.mark_checks ids res d).
Proof.
  intros c Hc Hid. unfold ProcessBounceChecks.mark_checks in Hc. simpl in Hc.
  unfold update_where in Hc. apply in_map_iff in Hc.
  destruct Hc as [c0 [Hc0 _]].
  destruct (ProcessBounceChecks.mem (pc_id c0) ids) eqn:E; subst c.
  - reflexivity.
  - apply mem_In in Hid. congruence.
Qed.

Lemma mark_checks_keeps ids' ids res d :
  checked_all ids' d ->
  checked_all ids' (ProcessBounceChecks.mark_checks ids res d).
Proof.
  intros H c Hc Hid. unfold ProcessBounceChecks.mark_checks in Hc.
  simpl in Hc. unfold update_where in Hc. apply in_map_iff in Hc.
  destruct Hc as [c0 [Hc0 Hin]].
  destruct (ProcessBounceChecks.mem (pc_id c0) ids); subst c.
  - reflexivity.
  - apply (H c0 Hin Hid).
Qed.

Lemma triple_const {A} (F : Prop) (m : M A) Q E :
  (F -> triple (fun _ => True) m Q E) -> triple (fun _ => F) m Q E.
Proof. intros H w Hw. apply (H Hw w Logic.I). Qed.

Lemma pending_pass_consumes since d0 :
  triple (fun x => pending_bounce_checks x = pending_bounce_checks d0)
         (ProcessBounceChecks.pending_pass faults now graph since)
         (fun _ x => checked_all (map pc_id (due_checks now d0)) x)
         (fun _ => False).
Proof.
  unfold ProcessBounceChecks.pending_pass.
  eapply triple_bind with
    (Q1 := fun pending _ =>
             exists l, pending = Some l /\
                       map (fun check => pc_id (fst check)) l
                       = map pc_id (due_checks now d0)).
  { apply triple_query_working; [exact working |]. intros x Hx.
    eexists. split; [reflexivity |].
    unfold ProcessBounceChecks.select_pending, due_checks.
    rewrite Hx, map_map. reflexivity. }
  intros pending. apply triple_const. intros [l [-> Hl]].
  pose proof (group_pending_covers l [] []) as Hcov.
  destruct (ProcessBounceChecks.group_pending l [] [])
    as [processed bySender].
  simpl in Hcov.
  eapply triple_bind with
    (Q1 := fun acc _ =>
             ProcessBounceChecks.processedPendingIds acc
             = (processed ++ grouped_ids bySender)%list).
  { apply (fold_m_collects ProcessBounceChecks.processedPendingIds
             (fun entry => map (fun check => pc_id (fst check)) (snd entry))).
    intros s x. apply pending_sender_collects. }
  intros acc. apply triple_const. intro Hacc. cbv zeta.
  set (bad := ProcessBounceChecks.bouncedPendingIds acc) in *.
  set (okIds := filter (fun i => negb (ProcessBounceChecks.mem i bad))
                       (ProcessBounceChecks.processedPendingIds acc)) in *.
  eapply triple_bind with (Q1 := fun _ x => checked_all bad x).
  { destruct (0 <? List.length bad)%nat eqn:E.
    - eapply triple_bind with (Q1 := fun _ x => checked_all bad x);
        [| intro; apply triple_ret; auto].
      apply triple_write_working; [exact working |].
      intros x _. apply mark_checks_checks.
    - apply triple_ret. intros x _ c _ Hc.
      destruct bad; [destruct Hc | discriminate]. }
  intros _.
  eapply triple_bind with
    (Q1 := fun _ x => checked_all bad x /\ checked_all okIds x).
  { destruct (0 <? List.length okIds)%nat eqn:E.
    - eapply triple_bind with
        (Q1 := fun _ x => checked_all bad x /\ checked_all okIds x);
        [| intro; apply triple_ret; auto].
      apply triple_write_working; [exact working |].
      intros x Hx. split;
        [apply mark_checks_keeps; exact Hx | apply mark_checks_checks].
    - apply triple_ret. intros x Hx. split; [exact Hx |].
      intros c _ Hc. destruct okIds; [destruct Hc | discriminate]. }
  intros _. apply triple_ret. intros x [Hbad Hok] c Hc Hid.
  rewrite <- Hl in Hid.
  assert (Hp : In (pc_id c) (ProcessBounceChecks.processedPendingIds acc)).
  { rewrite Hacc. apply in_or_app.
    destruct (Hcov (pc_id c)) as [H | H]; auto. }
  destruct (ProcessBounceChecks.mem (pc_id c) bad) eqn:E.
  - apply mem_In in E. apply (Hbad c Hc E).
  - apply (Hok c Hc). unfold okIds. apply filter_In. split; [exact Hp |].
    rewrite E. reflexivity.
Qed.

Lemma keeps_safe {A} (I : DB -> Prop) (m : M A) :
  keeps I m -> safe m -> triple I m (fun _ => I) (fun _ => False).
Proof.
  intros Hk Hs w Hw. specialize (Hk w Hw). specialize (Hs w Logic.I).
  destruct (m w) as [[a | e] w']; assumption.
Qed.

Lemma general_sweep_keeps_checked ids since senders :
  keeps (checked_all ids)
        (ProcessBounceChecks.general_sweep faults now graph since senders).
Proof.
  unfold ProcessBounceChecks.general_sweep.
  apply keeps_bind; [apply keeps_query | intro recent].
  destruct recent as [[| e l] |]; try apply keeps_ret.
  apply keeps_fold_m. intros found [sender emails] _.
  unfold ProcessBounceChecks.sweep_sender.
  destruct (ProcessBounceChecks.mem _ _); [apply keeps_ret |].
  apply keeps_fold_m. intros.
  unfold ProcessBounceChecks.sweep_email.
  repeat (first [ keeps_step
                | apply keeps_write; intros ? ?; solve [auto] ]).
Qed.

End Consumed.

(** X20.  Due checks are consumed.  When the token is granted and the
    store works, every pending check that a run of process-bounce-checks
    selects (the first fifty that are unchecked and due) is checked
    after the run, if it is still there: the run does not leave a check
    it has looked at for the next run. *)
Theorem due_checks_are_consumed faults now env idp graph token d :
  (forall n, faults n = Store.NoFault) ->
  fst (ProcessBounceChecks.getAccessToken env idp) = Store.Ok token ->
  let d' := after (ProcessBounceChecks.serve faults now env idp graph
                     (ProcessBounceChecks.mkServeRequest false)) d in
  forall c,
    In c (pending_bounce_checks d') ->
    In (pc_id c) (map pc_id (due_checks now d)) ->
    checked c = true.
Proof.
  intros working Htok d'.
  assert (H : triple (fun x => pending_bounce_checks x
                               = pending_bounce_checks d)
                (ProcessBounceChecks.serve faults now env idp graph
                   (ProcessBounceChecks.mkServeRequest false))
                (fun _ x => checked_all (map pc_id (due_checks now d)) x)
                (fun _ => False)).
  { unfold ProcessBounceChecks.serve, ProcessBounceChecks.serve_body.
    simpl. rewrite Htok.
    eapply triple_try_catch with (E1 := fun _ => False);
      [| intros e w []].
    eapply triple_bind;
      [apply (pending_pass_consumes faults working now graph) |].
    intros [acc senders].
    eapply triple_bind.
    { apply keeps_safe.
      - apply general_sweep_keeps_checked.
      - apply safe_bounce_checks_passes. exact working. }
    intro g.
    eapply triple_bind with
      (Q1 := fun _ x => checked_all (map pc_id (due_checks now d)) x);
      [| intro; apply triple_ret; auto].
    apply triple_write_working; [exact working |].
    intros x Hx c Hc Hid.
    unfold ProcessBounceChecks.delete_old_checks in Hc. simpl in Hc.
    apply filter_In in Hc. apply (Hx c); tauto. }
  specialize (H (Store.start d) eq_refl). subst d'. unfold after.
  destruct (ProcessBounceChecks.serve _ _ _ _ _ _ _) as [[r | e] w'];
    simpl in *; [exact H | contradiction].
Qed.

(** *** Matching a reply with the email it answers *)

Lemma SMap_set_keyed {V} (P : string -> V -> Prop) m k v :
  Forall (fun entry => P (fst entry) (snd entry)) m -> P k v ->
  Forall (fun entry => P (fst entry) (snd entry)) (SMap.set m k v).
Proof.
  intros Hm Hv. induction Hm as [| [k0 v0] m H0 Hm IH]; simpl.
  - constructor; [exact Hv | constructor].
  - destruct (String.eqb k0 k); constructor; auto.
Qed.

Lemma SMap_get_keyed {V} (P : string -> V -> Prop) m k x :
  Forall (fun entry => P (fst entry) (snd entry)) m ->
  SMap.get m k = Some x -> P k x.
Proof.
  induction 1 as [| [k0 v0] m H0 Hm IH]; simpl; [discriminate |].
  destruct (String.eqb k0 k) eqn:E; [| exact IH].
  intro H. injection H as <-. apply String.eqb_eq in E. subst k0. exact H0.
Qed.

Lemma SMap_get_set_same {V} (m : list (string * V)) k v :
  SMap.get (SMap.set m k v) k = Some v.
Proof.
  induction m as [| [k0 v0] m IH]; simpl.
  - rewrite String.eqb_refl. reflexivity.
  - destruct (String.eqb k0 k) eqn:E; simpl.
    + rewrite String.eqb_refl. reflexivity.
    + rewrite E. exact IH.
Qed.

Lemma SMap_get_set_present {V} (m : list (string * V)) k v k' :
  SMap.get m k' <> None -> SMap.get (SMap.set m k v) k' <> None.
Proof.
  induction m as [| [k0 v0] m IH]; simpl; [congruence |].
  destruct (String.eqb k0 k) eqn:E; simpl.
  - destruct (String.eqb k0 k') eqn:E'.
    + apply String.eqb_eq in E, E'. subst. rewrite String.eqb_refl.
      discriminate.
    + apply String.eqb_eq in E. subst k0. rewrite E'. auto.
  - destruct (String.eqb k0 k'); [discriminate | exact IH].
Qed.

(** X21.  Matching a reply with the email it answers.  An email found
    for a reply target is one of the indexed emails, and its message id
    is the target, with or without one pair of angle brackets around
    either of them.  In the other direction every indexed email with a
    message id can be reached: the index answers for its message id as
    it is and for its message id without the brackets. *)
Theorem reply_matching_is_sound_and_complete emails :
  (forall target e,
      ProcessEmailReplies.lookup_original
        (ProcessEmailReplies.index_by_message_id emails) target = Some e ->
      In e emails /\
      exists mid,
        message_id e = Some mid /\ mid <> "" /\
        (mid = target \/ Js.strip_angle mid = target \/
         mid = "<" ++ target ++ ">" \/
         Js.strip_angle mid = "<" ++ target ++ ">")) /\
  (forall e mid,
      In e emails -> message_id e = Some mid -> mid <> "" ->
      ProcessEmailReplies.lookup_original
        (ProcessEmailReplies.index_by_message_id emails) mid <> None /\
      ProcessEmailReplies.lookup_original
        (ProcessEmailReplies.index_by_message_id emails) (Js.strip_angle mid)
      <> None).
Proof.
  set (P := fun (k : string) (e : EmailHistory) =>
              In e emails /\
              exists mid, message_id e = Some mid /\ mid <> "" /\
                          (k = mid \/ k = Js.strip_angle mid)).
  set (step := fun (m : list (string * EmailHistory)) email =>
                 if Js.truthy (message_id email) then
                   match message_id email with
                   | Some mid =>
                       SMap.set (SMap.set m mid email)
                                (Js.strip_angle mid) email
                   | None => m
                   end
                 else m).
  assert (Hstep : forall m email,
             In email emails ->
             Forall (fun entry => P (fst entry) (snd entry)) m ->
             Forall (fun entry => P (fst entry) (snd entry)) (step m email)).
  { intros m email Hin Hm. unfold step.
    destruct (Js.truthy (message_id email)) eqn:Et; [| exact Hm].
    destruct (message_id email) as [mid |] eqn:Em; [| exact Hm].
    assert (Hne : mid <> "").
    { intros ->. discriminate. }
    apply SMap_set_keyed; [apply SMap_set_keyed; [exact Hm |] |];
      (split; [exact Hin |]); exists mid; auto. }
  assert (Hall : forall l m,
             incl l emails ->
             Forall (fun entry => P (fst entry) (snd entry)) m ->
             Forall (fun entry => P (fst entry) (snd entry))
                    (fold_left step l m)).
  { induction l as [| x l IH]; intros m Hl Hm; simpl; [exact Hm |].
    apply IH.
    - intros y Hy. apply Hl. right. exact Hy.
    - apply Hstep; [apply Hl; left; reflexivity | exact Hm]. }
  assert (Hkeep : forall l m k,
             SMap.get m k <> None -> SMap.get (fold_left step l m) k <> None).
  { induction l as [| x l IH]; intros m k Hk; simpl; [exact Hk |].
    apply IH. unfold step.
    destruct (Js.truthy (message_id x)); [| exact Hk].
    destruct (message_id x); [| exact Hk].
    repeat apply SMap_get_set_present. exact Hk. }
  assert (Hfind : forall l m e mid,
             In e l -> message_id e = Some mid -> mid <> "" ->
             SMap.get (fold_left step l m) mid <> None /\
             SMap.get (fold_left step l m) (Js.strip_angle mid) <> None).
  { induction l as [| x l IH]; intros m e mid Hin Hm Hne; [destruct Hin |].
    simpl. destruct Hin as [-> | Hin]; [| eapply IH; eassumption].
    assert (Hs : step m e
                 = SMap.set (SMap.set m mid e) (Js.strip_angle mid) e).
    { unfold step. rewrite Hm. rewrite (truthy_id mid Hne). reflexivity. }
    rewrite Hs. split; apply Hkeep.
    - apply SMap_get_set_present. rewrite SMap_get_set_same. discriminate.
    - rewrite SMap_get_set_same. discriminate. }
  change (ProcessEmailReplies.index_by_message_id emails)
    with (fold_left step emails []).
  split.
  - intros target e H.
    pose proof (Hall emails [] (incl_refl _) (Forall_nil _)) as Hidx.
    unfold ProcessEmailReplies.lookup_original in H.
    destruct (SMap.get (fold_left step emails []) target) as [e' |] eqn:E.
    + injection H as <-.
      destruct (SMap_get_keyed P _ _ _ Hidx E) as [Hin [mid [Hm [Hne Hk]]]].
      split; [exact Hin |]. exists mid. split; [exact Hm |].
      split; [exact Hne |]. destruct Hk as [<- | <-]; auto.
    + destruct (SMap_get_keyed P _ _ _ Hidx H) as [Hin [mid [Hm [Hne Hk]]]].
      split; [exact Hin |]. exists mid. split; [exact Hm |].
      split; [exact Hne |]. destruct Hk as [<- | <-]; auto.
  - intros e mid Hin Hm Hne.
    destruct (Hfind emails [] e mid Hin Hm Hne) as [H1 H2].
    unfold ProcessEmailReplies.lookup_original. split.
    + destruct (SMap.get (fold_left step emails []) mid);
        [discriminate | contradiction].
    + destruct (SMap.get (fold_left step emails []) (Js.strip_angle mid));
        [discriminate | contradiction].
Qed.

Lemma reply_matching_is_sound_and_complete_witness :
  In Example.E1 [Example.E1] /\
  exists mid,
    message_id Example.E1 = Some mid /\ mid <> "" /\
    (mid = "m1@corp.com" \/ Js.strip_angle mid = "m1@corp.com" \/
     mid = "<" ++ "m1@corp.com" ++ ">" \/
     Js.strip_angle mid = "<" ++ "m1@corp.com" ++ ">").
Proof.
  apply (proj1 (reply_matching_is_sound_and_complete [Example.E1])
               "m1@corp.com" Example.E1).
  vm_compute. reflexivity.
Defined.

(** *** The replies read from the inbox *)

(** X22.  The replies read from an inbox.  Every reply that
    [fetchInboxReplies] returns comes from a message of the inbox that
    carries an [In-Reply-To] or a [References] header with a value; it
    has the id and the sender of that message, names a target, and its
    body preview has at most 500 characters.  Without such a header a
    message gives no reply. *)
Theorem inbox_replies_come_from_answers inbox sender since :
  (forall r,
      In r (ProcessEmailReplies.fetchInboxReplies inbox sender since) ->
      exists messages msg,
        inbox sender since = Some messages /\ In msg messages /\
        (Js.truthy (ProcessEmailReplies.header "in-reply-to"
                      (internetMessageHeaders msg)) = true \/
         Js.truthy (ProcessEmailReplies.header "references"
                      (internetMessageHeaders msg)) = true) /\
        ProcessEmailReplies.ri_graph_message_id r = msg_id msg /\
        ProcessEmailReplies.ri_from_email r
        = ProcessBounceChecks.text_of (from_address msg) /\
        (exists target, ProcessEmailReplies.in_reply_to r = Some target) /\
        (String.length (ProcessEmailReplies.ri_body_preview r) <= 500)%nat) /\
  (forall msg,
      Js.truthy (ProcessEmailReplies.header "in-reply-to"
                   (internetMessageHeaders msg)) = false ->
      Js.truthy (ProcessEmailReplies.header "references"
                   (internetMessageHeaders msg)) = false ->
      ProcessEmailReplies.reply_of_message msg = []).
Proof.
  split.
  - intros r Hr. unfold ProcessEmailReplies.fetchInboxReplies in Hr.
    destruct (inbox sender since) as [messages |]; [| destruct Hr].
    apply in_flat_map in Hr. destruct Hr as [msg [Hmsg Hr]].
    exists messages, msg. split; [reflexivity |]. split; [exact Hmsg |].
    unfold ProcessEmailReplies.reply_of_message in Hr.
    destruct (Js.truthy (ProcessEmailReplies.header "in-reply-to" _)) eqn:E1;
      destruct (Js.truthy (ProcessEmailReplies.header "references" _)) eqn:E2;
      simpl in Hr; try (destruct Hr; fail);
      match type of Hr with
      | In _ (if ?b then _ else _) => destruct b; [| destruct Hr]
      end;
      match type of Hr with
      | In _ (match ?x with _ => _ end) => destruct x; [| destruct Hr]
      end;
      destruct Hr as [<- | []]; simpl;
      (split; [auto |]); repeat split; eauto using length_substring0.
  - intros msg H1 H2. unfold ProcessEmailReplies.reply_of_message.
    rewrite H1, H2. reflexivity.
Qed.

Lemma inbox_replies_come_from_answers_witness :
  ProcessEmailReplies.reply_of_message
    (mkMessage "G3" (Some "Hello") None (Some "hi") (Some "jane@acme.com")
               None None [("X-Mailer", "x")]) = [].
Proof.
  apply (proj2 (inbox_replies_come_from_answers (fun _ _ => None) "" 0%Z));
    reflexivity.
Defined.

(** *** The wrapper of the message body *)

Module WrapFacts.
Import Js Regex RegexSpec RegexFacts.
Local Open Scope list_scope.

Lemma In_all_ascii x : In x all_ascii.
Proof.
  unfold all_ascii. apply in_map_iff. exists (nat_of_ascii x). split.
  - apply ascii_nat_embedding.
  - apply in_seq. pose proof (nat_ascii_bounded x). lia.
Qed.

Lemma must_sound r st st' :
  matches r st st' ->
  forall c w, must c r = true -> consumed st st' w -> In c w.
Proof.
  induction 1; intros x w Hm Hc; cbn [must] in Hm; try discriminate.
  - rewrite forallb_forall in Hm. specialize (Hm c (In_all_ascii c)).
    rewrite H0 in Hm. simpl in Hm. apply Ascii.eqb_eq in Hm. subst x.
    assert (Hc' : consumed st (MState (c :: pre st) t (caps st)) [c]).
    { split; simpl; [reflexivity | assumption]. }
    rewrite (consumed_unique _ _ _ _ Hc Hc'). left. reflexivity.
  - destruct (matches_consumed _ _ _ H) as (w1 & C1 & _).
    destruct (matches_consumed _ _ _ H0) as (w2 & C2 & _).
    rewrite (consumed_unique _ _ _ _ Hc (consumed_trans _ _ _ _ _ C1 C2)).
    apply in_or_app. apply orb_true_iff in Hm. destruct Hm as [Hm | Hm].
    + left. eapply IHmatches1; eassumption.
    + right. eapply IHmatches2; eassumption.
  - apply andb_true_iff in Hm. destruct Hm as [Hm _].
    eapply IHmatches; eassumption.
  - apply andb_true_iff in Hm. destruct Hm as [_ Hm].
    eapply IHmatches; eassumption.
  - apply (IHmatches x w Hm). destruct Hc as [C1 C2]. split; assumption.
Qed.

Lemma no_match_without r c before after :
  must c r = true -> ~ In c after ->
  run r (MState before after []) Some = None.
Proof.
  intros Hm Hn.
  destruct (run r (MState before after []) Some) as [st' |] eqn:E;
    [exfalso | reflexivity].
  apply run_sound in E. destruct E as (st & M & E). injection E as ->.
  destruct (matches_consumed _ _ _ M) as (w & C & _).
  pose proof (must_sound _ _ _ M c w Hm C) as Hin.
  destruct C as [_ C]. simpl in C. apply Hn. rewrite C.
  apply in_or_app. left. exact Hin.
Qed.

Lemma replace_from_fixed r f c :
  must c r = true ->
  forall input before,
    ~ In c input -> SendEmail.replace_from r f 0 before input = input.
Proof.
  intros Hm. induction input as [| x t IH]; intros before Hn; simpl.
  - rewrite (no_match_without r c before [] Hm Hn). reflexivity.
  - rewrite (no_match_without r c before (x :: t) Hm Hn).
    rewrite IH; [reflexivity |]. intro H. apply Hn. right. exact H.
Qed.

Lemma replace_all_fixed r f c s :
  must c r = true -> ~ In c (list_ascii_of_string s) ->
  SendEmail.replace_all r f s = s.
Proof.
  intros Hm Hn. unfold SendEmail.replace_all.
  rewrite (replace_from_fixed r f c Hm _ _ Hn).
  apply string_of_chars_of_string.
Qed.

Lemma inline_classes_fixed mappings s :
  Forall (fun entry =>
            must "034" (SendEmail.class_with (fst entry)) = true) mappings ->
  ~ In "034"%char (list_ascii_of_string s) ->
  SendEmail.inline_classes mappings s = s.
Proof.
  intros Hall Hn. unfold SendEmail.inline_classes.
  induction Hall as [| entry l He Hl IH]; simpl; [reflexivity |].
  unfold SendEmail.inline_class at 2.
  rewrite (replace_all_fixed _ _ _ _ He Hn). exact IH.
Qed.

Lemma fixed_tags_fixed s :
  ~ In "<"%char (list_ascii_of_string s) ->
  fold_left (fun s entry =>
               SendEmail.replace_all (SendEmail.open_tag (fst entry))
                                      (fun _ => snd entry) s)
            SendEmail.fixedTags s = s.
Proof.
  intro Hn.
  assert (Hall : Forall (fun entry =>
                           must "<" (SendEmail.open_tag (fst entry)) = true)
                        SendEmail.fixedTags).
  { repeat (constructor; [vm_compute; reflexivity |]). constructor. }
  induction Hall as [| entry l He Hl IH]; simpl; [reflexivity |].
  rewrite (replace_all_fixed _ _ _ _ He Hn). exact IH.
Qed.

End WrapFacts.

(** X23.  Plain text is only wrapped.  A body that holds neither an
    opening angle bracket nor a double quote goes through all the
    replacements of [wrapEmailContent] unchanged: the result is the
    body between the fixed opening [div] and its closing tag. *)
Theorem plain_text_is_only_wrapped htmlBody :
  ~ In "<"%char (list_ascii_of_string htmlBody) ->
  ~ In "034"%char (list_ascii_of_string htmlBody) ->
  SendEmail.wrapEmailContent htmlBody
  = SendEmail.DIV_OPEN ++ htmlBody ++ "</div>".
Proof.
  intros Hlt Hdq. unfold SendEmail.wrapEmailContent.
  rewrite (WrapFacts.inline_classes_fixed SendEmail.alignMappings htmlBody);
    [| repeat (constructor; [vm_compute; reflexivity |]); constructor
     | exact Hdq].
  rewrite (WrapFacts.inline_classes_fixed SendEmail.fontMappings htmlBody);
    [| repeat (constructor; [vm_compute; reflexivity |]); constructor
     | exact Hdq].
  rewrite (WrapFacts.inline_classes_fixed SendEmail.sizeMappings htmlBody);
    [| repeat (constructor; [vm_compute; reflexivity |]); constructor
     | exact Hdq].
  rewrite (WrapFacts.replace_all_fixed SendEmail.ql_class _ "034"%char);
    [| vm_compute; reflexivity | exact Hdq].
  rewrite (WrapFacts.replace_all_fixed SendEmail.empty_class _ "034"%char);
    [| vm_compute; reflexivity | exact Hdq].
  rewrite (WrapFacts.replace_all_fixed SendEmail.p_with_style _ "<"%char);
    [| vm_compute; reflexivity | exact Hlt].
  rewrite (WrapFacts.replace_all_fixed SendEmail.p_with_attrs _ "<"%char);
    [| vm_compute; reflexivity | exact Hlt].
  rewrite (WrapFacts.replace_all_fixed SendEmail.p_plain _ "<"%char);
    [| vm_compute; reflexivity | exact Hlt].
  rewrite (WrapFacts.replace_all_fixed SendEmail.empty_paragraph _ "<"%char);
    [| vm_compute; reflexivity | exact Hlt].
  rewrite (WrapFacts.fixed_tags_fixed _ Hlt).
  rewrite (WrapFacts.replace_all_fixed SendEmail.br_tag _ "<"%char);
    [| vm_compute; reflexivity | exact Hlt].
  reflexivity.
Qed.

Lemma plain_text_is_only_wrapped_witness :
  SendEmail.wrapEmailContent "See you on Monday."
  = SendEmail.DIV_OPEN ++ "See you on Monday." ++ "</div>".
Proof.
  apply plain_text_is_only_wrapped;
    intro H; vm_compute in H;
    repeat (destruct H as [H | H]; [discriminate |]); exact H.
Defined.

(** *** Sending an email *)

Lemma update_where_app {A} (p : A -> bool) (f : A -> A) l l' :
  Store.update_where p f (l ++ l')%list
  = (Store.update_where p f l ++ Store.update_where p f l')%list.
Proof. unfold Store.update_where. apply map_app. Qed.

Section Sending.

Import Store.
Variable faults : nat -> Fault.
Variable now : Z.
Variable env : Env.
Variable idp : Idp.
Variable getUser : string -> option string.
Variable sendMail : SendEmail.SendMail -> SendEmail.SendResponse.
Variable sentItems : string -> string -> SendEmail.SentItems.
Variable generated_email : EmailHistory.
Variable generated_check : PendingBounceCheck.
Variable insert_message : string.
Variable type_error : string.

Local Abbreviation handler :=
  (SendEmail.handler faults now env idp getUser sendMail sentItems
     generated_email generated_check insert_message type_error).
Local Abbreviation emailRecord req :=
  (SendEmail.new_email generated_email req (SendEmail.userId getUser req)).


(** X25.  An email that could not be sent stays on record as sent.  When
    the row has been inserted and then the token is refused, or the
    mailbox API refuses the message, the answer is 500, the new row is
    in [email_history] with the status sent, and no bounce check is
    queued for it: the store is exactly the old one with the new row. *)
Theorem unsent_email_stays_recorded req w :
  SendEmail.is_options req = false ->
  Js.truthy (SendEmail.to req) = true ->
  Js.truthy (SendEmail.rq_subject req) = true ->
  Js.truthy (SendEmail.from req) = true ->
  faults (calls w) = NoFault ->
  (exists e, fst (SendEmail.getAccessToken env idp) = Exn e) \/
  (exists token e,
      fst (SendEmail.getAccessToken env idp) = Ok token /\
      SendEmail.sendEmail env sendMail type_error token req
                           (id (emailRecord req)) = Exn e) ->
  exists r,
    handler req w
    = (Ok r, mkWorld (SendEmail.insert_email (emailRecord req) (db w))
                     (S (calls w))) /\
    http_status r = 500%Z /\
    status (emailRecord req) = sent.
Proof.
  intros Hopt Hto Hsub Hfrom Hins Hfail.
  unfold SendEmail.handler, SendEmail.handler_body.
  rewrite Hopt, Hto, Hsub, Hfrom. simpl negb. simpl orb. cbv iota.
  unfold try_catch, bind, write. rewrite Hins. simpl negb. cbv iota.
  destruct Hfail as [[e He] | [token [e [Htok He]]]].
  - rewrite He. simpl. eexists. split; [reflexivity |]. split; reflexivity.
  - rewrite Htok, He. simpl. eexists. split; [reflexivity |].
    split; reflexivity.
Qed.

(** X26.  A sent email is recorded once and checked once.  When the store
    works, the id the database generates is new, the token is granted
    and the mailbox API accepts the message, the answer is 200; the
    store is the old one with one more row in [email_history], which
    has the status sent and the Message-ID captured from Sent Items, and
    one more pending check for that row, unchecked and due 45 seconds
    after [now]; no run of process-bounce-checks before that time
    selects it. *)
Theorem sent_email_is_recorded_and_queued req token d :
  (forall n, faults n = NoFault) ->
  (forall r, In r (email_history d) -> id r <> id generated_email) ->
  SendEmail.is_options req = false ->
  Js.truthy (SendEmail.to req) = true ->
  Js.truthy (SendEmail.rq_subject req) = true ->
  Js.truthy (SendEmail.from req) = true ->
  fst (SendEmail.getAccessToken env idp) = Ok token ->
  SendEmail.sendEmail env sendMail type_error token req
                       (id (emailRecord req)) = Ok tt ->
  let row := SendEmail.mark_sent (SendEmail.captured_message_id sentItems req)
                                  (emailRecord req) in
  let check := SendEmail.new_check generated_check (id generated_email)
                 (SendEmail.text (SendEmail.from req))
                 (SendEmail.text (SendEmail.to req)) (now + 45000)%Z in
  let out := handler req (start d) in
  (exists r, fst out = Ok r /\ http_status r = 200%Z) /\
  db (snd out)
  = mkDB (email_history d ++ [row])%list
         (pending_bounce_checks d ++ [check])%list
         (email_replies d) (contacts d) (notifications d) /\
  status row = sent /\ is_valid_open row = Some true /\
  checked check = false /\
  forall t, (t < now + 45000)%Z -> ~ In check (due_checks t (db (snd out))).
Proof.
  intros working Hfresh Hopt Hto Hsub Hfrom Htok Hsend row check out.
  assert (Hdb : SendEmail.insert_check check
                  (update_email (id (emailRecord req))
                     (SendEmail.mark_sent
                        (SendEmail.captured_message_id sentItems req))
                     (SendEmail.insert_email (emailRecord req) d))
                = mkDB (email_history d ++ [row])%list
                       (pending_bounce_checks d ++ [check])%list
                       (email_replies d) (contacts d) (notifications d)).
  { unfold SendEmail.insert_check, update_email, SendEmail.insert_email,
      with_pending, with_email_history. simpl.
    f_equal. rewrite update_where_app.
    rewrite update_where_fixed.
    - unfold update_where. simpl. unfold has_id. simpl.
      rewrite String.eqb_refl. reflexivity.
    - intros r Hr Hid. apply has_id_spec in Hid. simpl in Hid.
      exfalso. exact (Hfresh r Hr Hid). }
  assert (H : triple (fun x => x = d) (handler req)
                (fun r x =>
                   http_status r = 200%Z /\
                   x = mkDB (email_history d ++ [row])%list
                            (pending_bounce_checks d ++ [check])%list
                            (email_replies d) (contacts d) (notifications d))
                (fun _ => False)).
  { unfold SendEmail.handler. rewrite Hopt.
    eapply triple_try_catch with (E1 := fun _ => False);
      [| intros e w []].
    unfold SendEmail.handler_body.
    rewrite Hto, Hsub, Hfrom. simpl negb. simpl orb. cbv iota.
    eapply triple_bind with
      (Q1 := fun ok x =>
               x = SendEmail.insert_email (emailRecord req) d /\ ok = true).
    { apply triple_write_working; [exact working |].
      intros x ->. split; reflexivity. }
    intro ok. apply triple_pure. intros ->. simpl negb. cbv iota.
    rewrite Htok, Hsend.
    eapply triple_bind with
      (Q1 := fun _ x =>
               x = update_email (id (emailRecord req))
                     (SendEmail.mark_sent
                        (SendEmail.captured_message_id sentItems req))
                     (SendEmail.insert_email (emailRecord req) d)).
    { apply triple_write_working; [exact working |].
      intros x ->. reflexivity. }
    intros _.
    eapply triple_bind with
      (Q1 := fun _ x =>
               x = mkDB (email_history d ++ [row])%list
                        (pending_bounce_checks d ++ [check])%list
                        (email_replies d) (contacts d) (notifications d)).
    { apply triple_write_working; [exact working |].
      intros x ->. exact Hdb. }
    intros _. apply triple_ret. intros x ->. split; reflexivity. }
  specialize (H (start d) eq_refl). fold out in H.
  destruct out as [[r | e] w']; simpl in *; [| contradiction].
  destruct H as [H1 ->].
  split; [eauto |]. split; [reflexivity |].
  split; [reflexivity |]. split; [reflexivity |]. split; [reflexivity |].
  intros t Ht Hin. unfold due_checks in Hin. apply In_firstn in Hin.
  apply filter_In in Hin. destruct Hin as [_ Hin].
  apply andb_true_iff in Hin. destruct Hin as [_ Hin]. simpl in Hin. lia.
Qed.

(** X27.  What the send function writes.  Whatever happens, it leaves
    [contacts], [email_replies] and [notifications] as they are, keeps
    every pending check and adds at most one, and gives
    [email_history] at most one more row, whose id is the generated
    one. *)
Theorem send_email_footprint req d :
  let d' := after (handler req) d in
  contacts d' = contacts d /\
  email_replies d' = email_replies d /\
  notifications d' = notifications d /\
  (exists added, pending_bounce_checks d'
                 = (pending_bounce_checks d ++ added)%list /\
                 (List.length added <= 1)%nat) /\
  (map id (email_history d') = map id (email_history d) \/
   map id (email_history d')
   = (map id (email_history d) ++ [id generated_email])%list).
Proof.
  intro d'. subst d'. unfold after.
  set (I1 := fun x : DB =>
               contacts x = contacts d /\
               email_replies x = email_replies d /\
               notifications x = notifications d).
  set (H0 := fun x : DB =>
               pending_bounce_checks x = pending_bounce_checks d /\
               map id (email_history x) = map id (email_history d)).
  set (H1 := fun x : DB =>
               pending_bounce_checks x = pending_bounce_checks d /\
               map id (email_history x)
               = (map id (email_history d) ++ [id generated_email])%list).
  set (H2 := fun x : DB =>
               (exists c, pending_bounce_checks x
                          = (pending_bounce_checks d ++ [c])%list) /\
               map id (email_history x)
               = (map id (email_history d) ++ [id generated_email])%list).
  set (Any := fun x : DB => I1 x /\ (H0 x \/ H1 x \/ H2 x)).
  assert (H : triple (fun x => I1 x /\ H0 x) (handler req)
                     (fun _ => Any) Any).
  { assert (W : forall x, I1 x /\ H0 x -> Any x)
      by (intros x [? ?]; split; auto).
    assert (W1 : forall x, I1 x /\ H1 x -> Any x)
      by (intros x [? ?]; split; auto).
    unfold SendEmail.handler.
    destruct (SendEmail.is_options req); [apply triple_ret; exact W |].
    eapply triple_try_catch with (E1 := Any);
      [| intro; apply triple_ret; auto].
    unfold SendEmail.handler_body.
    destruct (_ || _); [apply triple_ret; exact W |].
    eapply triple_bind with
      (Q1 := fun (ok : bool) x => I1 x /\ if ok then H1 x else H0 x).
    { apply triple_write. intros x [Hi [Hp Hh]].
      split; [| split; [split; [exact Hi | split; assumption]
                       | apply W; split; [exact Hi | split; assumption]]].
      split; [exact Hi |]. split; [exact Hp |].
      unfold SendEmail.insert_email. simpl. rewrite map_app, Hh.
      reflexivity. }
    intros [|]; simpl negb; cbv iota;
      [| apply triple_throw; exact W].
    destruct (fst _); [| apply triple_throw; exact W1].
    destruct (SendEmail.sendEmail _ _ _ _ _ _);
      [| apply triple_throw; exact W1].
    eapply triple_bind with (Q1 := fun _ x => I1 x /\ H1 x).
    { apply triple_write. intros x [Hi [Hp Hh]].
      split; [| split; [split; [exact Hi | split; assumption]
                       | apply W1; split; [exact Hi | split; assumption]]].
      split; [exact Hi |]. split; [exact Hp |].
      unfold update_email. simpl. rewrite map_update_where; auto. }
    intros _.
    eapply triple_bind with (Q1 := fun _ => Any);
      [| intro; apply triple_ret; auto].
    apply triple_write. intros x [Hi [Hp Hh]].
    split; [| split; (apply W1; split; [exact Hi | split; assumption])].
    split; [exact Hi |]. right. right. split; [| exact Hh].
    eexists. unfold SendEmail.insert_check. simpl. rewrite Hp.
    reflexivity. }
  specialize (H (start d)).
  assert (Hstart : I1 (db (start d)) /\ H0 (db (start d))).
  { repeat split. }
  specialize (H Hstart).
  assert (G : Any (db (snd (handler req (start d))))).
  { destruct (handler req (start d)) as [[r | e] w']; exact H. }
  destruct G as [[G1 [G2 G3]] G].
  split; [exact G1 |]. split; [exact G2 |]. split; [exact G3 |].
  destruct G as [[Hp Hh] | [[Hp Hh] | [[c Hp] Hh]]].
  - split; [| left; exact Hh]. exists (@nil PendingBounceCheck). rewrite app_nil_r.
    split; [exact Hp | simpl; lia].
  - split; [| right; exact Hh]. exists (@nil PendingBounceCheck). rewrite app_nil_r.
    split; [exact Hp | simpl; lia].
  - split; [| right; exact Hh]. exists [c]. split; [exact Hp | simpl; lia].
Qed.

End Sending.

(** *** The theorems at work *)

Lemma replies_belong_to_emails_witness :
  Forall (fun r => In (er_email_history_id r)
                      (map id (email_history Example.db_replied)))
         (email_replies Example.db_replied).
Proof.
  apply Forall_forall.
  apply (replies_belong_to_emails Example.db1 Example.db_replied).
  - eapply Relation_Operators.rt1n_trans; [| apply rt1n_refl].
    apply step_core.
    exact (step_replies Store.reliable (Example.t0 + 600 * 1000)%Z
             Example.generic_env Example.granting_idp
             (fun _ _ => Some [Example.reply1; Example.reply2])
             (ProcessEmailReplies.mkServeRequest false) Example.db1).
  - intros r Hr. vm_compute in Hr. destruct Hr.
Defined.

Lemma repeat_open_credits_nothing_witness :
  contacts (Store.db (snd (TrackEmailOpen.handler Store.reliable
                             (Example.t0 + 60 * 1000)%Z
                             (Example.pixel_request Example.browser "1.1.1.1")
                             (Store.start Example.db1))))
  = contacts Example.db1.
Proof.
  refine (proj1 (repeat_open_credits_nothing Store.reliable
                   (Example.t0 + 60 * 1000)%Z
                   (Example.pixel_request Example.browser "1.1.1.1")
                   (Store.start Example.db1) "E1" _ eq_refl _ _)).
  - vm_compute. reflexivity.
  - vm_compute. discriminate.
Defined.

Lemma manual_mark_corrects_only_opened_rows_witness :
  contacts (Store.db (snd (MarkEmailBounced.handler Store.reliable
                             (Example.t0 + 700 * 1000)%Z
                             (MarkEmailBounced.mkMarkRequest
                                false (Some "E1") (Some hard) None)
                             (Store.start Example.db_bounced))))
  = contacts Example.db_bounced.
Proof.
  refine (manual_mark_corrects_only_opened_rows Store.reliable
            (Example.t0 + 700 * 1000)%Z
            (MarkEmailBounced.mkMarkRequest false (Some "E1") (Some hard) None)
            (Store.start Example.db_bounced) "E1" _ eq_refl _ _).
  - vm_compute. reflexivity.
  - left. vm_compute. discriminate.
Defined.

Lemma old_checks_are_removed_witness :
  Forall (fun c => (Example.t0 + 8 * 24 * 3600 * 1000 - hours (7 * 24)
                    <= created_at c)%Z)
         (pending_bounce_checks
            (Store.db (snd (ProcessBounceChecks.serve Store.reliable
                              (Example.t0 + 8 * 24 * 3600 * 1000)%Z
                              Example.generic_env Example.granting_idp
                              Example.mailbox
                              (ProcessBounceChecks.mkServeRequest false)
                              (Store.start Example.db1))))).
Proof.
  apply (proj1 (old_checks_are_removed Store.reliable
                  (Example.t0 + 8 * 24 * 3600 * 1000)%Z Example.generic_env
                  Example.granting_idp "token" Example.db1
                  (fun _ => eq_refl) eq_refl) Example.mailbox).
Defined.

Lemma due_checks_are_consumed_witness :
  Forall (fun c => checked c = true)
         (pending_bounce_checks
            (Example.bounce_checks (Example.t0 + 500 * 1000)%Z Example.db1)).
Proof.
  apply Forall_forall. intros c Hc.
  apply (due_checks_are_consumed Store.reliable (Example.t0 + 500 * 1000)%Z
           Example.generic_env Example.granting_idp Example.mailbox "token"
           Example.db1 (fun _ => eq_refl) eq_refl c Hc).
  vm_compute in Hc. destruct Hc as [<- | []].
  vm_compute. left. reflexivity.
Defined.


Lemma unsent_email_stays_recorded_witness :
  exists r,
    fst (SendExample.send SendExample.refusing SendExample.request
                          (Store.start Example.db1)) = Store.Ok r /\
    http_status r = 500%Z.
Proof.
  destruct (unsent_email_stays_recorded Store.reliable
              (Example.t0 + 2000)%Z SendExample.email_env
              Example.granting_idp (fun _ => Some "U1") SendExample.refusing
              SendExample.sent_items SendExample.generated_email
              SendExample.generated_check "duplicate key" "body is undefined"
              SendExample.request (Store.start Example.db1)
              eq_refl eq_refl eq_refl eq_refl eq_refl)
    as [r [H1 [H2 _]]].
  - right. exists "token". eexists. split; vm_compute; reflexivity.
  - exists r. unfold SendExample.send. rewrite H1. split; [reflexivity | exact H2].
Defined.

Lemma sent_email_is_recorded_and_queued_witness :
  exists r,
    fst (SendExample.send SendExample.accepting SendExample.request
                          (Store.start Example.db1)) = Store.Ok r /\
    http_status r = 200%Z.
Proof.
  apply (sent_email_is_recorded_and_queued Store.reliable
           (Example.t0 + 2000)%Z SendExample.email_env
           Example.granting_idp (fun _ => Some "U1") SendExample.accepting
           SendExample.sent_items SendExample.generated_email
           SendExample.generated_check "duplicate key" "body is undefined"
           SendExample.request "token" Example.db1).
  - intro n. reflexivity.
  - intros r Hr. vm_compute in Hr. destruct Hr as [<- | []]. discriminate.
  - reflexivity.
  - reflexivity.
  - reflexivity.
  - reflexivity.
  - vm_compute. reflexivity.
  - vm_compute. reflexivity.
Defined.

(** *** The notices read from a mailbox *)

(** X28.  The notices read from a mailbox.  Every notice that
    [fetchNDRsForSender] returns comes from a message of the Inbox or of
    the Junk folder that has the subject or the sender of a non-delivery
    report; it carries the subject and the reception time of that
    message and the non-empty recipient and the reason parsed from it.
    A notice found for a recipient is one of the notices, and its
    recipient is that recipient up to letter case. *)
Theorem notices_come_from_ndr_messages graph sender since :
  (forall ndr,
      In ndr (ProcessBounceChecks.fetchNDRsForSender graph sender since) ->
      exists folder messages msg,
        In folder ["Inbox"; "JunkEmail"] /\
        graph sender folder since = Some messages /\
        In msg messages /\
        ProcessBounceChecks.is_ndr_message msg = true /\
        let p := ProcessBounceChecks.parseNDRContent
                   (ProcessBounceChecks.text_of (msg_subject msg))
                   (ProcessBounceChecks.text_of (msg_body msg)) in
        Ndr.recipientEmail p
        = Some (ProcessBounceChecks.ndr_recipientEmail ndr) /\
        ProcessBounceChecks.ndr_recipientEmail ndr <> "" /\
        ProcessBounceChecks.ndr_reason ndr = Ndr.reason p /\
        ProcessBounceChecks.ndr_subject ndr
        = ProcessBounceChecks.text_of (msg_subject msg) /\
        ProcessBounceChecks.ndr_receivedDateTime ndr = receivedDateTime msg) /\
  (forall ndrs recipient ndr,
      ProcessBounceChecks.find_ndr ndrs recipient = Some ndr ->
      In ndr ndrs /\
      Js.toLowerCase (ProcessBounceChecks.ndr_recipientEmail ndr)
      = Js.toLowerCase recipient).
Proof.
  split.
  - intros ndr H. unfold ProcessBounceChecks.fetchNDRsForSender in H.
    apply in_flat_map in H. destruct H as [folder [Hf H]].
    destruct (graph sender folder since) as [messages |] eqn:E;
      [| destruct H].
    apply in_flat_map in H. destruct H as [msg [Hm H]].
    exists folder, messages, msg.
    split; [exact Hf |]. split; [exact E |]. split; [exact Hm |].
    unfold ProcessBounceChecks.ndr_of_message in H.
    destruct (ProcessBounceChecks.is_ndr_message msg); [| destruct H].
    split; [reflexivity |]. cbv zeta.
    destruct (Js.truthy (Ndr.recipientEmail _)) eqn:Et; [| destruct H].
    destruct (Ndr.recipientEmail _) as [r |] eqn:Er; [| destruct H].
    destruct H as [<- | []]. simpl.
    split; [reflexivity |]. split; [| auto].
    intros ->. discriminate.
  - intros ndrs recipient ndr H. unfold ProcessBounceChecks.find_ndr in H.
    apply find_some in H. destruct H as [Hin H].
    split; [exact Hin |]. apply String.eqb_eq. exact H.
Qed.

Lemma notices_come_from_ndr_messages_witness :
  Js.toLowerCase "jane@acme.com" = Js.toLowerCase "Jane@Acme.com".
Proof.
  apply (proj2 (notices_come_from_ndr_messages Example.mailbox "me@corp.com"
                  0%Z)
               [ProcessBounceChecks.mkNdr "Undeliverable: Hello" ""
                  "jane@acme.com" None None]
               "Jane@Acme.com"
               (ProcessBounceChecks.mkNdr "Undeliverable: Hello" ""
                  "jane@acme.com" None None)).
  vm_compute. reflexivity.
Defined.

Lemma reply_recorded_once_witness :
  email_replies
    (Store.db
       (snd (ProcessEmailReplies.process_reply Store.reliable
               (ProcessEmailReplies.index_by_message_id [Example.E1]) []
               (ProcessEmailReplies.mkReplyInfo "jane@acme.com" (Some "Jane")
                  "Re: Hello" "sure" (Some (Example.t0 + 90000)%Z) "G1"
                  (Some "m1@corp.com"))
               (Store.start Example.db1))))
  = [ProcessEmailReplies.reply_row Example.E1
       (ProcessEmailReplies.mkReplyInfo "jane@acme.com" (Some "Jane")
          "Re: Hello" "sure" (Some (Example.t0 + 90000)%Z) "G1"
          (Some "m1@corp.com"))].
Proof.
  apply (reply_recorded_once Store.reliable
           (ProcessEmailReplies.index_by_message_id [Example.E1]) [] ["E1"]
           (ProcessEmailReplies.mkReplyInfo "jane@acme.com" (Some "Jane")
              "Re: Hello" "sure" (Some (Example.t0 + 90000)%Z) "G1"
              (Some "m1@corp.com"))
           "m1@corp.com" Example.E1 (Store.start Example.db1)).
  - intro n. reflexivity.
  - reflexivity.
  - discriminate.
  - vm_compute. reflexivity.
  - vm_compute. reflexivity.
Defined.

